(** * ASTContext: type uniquing, canonicality and identifier interning

    A shallow embedding of [lib/AST/ASTContext.cpp].  The bump allocator
    is a growing list of objects, a pointer is the 1-based position of an
    object in that list ([0] is the null pointer), every [DenseMap],
    [StringMap] and [FoldingSet] member of [ASTContext::Implementation]
    is a finite map, and every factory is a function in a small state and
    error monad over the implementation record. *)

From stdpp Require Import base gmap strings list fin_maps.

Set Default Proof Using "Type".

(** ** Pointers and arena objects *)

(** [Type], [TypeBase*], [Identifier], [ExprHandle*], [NominalTypeDecl*]
    and [Module*] are all addresses handed out by the context's
    allocator. *)
Abbreviation Ptr := nat (only parsing).

Inductive TypeKind :=
  | Error | UnstructuredUnresolved
  | BuiltinInteger | BuiltinFloat
  | BuiltinRawPointer | BuiltinObjectPointer | BuiltinObjCPointer
  | Paren | Tuple
  | UnboundGeneric
  | BoundGenericClass | BoundGenericStruct | BoundGenericOneOf
  | OneOf | Struct | Class | Protocol
  | ProtocolComposition
  | MetaType | Module
  | Function | PolymorphicFunction
  | Array | ArraySlice
  | LValue
  | Substituted
  | TypeVariable.

Inductive DeclKind :=
  | DK_OneOf | DK_Struct | DK_Class | DK_Protocol | DK_Other.

Inductive FPKind :=
  | IEEE16 | IEEE32 | IEEE64 | IEEE80 | IEEE128 | PPC128.

#[global] Instance TypeKind_eq_dec : EqDecision TypeKind.
Proof. solve_decision. Defined.
#[global] Instance DeclKind_eq_dec : EqDecision DeclKind.
Proof. solve_decision. Defined.

(** One element of a tuple type.  Every component is a pointer: the
    element type, the interned name, the default-value expression handle
    and the base type of a vararg element. *)
Record TupleTypeElt := mkElt {
  Ty : Ptr;
  Name : Ptr;
  Init : Ptr;
  VarargBaseTy : Ptr
}.

(** Modelled from the spec: the accessors of [TupleTypeElt], which are
    declared in the type's header and not in this file.  A name, a
    default value and a vararg base type are each optional, and absent
    when the corresponding pointer is null. *)
Definition hasName (Elt : TupleTypeElt) : bool := negb (Name Elt =? 0).
Definition hasInit (Elt : TupleTypeElt) : bool := negb (Init Elt =? 0).
Definition isVararg (Elt : TupleTypeElt) : bool := negb (VarargBaseTy Elt =? 0).

(** The fields a node stores besides the [TypeBase] bits. *)
Inductive Payload :=
  | PNone
  | PInteger (BitWidth : N)
  | PFloat (fk : FPKind)
  | PParen (Underlying : Ptr)
  | PTuple (Fields : list TupleTypeElt)
  | PNominal (TheDecl : Ptr) (Parent : Ptr)
  | PBoundGeneric (TheDecl : Ptr) (Parent : Ptr) (GenericArgs : list Ptr)
  | PProtocolComposition (Protocols : list Ptr)
  | PMetaType (InstanceType : Ptr)
  | PModule (M : Ptr)
  | PFunction (Input Output : Ptr) (AutoClosure : bool)
  | PPolymorphicFunction (Input Output : Ptr) (Params : Ptr)
  | PArray (Base : Ptr) (Size : N)
  | PArraySlice (Base : Ptr)
  | PLValue (Object : Ptr) (Quals : N)
  | PSubstituted (Original Replacement : Ptr).

(** Modelled from the spec: [TypeBase], declared in the types header.
    Every node records its kind, a back-reference to the context that is
    non-null exactly for canonical nodes ([Context] is [true] when the
    reference is set), the unresolved flag and the has-type-variable
    flag. *)
Record TypeBase := mkType {
  Kind : TypeKind;
  Context : bool;
  Unresolved : bool;
  HasTypeVariable : bool;
  Data : Payload
}.

Inductive Object :=
  | TypeObj (T : TypeBase)
  | KeyDataObj (Str : string)
  | DeclObj (K : DeclKind)
  | ModuleObj (Name : Ptr)
  | ExprHandleObj (E : nat).

(** [ArrayRef<Substitution>]: a reference to memory owned by the caller,
    as a data pointer and a length. *)
Record ArrayRef := mkArrayRef { ar_data : nat; ar_length : nat }.

(** ** The implementation record *)

Record Implementation := mkImpl {
  Allocator : list Object;
  IdentifierTable : gmap string nat;
  TupleTypes : gmap (list nat) nat;
  MetaTypeTypes : gmap nat nat;
  ModuleTypes : gmap nat nat;
  FunctionTypes : gmap (nat * (nat * nat)) nat;
  ArrayTypes : gmap (nat * N) nat;
  ArraySliceTypes : gmap nat nat;
  IntegerTypes : gmap N nat;
  ParenTypes : gmap nat nat;
  LValueTypes : gmap (nat * N) nat;
  SubstitutedTypes : gmap (nat * nat) nat;
  OneOfTypes : gmap (list nat) nat;
  StructTypes : gmap (list nat) nat;
  ClassTypes : gmap (list nat) nat;
  ProtocolCompositionTypes : gmap (list nat) nat;
  UnboundGenericTypes : gmap (list nat) nat;
  BoundGenericTypes : gmap (list nat) nat;
  BoundGenericSubstitutions : gmap nat ArrayRef
}.

(** Assignment to one member; the others are carried over. *)
Definition set_Allocator (f : list Object → list Object) (C : Implementation) : Implementation :=
  mkImpl (f (Allocator C)) (IdentifierTable C) (TupleTypes C) (MetaTypeTypes C) (ModuleTypes C)
         (FunctionTypes C) (ArrayTypes C) (ArraySliceTypes C) (IntegerTypes C) (ParenTypes C)
         (LValueTypes C) (SubstitutedTypes C) (OneOfTypes C) (StructTypes C) (ClassTypes C)
         (ProtocolCompositionTypes C) (UnboundGenericTypes C) (BoundGenericTypes C) (BoundGenericSubstitutions C).
Definition set_IdentifierTable (f : gmap string nat → gmap string nat) (C : Implementation) : Implementation :=
  mkImpl (Allocator C) (f (IdentifierTable C)) (TupleTypes C) (MetaTypeTypes C) (ModuleTypes C)
         (FunctionTypes C) (ArrayTypes C) (ArraySliceTypes C) (IntegerTypes C) (ParenTypes C)
         (LValueTypes C) (SubstitutedTypes C) (OneOfTypes C) (StructTypes C) (ClassTypes C)
         (ProtocolCompositionTypes C) (UnboundGenericTypes C) (BoundGenericTypes C) (BoundGenericSubstitutions C).
Definition set_TupleTypes (f : gmap (list nat) nat → gmap (list nat) nat) (C : Implementation) : Implementation :=
  mkImpl (Allocator C) (IdentifierTable C) (f (TupleTypes C)) (MetaTypeTypes C) (ModuleTypes C)
         (FunctionTypes C) (ArrayTypes C) (ArraySliceTypes C) (IntegerTypes C) (ParenTypes C)
         (LValueTypes C) (SubstitutedTypes C) (OneOfTypes C) (StructTypes C) (ClassTypes C)
         (ProtocolCompositionTypes C) (UnboundGenericTypes C) (BoundGenericTypes C) (BoundGenericSubstitutions C).
Definition set_MetaTypeTypes (f : gmap nat nat → gmap nat nat) (C : Implementation) : Implementation :=
  mkImpl (Allocator C) (IdentifierTable C) (TupleTypes C) (f (MetaTypeTypes C)) (ModuleTypes C)
         (FunctionTypes C) (ArrayTypes C) (ArraySliceTypes C) (IntegerTypes C) (ParenTypes C)
         (LValueTypes C) (SubstitutedTypes C) (OneOfTypes C) (StructTypes C) (ClassTypes C)
         (ProtocolCompositionTypes C) (UnboundGenericTypes C) (BoundGenericTypes C) (BoundGenericSubstitutions C).
Definition set_ModuleTypes (f : gmap nat nat → gmap nat nat) (C : Implementation) : Implementation :=
  mkImpl (Allocator C) (IdentifierTable C) (TupleTypes C) (MetaTypeTypes C) (f (ModuleTypes C))
         (FunctionTypes C) (ArrayTypes C) (ArraySliceTypes C) (IntegerTypes C) (ParenTypes C)
         (LValueTypes C) (SubstitutedTypes C) (OneOfTypes C) (StructTypes C) (ClassTypes C)
         (ProtocolCompositionTypes C) (UnboundGenericTypes C) (BoundGenericTypes C) (BoundGenericSubstitutions C).
Definition set_FunctionTypes (f : gmap (nat * (nat * nat)) nat → gmap (nat * (nat * nat)) nat) (C : Implementation) : Implementation :=
  mkImpl (Allocator C) (IdentifierTable C) (TupleTypes C) (MetaTypeTypes C) (ModuleTypes C)
         (f (FunctionTypes C)) (ArrayTypes C) (ArraySliceTypes C) (IntegerTypes C) (ParenTypes C)
         (LValueTypes C) (SubstitutedTypes C) (OneOfTypes C) (StructTypes C) (ClassTypes C)
         (ProtocolCompositionTypes C) (UnboundGenericTypes C) (BoundGenericTypes C) (BoundGenericSubstitutions C).
Definition set_ArrayTypes (f : gmap (nat * N) nat → gmap (nat * N) nat) (C : Implementation) : Implementation :=
  mkImpl (Allocator C) (IdentifierTable C) (TupleTypes C) (MetaTypeTypes C) (ModuleTypes C)
         (FunctionTypes C) (f (ArrayTypes C)) (ArraySliceTypes C) (IntegerTypes C) (ParenTypes C)
         (LValueTypes C) (SubstitutedTypes C) (OneOfTypes C) (StructTypes C) (ClassTypes C)
         (ProtocolCompositionTypes C) (UnboundGenericTypes C) (BoundGenericTypes C) (BoundGenericSubstitutions C).
Definition set_ArraySliceTypes (f : gmap nat nat → gmap nat nat) (C : Implementation) : Implementation :=
  mkImpl (Allocator C) (IdentifierTable C) (TupleTypes C) (MetaTypeTypes C) (ModuleTypes C)
         (FunctionTypes C) (ArrayTypes C) (f (ArraySliceTypes C)) (IntegerTypes C) (ParenTypes C)
         (LValueTypes C) (SubstitutedTypes C) (OneOfTypes C) (StructTypes C) (ClassTypes C)
         (ProtocolCompositionTypes C) (UnboundGenericTypes C) (BoundGenericTypes C) (BoundGenericSubstitutions C).
Definition set_IntegerTypes (f : gmap N nat → gmap N nat) (C : Implementation) : Implementation :=
  mkImpl (Allocator C) (IdentifierTable C) (TupleTypes C) (MetaTypeTypes C) (ModuleTypes C)
         (FunctionTypes C) (ArrayTypes C) (ArraySliceTypes C) (f (IntegerTypes C)) (ParenTypes C)
         (LValueTypes C) (SubstitutedTypes C) (OneOfTypes C) (StructTypes C) (ClassTypes C)
         (ProtocolCompositionTypes C) (UnboundGenericTypes C) (BoundGenericTypes C) (BoundGenericSubstitutions C).
Definition set_ParenTypes (f : gmap nat nat → gmap nat nat) (C : Implementation) : Implementation :=
  mkImpl (Allocator C) (IdentifierTable C) (TupleTypes C) (MetaTypeTypes C) (ModuleTypes C)
         (FunctionTypes C) (ArrayTypes C) (ArraySliceTypes C) (IntegerTypes C) (f (ParenTypes C))
         (LValueTypes C) (SubstitutedTypes C) (OneOfTypes C) (StructTypes C) (ClassTypes C)
         (ProtocolCompositionTypes C) (UnboundGenericTypes C) (BoundGenericTypes C) (BoundGenericSubstitutions C).
Definition set_LValueTypes (f : gmap (nat * N) nat → gmap (nat * N) nat) (C : Implementation) : Implementation :=
  mkImpl (Allocator C) (IdentifierTable C) (TupleTypes C) (MetaTypeTypes C) (ModuleTypes C)
         (FunctionTypes C) (ArrayTypes C) (ArraySliceTypes C) (IntegerTypes C) (ParenTypes C)
         (f (LValueTypes C)) (SubstitutedTypes C) (OneOfTypes C) (StructTypes C) (ClassTypes C)
         (ProtocolCompositionTypes C) (UnboundGenericTypes C) (BoundGenericTypes C) (BoundGenericSubstitutions C).
Definition set_SubstitutedTypes (f : gmap (nat * nat) nat → gmap (nat * nat) nat) (C : Implementation) : Implementation :=
  mkImpl (Allocator C) (IdentifierTable C) (TupleTypes C) (MetaTypeTypes C) (ModuleTypes C)
         (FunctionTypes C) (ArrayTypes C) (ArraySliceTypes C) (IntegerTypes C) (ParenTypes C)
         (LValueTypes C) (f (SubstitutedTypes C)) (OneOfTypes C) (StructTypes C) (ClassTypes C)
         (ProtocolCompositionTypes C) (UnboundGenericTypes C) (BoundGenericTypes C) (BoundGenericSubstitutions C).
Definition set_OneOfTypes (f : gmap (list nat) nat → gmap (list nat) nat) (C : Implementation) : Implementation :=
  mkImpl (Allocator C) (IdentifierTable C) (TupleTypes C) (MetaTypeTypes C) (ModuleTypes C)
         (FunctionTypes C) (ArrayTypes C) (ArraySliceTypes C) (IntegerTypes C) (ParenTypes C)
         (LValueTypes C) (SubstitutedTypes C) (f (OneOfTypes C)) (StructTypes C) (ClassTypes C)
         (ProtocolCompositionTypes C) (UnboundGenericTypes C) (BoundGenericTypes C) (BoundGenericSubstitutions C).
Definition set_StructTypes (f : gmap (list nat) nat → gmap (list nat) nat) (C : Implementation) : Implementation :=
  mkImpl (Allocator C) (IdentifierTable C) (TupleTypes C) (MetaTypeTypes C) (ModuleTypes C)
         (FunctionTypes C) (ArrayTypes C) (ArraySliceTypes C) (IntegerTypes C) (ParenTypes C)
         (LValueTypes C) (SubstitutedTypes C) (OneOfTypes C) (f (StructTypes C)) (ClassTypes C)
         (ProtocolCompositionTypes C) (UnboundGenericTypes C) (BoundGenericTypes C) (BoundGenericSubstitutions C).
Definition set_ClassTypes (f : gmap (list nat) nat → gmap (list nat) nat) (C : Implementation) : Implementation :=
  mkImpl (Allocator C) (IdentifierTable C) (TupleTypes C) (MetaTypeTypes C) (ModuleTypes C)
         (FunctionTypes C) (ArrayTypes C) (ArraySliceTypes C) (IntegerTypes C) (ParenTypes C)
         (LValueTypes C) (SubstitutedTypes C) (OneOfTypes C) (StructTypes C) (f (ClassTypes C))
         (ProtocolCompositionTypes C) (UnboundGenericTypes C) (BoundGenericTypes C) (BoundGenericSubstitutions C).
Definition set_ProtocolCompositionTypes (f : gmap (list nat) nat → gmap (list nat) nat) (C : Implementation) : Implementation :=
  mkImpl (Allocator C) (IdentifierTable C) (TupleTypes C) (MetaTypeTypes C) (ModuleTypes C)
         (FunctionTypes C) (ArrayTypes C) (ArraySliceTypes C) (IntegerTypes C) (ParenTypes C)
         (LValueTypes C) (SubstitutedTypes C) (OneOfTypes C) (StructTypes C) (ClassTypes C)
         (f (ProtocolCompositionTypes C)) (UnboundGenericTypes C) (BoundGenericTypes C) (BoundGenericSubstitutions C).
Definition set_UnboundGenericTypes (f : gmap (list nat) nat → gmap (list nat) nat) (C : Implementation) : Implementation :=
  mkImpl (Allocator C) (IdentifierTable C) (TupleTypes C) (MetaTypeTypes C) (ModuleTypes C)
         (FunctionTypes C) (ArrayTypes C) (ArraySliceTypes C) (IntegerTypes C) (ParenTypes C)
         (LValueTypes C) (SubstitutedTypes C) (OneOfTypes C) (StructTypes C) (ClassTypes C)
         (ProtocolCompositionTypes C) (f (UnboundGenericTypes C)) (BoundGenericTypes C) (BoundGenericSubstitutions C).
Definition set_BoundGenericTypes (f : gmap (list nat) nat → gmap (list nat) nat) (C : Implementation) : Implementation :=
  mkImpl (Allocator C) (IdentifierTable C) (TupleTypes C) (MetaTypeTypes C) (ModuleTypes C)
         (FunctionTypes C) (ArrayTypes C) (ArraySliceTypes C) (IntegerTypes C) (ParenTypes C)
         (LValueTypes C) (SubstitutedTypes C) (OneOfTypes C) (StructTypes C) (ClassTypes C)
         (ProtocolCompositionTypes C) (UnboundGenericTypes C) (f (BoundGenericTypes C)) (BoundGenericSubstitutions C).
Definition set_BoundGenericSubstitutions (f : gmap nat ArrayRef → gmap nat ArrayRef) (C : Implementation) : Implementation :=
  mkImpl (Allocator C) (IdentifierTable C) (TupleTypes C) (MetaTypeTypes C) (ModuleTypes C)
         (FunctionTypes C) (ArrayTypes C) (ArraySliceTypes C) (IntegerTypes C) (ParenTypes C)
         (LValueTypes C) (SubstitutedTypes C) (OneOfTypes C) (StructTypes C) (ClassTypes C)
         (ProtocolCompositionTypes C) (UnboundGenericTypes C) (BoundGenericTypes C) (f (BoundGenericSubstitutions C)).

(** [ASTContext::Implementation::Implementation()]: an empty allocator
    and empty tables. *)
Definition Implementation_new : Implementation :=
  mkImpl [] ∅ ∅ ∅ ∅ ∅ ∅ ∅ ∅ ∅ ∅ ∅ ∅ ∅ ∅ ∅ ∅ ∅ ∅.

(** ** Outcomes and the state monad *)

(** A call returns, trips an [assert], or dereferences a pointer that
    does not point to an object of the expected class. *)
Inductive Outcome (A : Type) :=
  | Ok (a : A) (C : Implementation)
  | AssertFailed (msg : string)
  | Undefined.
Arguments Ok {A} a C.
Arguments AssertFailed {A} msg.
Arguments Undefined {A}.

Definition M (A : Type) : Type := Implementation → Outcome A.

Definition ret {A} (a : A) : M A := λ C, Ok a C.

Definition bind {A B} (m : M A) (k : A → M B) : M B :=
  λ C, match m C with
       | Ok a C' => k a C'
       | AssertFailed msg => AssertFailed msg
       | Undefined => Undefined
       end.

Notation "'do' x <- m ; k" := (bind m (λ x, k))
  (at level 10, x name, m at level 100, k at level 200).
Notation "'run' m ; k" := (bind m (λ _, k))
  (at level 10, m at level 100, k at level 200).

Definition gets {A} (f : Implementation → A) : M A := λ C, Ok (f C) C.
Definition modify (f : Implementation → Implementation) : M unit := λ C, Ok tt (f C).
Definition assert (b : bool) (msg : string) : M unit :=
  λ C, if b then Ok tt C else AssertFailed msg.
Definition undefined {A} : M A := λ _, Undefined.

(** ** Reading the arena *)

Definition deref (A : list Object) (p : Ptr) : option Object :=
  match p with
  | 0 => None
  | S i => A !! i
  end.

Definition derefType (A : list Object) (p : Ptr) : option TypeBase :=
  match deref A p with
  | Some (TypeObj T) => Some T
  | _ => None
  end.

Definition derefDecl (A : list Object) (p : Ptr) : option DeclKind :=
  match deref A p with
  | Some (DeclObj K) => Some K
  | _ => None
  end.

(** [p->...] for a [Type] or [TypeBase*]: undefined unless [p] points to
    a type node. *)
Definition typeBase (p : Ptr) : M TypeBase :=
  λ C, match derefType (Allocator C) p with
       | Some T => Ok T C
       | None => Undefined
       end.

Definition declKind (p : Ptr) : M DeclKind :=
  λ C, match derefDecl (Allocator C) p with
       | Some K => Ok K C
       | None => Undefined
       end.

(** [ASTContext::Allocate] followed by the placement of an object: the
    object lands at the end of the arena and its address is returned. *)
Definition Allocate (o : Object) : M Ptr :=
  λ C, Ok (S (length (Allocator C))) (set_Allocator (λ A, A ++ [o]) C).

(** [DenseMap::operator[]] on a table of pointers: the stored pointer, or
    the null pointer of a freshly value-initialised slot. *)
Definition slot {K} `{Countable K} (T : gmap K nat) (k : K) : Ptr :=
  default 0 (T !! k).

(** [C.AllocateCopy] of an argument list is folded into the node that
    stores the copy: the payload holds the list itself. *)

(** ** [FoldingSetNodeID] and the profiles *)

(** A node ID is the sequence of words added to it. *)
Abbreviation FoldingSetNodeID := (list nat) (only parsing).

Definition AddInteger (ID : list nat) (n : nat) : list nat := ID ++ [n].
Definition AddPointer (ID : list nat) (p : Ptr) : list nat := ID ++ [p].

(** [TupleType::Profile] *)
Definition TupleType_Profile (ID : list nat) (Fields : list TupleTypeElt) : list nat :=
  foldl (λ ID Elt,
           AddPointer (AddPointer (AddPointer (AddPointer ID (Ty Elt)) (Name Elt))
                                  (Init Elt)) (VarargBaseTy Elt))
        (AddInteger ID (length Fields)) Fields.

(** [UnboundGenericType::Profile], [OneOfType::Profile],
    [StructType::Profile] and [ClassType::Profile] have the same body. *)
Definition UnboundGenericType_Profile (ID : list nat) (TheDecl Parent : Ptr) : list nat :=
  AddPointer (AddPointer ID TheDecl) Parent.
Definition OneOfType_Profile (ID : list nat) (D Parent : Ptr) : list nat :=
  AddPointer (AddPointer ID D) Parent.
Definition StructType_Profile (ID : list nat) (D Parent : Ptr) : list nat :=
  AddPointer (AddPointer ID D) Parent.
Definition ClassType_Profile (ID : list nat) (D Parent : Ptr) : list nat :=
  AddPointer (AddPointer ID D) Parent.

(** [BoundGenericType::Profile] *)
Definition BoundGenericType_Profile
    (ID : list nat) (TheDecl Parent : Ptr) (GenericArgs : list Ptr) : list nat :=
  foldl AddPointer
        (AddInteger (AddPointer (AddPointer ID TheDecl) Parent) (length GenericArgs))
        GenericArgs.

(** Modelled from the spec: [ProtocolCompositionType::Profile], declared
    in the types header.  The profile is the ordered list of the protocol
    types. *)
Definition ProtocolCompositionType_Profile (ID : list nat) (Protocols : list Ptr) : list nat :=
  foldl AddPointer ID Protocols.

(** ** Constructors and factories *)

(** The bits of [TypeBase] that a constructor defined in the types header
    chooses on its own. *)
Record HeaderBits := mkBits {
  hb_Context : bool;
  hb_Unresolved : bool;
  hb_HasTypeVariable : bool
}.

Section Factories.

(** The constructors of [ParenType], [TupleType], [NominalType],
    [UnboundGenericType], [ProtocolCompositionType], [ModuleType],
    [BuiltinIntegerType], [ArraySliceType], [LValueType],
    [SubstitutedType] and of the singleton types are defined in the types
    header.  Whatever [TypeBase] bit such a constructor is not handed by
    its caller in this file is left open: it is given by [header], an
    arbitrary function of the memory the constructor can read, the kind
    and the fields of the node.  A bit that the caller does hand over (a
    context pointer, a has-type-variable flag) is stored as it is, the
    way the constructors defined in this file do. *)
Variable header : list Object → TypeKind → Payload → HeaderBits.

(** Modelled from the spec: the accessors of [TypeBase], declared in the
    types header.  A node is canonical exactly when its context
    back-reference is set; the two flags are read as stored. *)
Definition isCanonical (T : TypeBase) : bool := Context T.
Definition hasTypeVariable (T : TypeBase) : bool := HasTypeVariable T.
Definition isUnresolvedType (T : TypeBase) : bool := Unresolved T.

(** A node all of whose bits are chosen in the header. *)
Definition headerNode (K : TypeKind) (D : Payload) : M TypeBase :=
  do A <- gets Allocator;
  let h := header A K D in
  ret (mkType K (hb_Context h) (hb_Unresolved h) (hb_HasTypeVariable h) D).

(** [new (C) T(...)]: the constructed node is placed in the arena.  The
    constructor is run before the placement; it only reads nodes that
    already exist. *)
Definition new (ctor : M TypeBase) : M Ptr :=
  do T <- ctor; Allocate (TypeObj T).

(** *** Identifiers *)

(** [ASTContext::getIdentifier] *)
Definition getIdentifier (Str : string) : M Ptr :=
  if decide (Str = EmptyString) then ret 0
  else
    do Known <- gets (λ C, IdentifierTable C !! Str);
    match Known with
    | Some KeyData => ret KeyData
    | None =>
        do KeyData <- Allocate (KeyDataObj Str);
        run modify (set_IdentifierTable <[Str := KeyData]>);
        ret KeyData
    end.

(** *** The substitution store *)

(** [ASTContext::getSubstitutions] *)
Definition getSubstitutions (Bound : Ptr) : M (option ArrayRef) :=
  do B <- typeBase Bound;
  run assert (isCanonical B) "Requesting non-canonical substitutions";
  gets (λ C, BoundGenericSubstitutions C !! Bound).

(** [ASTContext::setSubstitutions] *)
Definition setSubstitutions (Bound : Ptr) (Subs : ArrayRef) : M unit :=
  do B <- typeBase Bound;
  run assert (isCanonical B) "Requesting non-canonical substitutions";
  do Known <- gets (λ C, BoundGenericSubstitutions C !! Bound);
  run assert (bool_decide (Known = None)) "Already have substitutions?";
  modify (set_BoundGenericSubstitutions <[Bound := Subs]>).

(** *** Builtin integers and parentheses *)

(** [BuiltinIntegerType::get] *)
Definition BuiltinIntegerType_get (BitWidth : N) : M Ptr :=
  do Result <- gets (λ C, slot (IntegerTypes C) BitWidth);
  if Result =? 0 then
    do Result <- new (headerNode BuiltinInteger (PInteger BitWidth));
    run modify (set_IntegerTypes <[BitWidth := Result]>);
    ret Result
  else ret Result.

Definition ParenType_ctor (underlying : Ptr) (hasTypeVariable : bool) : M TypeBase :=
  do A <- gets Allocator;
  let h := header A Paren (PParen underlying) in
  ret (mkType Paren (hb_Context h) (hb_Unresolved h) hasTypeVariable (PParen underlying)).

(** [ParenType::get] *)
Definition ParenType_get (underlying : Ptr) : M Ptr :=
  do Result <- gets (λ C, slot (ParenTypes C) underlying);
  do U <- typeBase underlying;
  let hasTypeVariable := hasTypeVariable U in
  if Result =? 0 then
    do Result <- new (ParenType_ctor underlying hasTypeVariable);
    run modify (set_ParenTypes <[underlying := Result]>);
    ret Result
  else ret Result.

(** *** Tuples *)

(** The first loop of [TupleType::get], from the state
    [(HasAnyDefaultValues, HasTypeVariable)]; a [break] returns the state
    at once. *)
Fixpoint TupleType_get_flags (Fields : list TupleTypeElt)
    (HasAnyDefaultValues HasTypeVariable : bool) : M (bool * bool) :=
  match Fields with
  | [] => ret (HasAnyDefaultValues, HasTypeVariable)
  | Elt :: Fields' =>
      let HasAnyDefaultValues' := if hasInit Elt then true else HasAnyDefaultValues in
      if hasInit Elt && HasTypeVariable then ret (HasAnyDefaultValues', HasTypeVariable)
      else
        do EltHasTypeVariable <-
          (if Ty Elt =? 0 then ret false
           else do T <- typeBase (Ty Elt); ret (hasTypeVariable T));
        if EltHasTypeVariable then
          if HasAnyDefaultValues' then ret (HasAnyDefaultValues', true)
          else TupleType_get_flags Fields' HasAnyDefaultValues' true
        else TupleType_get_flags Fields' HasAnyDefaultValues' HasTypeVariable
  end.

(** The second loop of [TupleType::get]: [IsCanonical]. *)
Fixpoint TupleType_get_canonical (Fields : list TupleTypeElt) : M bool :=
  match Fields with
  | [] => ret true
  | Elt :: Fields' =>
      if Ty Elt =? 0 then ret false
      else
        do T <- typeBase (Ty Elt);
        if negb (isCanonical T) then ret false
        else TupleType_get_canonical Fields'
  end.

Definition TupleType_ctor (Fields : list TupleTypeElt) (Ctx : bool)
    (HasTypeVariable : bool) : M TypeBase :=
  do A <- gets Allocator;
  let h := header A Tuple (PTuple Fields) in
  ret (mkType Tuple Ctx (hb_Unresolved h) HasTypeVariable (PTuple Fields)).

(** [TupleType::get] past its first [return]: lines 169 to 214. *)
Definition TupleType_get_tuple (Fields : list TupleTypeElt) : M Ptr :=
  do Flags <- TupleType_get_flags Fields false false;
  let '(HasAnyDefaultValues, HasTypeVariable) := Flags in
  do Found <-
    (if negb HasAnyDefaultValues then
       gets (λ C, TupleTypes C !! TupleType_Profile [] Fields)
     else ret None);
  match Found with
  | Some TT => ret TT
  | None =>
      do IsCanonical <- TupleType_get_canonical Fields;
      do New <- new (TupleType_ctor Fields IsCanonical HasTypeVariable);
      run (if negb HasAnyDefaultValues then
             modify (set_TupleTypes <[TupleType_Profile [] Fields := New]>)
           else ret tt);
      ret New
  end.

(** [TupleType::get] *)
Definition TupleType_get (Fields : list TupleTypeElt) : M Ptr :=
  match Fields with
  | [Elt] =>
      if negb (isVararg Elt) && negb (hasName Elt) then ParenType_get (Ty Elt)
      else TupleType_get_tuple Fields
  | _ => TupleType_get_tuple Fields
  end.

(** *** Nominal and generic types *)

(** [Parent && Parent->hasTypeVariable()] *)
Definition parentHasTypeVariable (Parent : Ptr) : M bool :=
  if Parent =? 0 then ret false
  else do P <- typeBase Parent; ret (hasTypeVariable P).

Definition UnboundGenericType_ctor (TheDecl Parent : Ptr) (hasTypeVariable : bool)
    : M TypeBase :=
  do A <- gets Allocator;
  let h := header A UnboundGeneric (PNominal TheDecl Parent) in
  ret (mkType UnboundGeneric (hb_Context h) (hb_Unresolved h) hasTypeVariable
              (PNominal TheDecl Parent)).

(** [UnboundGenericType::get] *)
Definition UnboundGenericType_get (TheDecl Parent : Ptr) : M Ptr :=
  let ID := UnboundGenericType_Profile [] TheDecl Parent in
  do Found <- gets (λ C, UnboundGenericTypes C !! ID);
  match Found with
  | Some unbound => ret unbound
  | None =>
      do hasTypeVariable <- parentHasTypeVariable Parent;
      do result <- new (UnboundGenericType_ctor TheDecl Parent hasTypeVariable);
      run modify (set_UnboundGenericTypes <[ID := result]>);
      ret result
  end.

(** The loop of the [BoundGenericType] constructor over the arguments. *)
Fixpoint anyUnresolved (genericArgs : list Ptr) : M bool :=
  match genericArgs with
  | [] => ret false
  | arg :: genericArgs' =>
      do T <- typeBase arg;
      if isUnresolvedType T then ret true else anyUnresolved genericArgs'
  end.

(** [BoundGenericType::BoundGenericType] *)
Definition BoundGenericType_ctor (theKind : TypeKind) (theDecl parent : Ptr)
    (genericArgs : list Ptr) (context : bool) (hasTypeVariable : bool) : M TypeBase :=
  do parentUnresolved <-
    (if parent =? 0 then ret false
     else do P <- typeBase parent; ret (isUnresolvedType P));
  do unresolved <-
    (if parentUnresolved then ret true else anyUnresolved genericArgs);
  ret (mkType theKind context unresolved hasTypeVariable
              (PBoundGeneric theDecl parent genericArgs)).

(** The loop of [BoundGenericType::get] over the arguments, from the
    state [(IsCanonical, HasTypeVariable)]. *)
Fixpoint BoundGenericType_get_flags (GenericArgs : list Ptr)
    (IsCanonical HasTypeVariable : bool) : M (bool * bool) :=
  match GenericArgs with
  | [] => ret (IsCanonical, HasTypeVariable)
  | Arg :: GenericArgs' =>
      do T <- typeBase Arg;
      let IsCanonical' := if negb (isCanonical T) then false else IsCanonical in
      if negb (isCanonical T) && HasTypeVariable then ret (IsCanonical', HasTypeVariable)
      else if hasTypeVariable T then
        if negb IsCanonical' then ret (IsCanonical', true)
        else BoundGenericType_get_flags GenericArgs' IsCanonical' true
      else BoundGenericType_get_flags GenericArgs' IsCanonical' HasTypeVariable
  end.

(** [BoundGenericType::get].  The context is read off the declaration;
    [dyn_cast] tests the declaration's kind and [cast] asserts it. *)
Definition BoundGenericType_get (TheDecl Parent : Ptr) (GenericArgs : list Ptr) : M Ptr :=
  do DK <- declKind TheDecl;
  let ID := BoundGenericType_Profile [] TheDecl Parent GenericArgs in
  do Found <- gets (λ C, BoundGenericTypes C !! ID);
  match Found with
  | Some BGT => ret BGT
  | None =>
      do HasTypeVariable <- parentHasTypeVariable Parent;
      do IsCanonical <-
        (if Parent =? 0 then ret true
         else do P <- typeBase Parent; ret (isCanonical P));
      do Flags <-
        (if IsCanonical || negb HasTypeVariable then
           BoundGenericType_get_flags GenericArgs IsCanonical HasTypeVariable
         else ret (IsCanonical, HasTypeVariable));
      let '(IsCanonical, HasTypeVariable) := Flags in
      do newType <-
        match DK with
        | DK_Class =>
            new (BoundGenericType_ctor BoundGenericClass TheDecl Parent GenericArgs
                                       IsCanonical HasTypeVariable)
        | DK_Struct =>
            new (BoundGenericType_ctor BoundGenericStruct TheDecl Parent GenericArgs
                                       IsCanonical HasTypeVariable)
        | _ =>
            run assert (bool_decide (DK = DK_OneOf))
                       "cast<Ty>() argument of incompatible type!";
            new (BoundGenericType_ctor BoundGenericOneOf TheDecl Parent GenericArgs
                                       IsCanonical HasTypeVariable)
        end;
      run modify (set_BoundGenericTypes <[ID := newType]>);
      ret newType
  end.

(** The [NominalType] constructor, reached from the constructors of
    [OneOfType], [StructType], [ClassType] and [ProtocolType]. *)
Definition NominalType_ctor (K : TypeKind) (TheDecl Parent : Ptr) (HasTypeVariable : bool)
    : M TypeBase :=
  do A <- gets Allocator;
  let h := header A K (PNominal TheDecl Parent) in
  ret (mkType K (hb_Context h) (hb_Unresolved h) HasTypeVariable (PNominal TheDecl Parent)).

(** [OneOfType::OneOfType], [StructType::StructType],
    [ClassType::ClassType], [ProtocolType::ProtocolType] *)
Definition OneOfType_ctor := NominalType_ctor OneOf.
Definition StructType_ctor := NominalType_ctor Struct.
Definition ClassType_ctor := NominalType_ctor Class.
Definition ProtocolType_ctor (TheDecl : Ptr) : M TypeBase :=
  NominalType_ctor Protocol TheDecl 0 false.

(** [OneOfType::get] *)
Definition OneOfType_get (D Parent : Ptr) : M Ptr :=
  let id := OneOfType_Profile [] D Parent in
  do Found <- gets (λ C, OneOfTypes C !! id);
  match Found with
  | Some oneOfTy => ret oneOfTy
  | None =>
      do hasTypeVariable <- parentHasTypeVariable Parent;
      do oneOfTy <- new (OneOfType_ctor D Parent hasTypeVariable);
      run modify (set_OneOfTypes <[id := oneOfTy]>);
      ret oneOfTy
  end.

(** [StructType::get] *)
Definition StructType_get (D Parent : Ptr) : M Ptr :=
  let id := StructType_Profile [] D Parent in
  do Found <- gets (λ C, StructTypes C !! id);
  match Found with
  | Some structTy => ret structTy
  | None =>
      do hasTypeVariable <- parentHasTypeVariable Parent;
      do structTy <- new (StructType_ctor D Parent hasTypeVariable);
      run modify (set_StructTypes <[id := structTy]>);
      ret structTy
  end.

(** [ClassType::get] *)
Definition ClassType_get (D Parent : Ptr) : M Ptr :=
  let id := ClassType_Profile [] D Parent in
  do Found <- gets (λ C, ClassTypes C !! id);
  match Found with
  | Some classTy => ret classTy
  | None =>
      do hasTypeVariable <- parentHasTypeVariable Parent;
      do classTy <- new (ClassType_ctor D Parent hasTypeVariable);
      run modify (set_ClassTypes <[id := classTy]>);
      ret classTy
  end.

(** *** Protocol compositions, metatypes, modules *)

(** The loop of [ProtocolCompositionType::build]; it has no [break]. *)
Fixpoint ProtocolCompositionType_build_canonical (Protocols : list Ptr)
    (isCanonical : bool) : M bool :=
  match Protocols with
  | [] => ret isCanonical
  | t :: Protocols' =>
      do T <- typeBase t;
      ProtocolCompositionType_build_canonical Protocols'
        (if negb (Context T) then false else isCanonical)
  end.

Definition ProtocolCompositionType_ctor (Ctx : bool) (Protocols : list Ptr) : M TypeBase :=
  do A <- gets Allocator;
  let h := header A ProtocolComposition (PProtocolComposition Protocols) in
  ret (mkType ProtocolComposition Ctx (hb_Unresolved h) (hb_HasTypeVariable h)
              (PProtocolComposition Protocols)).

(** [ProtocolCompositionType::build] *)
Definition ProtocolCompositionType_build (Protocols : list Ptr) : M Ptr :=
  let ID := ProtocolCompositionType_Profile [] Protocols in
  do Found <- gets (λ C, ProtocolCompositionTypes C !! ID);
  match Found with
  | Some Result => ret Result
  | None =>
      do isCanonical <- ProtocolCompositionType_build_canonical Protocols true;
      do New <- new (ProtocolCompositionType_ctor isCanonical Protocols);
      run modify (set_ProtocolCompositionTypes <[ID := New]>);
      ret New
  end.

(** [MetaTypeType::MetaTypeType] *)
Definition MetaTypeType_ctor (T : Ptr) (C : bool) (HasTypeVariable : bool) : M TypeBase :=
  do I <- typeBase T;
  ret (mkType MetaType C (isUnresolvedType I) HasTypeVariable (PMetaType T)).

(** [MetaTypeType::get] *)
Definition MetaTypeType_get (T : Ptr) : M Ptr :=
  do Entry <- gets (λ C, slot (MetaTypeTypes C) T);
  if negb (Entry =? 0) then ret Entry
  else
    do I <- typeBase T;
    let hasTypeVariable := hasTypeVariable I in
    do Entry <- new (MetaTypeType_ctor T (isCanonical I) hasTypeVariable);
    run modify (set_MetaTypeTypes <[T := Entry]>);
    ret Entry.

(** [ModuleType::get].  The context is read off the module. *)
Definition ModuleType_get (Mod : Ptr) : M Ptr :=
  do A <- gets Allocator;
  match deref A Mod with
  | Some (ModuleObj _) =>
      do Entry <- gets (λ C, slot (ModuleTypes C) Mod);
      if negb (Entry =? 0) then ret Entry
      else
        do Entry <- new (headerNode Module (PModule Mod));
        run modify (set_ModuleTypes <[Mod := Entry]>);
        ret Entry
  | _ => undefined
  end.

(** *** Function types *)

(** [(char)isAutoClosure] *)
Definition char_of_bool (b : bool) : nat := if b then 1 else 0.

(** [FunctionType::FunctionType].  The context of a canonical input is
    the one context there is. *)
Definition FunctionType_ctor (input output : Ptr) (isAutoClosure : bool)
    (hasTypeVariable : bool) : M TypeBase :=
  do I <- typeBase input;
  do O <- typeBase output;
  ret (mkType Function
              (if isCanonical I && isCanonical O then true else false)
              (isUnresolvedType I || isUnresolvedType O)
              hasTypeVariable
              (PFunction input output isAutoClosure)).

(** [FunctionType::get] *)
Definition FunctionType_get (Input Result : Ptr) (isAutoClosure : bool) : M Ptr :=
  let key := (Input, (Result, char_of_bool isAutoClosure)) in
  do Entry <- gets (λ C, slot (FunctionTypes C) key);
  if negb (Entry =? 0) then ret Entry
  else
    do I <- typeBase Input;
    do R <- typeBase Result;
    let hasTypeVariable := hasTypeVariable I || hasTypeVariable R in
    do Entry <- new (FunctionType_ctor Input Result isAutoClosure hasTypeVariable);
    run modify (set_FunctionTypes <[key := Entry]>);
    ret Entry.

(** [PolymorphicFunctionType::PolymorphicFunctionType] *)
Definition PolymorphicFunctionType_ctor (input output params : Ptr) : M TypeBase :=
  do I <- typeBase input;
  do O <- typeBase output;
  let T := mkType PolymorphicFunction
                  (if isCanonical I && isCanonical O then true else false)
                  (isUnresolvedType I || isUnresolvedType O)
                  false
                  (PPolymorphicFunction input output params) in
  run assert (negb (hasTypeVariable I) && negb (hasTypeVariable O))
             "!input->hasTypeVariable() && !output->hasTypeVariable()";
  ret T.

(** [PolymorphicFunctionType::get] *)
Definition PolymorphicFunctionType_get (input output params : Ptr) : M Ptr :=
  new (PolymorphicFunctionType_ctor input output params).

(** *** Arrays, slices, lvalues, substituted types *)

(** [ArrayType::ArrayType] *)
Definition ArrayType_ctor (base : Ptr) (size : N) (hasTypeVariable : bool) : M TypeBase :=
  do B <- typeBase base;
  ret (mkType Array
              (if isCanonical B then true else false)
              (isUnresolvedType B)
              hasTypeVariable
              (PArray base size)).

(** [ArrayType::get] *)
Definition ArrayType_get (BaseType : Ptr) (Size : N) : M Ptr :=
  run assert (negb (Size =? 0)%N) "Size != 0";
  do Entry <- gets (λ C, slot (ArrayTypes C) (BaseType, Size));
  if negb (Entry =? 0) then ret Entry
  else
    do B <- typeBase BaseType;
    let hasTypeVariable := hasTypeVariable B in
    do Entry <- new (ArrayType_ctor BaseType Size hasTypeVariable);
    run modify (set_ArrayTypes <[(BaseType, Size) := Entry]>);
    ret Entry.

Definition ArraySliceType_ctor (base : Ptr) (hasTypeVariable : bool) : M TypeBase :=
  do A <- gets Allocator;
  let h := header A ArraySlice (PArraySlice base) in
  ret (mkType ArraySlice (hb_Context h) (hb_Unresolved h) hasTypeVariable (PArraySlice base)).

(** [ArraySliceType::get] *)
Definition ArraySliceType_get (base : Ptr) : M Ptr :=
  do entry <- gets (λ C, slot (ArraySliceTypes C) base);
  if negb (entry =? 0) then ret entry
  else
    do B <- typeBase base;
    let hasTypeVariable := hasTypeVariable B in
    do entry <- new (ArraySliceType_ctor base hasTypeVariable);
    run modify (set_ArraySliceTypes <[base := entry]>);
    ret entry.

Definition LValueType_ctor (objectTy : Ptr) (quals : N) (canonicalContext : bool)
    (hasTypeVariable : bool) : M TypeBase :=
  do A <- gets Allocator;
  let h := header A LValue (PLValue objectTy quals) in
  ret (mkType LValue canonicalContext (hb_Unresolved h) hasTypeVariable
              (PLValue objectTy quals)).

(** [LValueType::get]; [quals] is the qualifier set's opaque data. *)
Definition LValueType_get (objectTy : Ptr) (quals : N) : M Ptr :=
  let key := (objectTy, quals) in
  do it <- gets (λ C, LValueTypes C !! key);
  match it with
  | Some second => ret second
  | None =>
      do O <- typeBase objectTy;
      let hasTypeVariable := hasTypeVariable O in
      let canonicalContext := if isCanonical O then true else false in
      do type <- new (LValueType_ctor objectTy quals canonicalContext hasTypeVariable);
      run modify (set_LValueTypes <[key := type]>);
      ret type
  end.

Definition SubstitutedType_ctor (Original Replacement : Ptr) (hasTypeVariable : bool)
    : M TypeBase :=
  do A <- gets Allocator;
  let h := header A Substituted (PSubstituted Original Replacement) in
  ret (mkType Substituted (hb_Context h) (hb_Unresolved h) hasTypeVariable
              (PSubstituted Original Replacement)).

(** [SubstitutedType::get] *)
Definition SubstitutedType_get (Original Replacement : Ptr) : M Ptr :=
  do Known <- gets (λ C, slot (SubstitutedTypes C) (Original, Replacement));
  if Known =? 0 then
    do R <- typeBase Replacement;
    let hasTypeVariable := hasTypeVariable R in
    do Known <- new (SubstitutedType_ctor Original Replacement hasTypeVariable);
    run modify (set_SubstitutedTypes <[(Original, Replacement) := Known]>);
    ret Known
  else ret Known.

(** [ExprHandle::get] *)
Definition ExprHandle_get (E : nat) : M Ptr := Allocate (ExprHandleObj E).

(** *** The context's constructor *)

(** The members of [ASTContext] that the constructor initialises besides
    the implementation record: the builtin module and the singleton
    types. *)
Record ASTContext := mkASTContext {
  TheBuiltinModule : Ptr;
  TheErrorType : Ptr;
  TheEmptyTupleType : Ptr;
  TheObjectPointerType : Ptr;
  TheObjCPointerType : Ptr;
  TheRawPointerType : Ptr;
  TheUnstructuredUnresolvedType : Ptr;
  TheIEEE32Type : Ptr;
  TheIEEE64Type : Ptr;
  TheIEEE16Type : Ptr;
  TheIEEE80Type : Ptr;
  TheIEEE128Type : Ptr;
  ThePPC128Type : Ptr
}.

(** [ASTContext::ASTContext]: the member initialisers, in order. *)
Definition ASTContext_ctor : M ASTContext :=
  do Builtin <- getIdentifier "Builtin";
  do TheBuiltinModule <- Allocate (ModuleObj Builtin);
  do TheErrorType <- new (headerNode Error PNone);
  do TheEmptyTupleType <- TupleType_get [];
  do TheObjectPointerType <- new (headerNode BuiltinObjectPointer PNone);
  do TheObjCPointerType <- new (headerNode BuiltinObjCPointer PNone);
  do TheRawPointerType <- new (headerNode BuiltinRawPointer PNone);
  do TheUnstructuredUnresolvedType <- new (headerNode UnstructuredUnresolved PNone);
  do TheIEEE32Type <- new (headerNode BuiltinFloat (PFloat IEEE32));
  do TheIEEE64Type <- new (headerNode BuiltinFloat (PFloat IEEE64));
  do TheIEEE16Type <- new (headerNode BuiltinFloat (PFloat IEEE16));
  do TheIEEE80Type <- new (headerNode BuiltinFloat (PFloat IEEE80));
  do TheIEEE128Type <- new (headerNode BuiltinFloat (PFloat IEEE128));
  do ThePPC128Type <- new (headerNode BuiltinFloat (PFloat PPC128));
  ret (mkASTContext TheBuiltinModule TheErrorType TheEmptyTupleType
         TheObjectPointerType TheObjCPointerType TheRawPointerType
         TheUnstructuredUnresolvedType TheIEEE32Type TheIEEE64Type TheIEEE16Type
         TheIEEE80Type TheIEEE128Type ThePPC128Type).

(** A fresh context: the implementation record after the constructor has
    run on empty tables. *)
Definition ASTContext_new : Outcome ASTContext := ASTContext_ctor Implementation_new.

(** [ErrorType::get], [UnstructuredUnresolvedType::get],
    [TupleType::getEmpty] *)
Definition ErrorType_get (C : ASTContext) : Ptr := TheErrorType C.
Definition UnstructuredUnresolvedType_get (C : ASTContext) : Ptr :=
  TheUnstructuredUnresolvedType C.
Definition TupleType_getEmpty (C : ASTContext) : Ptr := TheEmptyTupleType C.


End Factories.

(** ** Requests to the type factories *)

(** One call of a type factory, with its arguments. *)
Inductive Request :=
  | GetInteger (BitWidth : N)
  | GetParen (underlying : Ptr)
  | GetTuple (Fields : list TupleTypeElt)
  | GetUnboundGeneric (TheDecl Parent : Ptr)
  | GetBoundGeneric (TheDecl Parent : Ptr) (GenericArgs : list Ptr)
  | GetOneOf (D Parent : Ptr)
  | GetStruct (D Parent : Ptr)
  | GetClass (D Parent : Ptr)
  | BuildProtocolComposition (Protocols : list Ptr)
  | GetMetaType (T : Ptr)
  | GetModule (Mod : Ptr)
  | GetFunction (Input Result : Ptr) (isAutoClosure : bool)
  | GetArray (BaseType : Ptr) (Size : N)
  | GetArraySlice (base : Ptr)
  | GetLValue (objectTy : Ptr) (quals : N)
  | GetSubstituted (Original Replacement : Ptr)
  | GetPolymorphicFunction (input output params : Ptr).

Definition exec (header : list Object → TypeKind → Payload → HeaderBits)
    (r : Request) : M Ptr :=
  match r with
  | GetInteger BitWidth => BuiltinIntegerType_get header BitWidth
  | GetParen underlying => ParenType_get header underlying
  | GetTuple Fields => TupleType_get header Fields
  | GetUnboundGeneric TheDecl Parent => UnboundGenericType_get header TheDecl Parent
  | GetBoundGeneric TheDecl Parent GenericArgs =>
      BoundGenericType_get TheDecl Parent GenericArgs
  | GetOneOf D Parent => OneOfType_get header D Parent
  | GetStruct D Parent => StructType_get header D Parent
  | GetClass D Parent => ClassType_get header D Parent
  | BuildProtocolComposition Protocols => ProtocolCompositionType_build header Protocols
  | GetMetaType T => MetaTypeType_get T
  | GetModule Mod => ModuleType_get header Mod
  | GetFunction Input Result isAutoClosure => FunctionType_get Input Result isAutoClosure
  | GetArray BaseType Size => ArrayType_get BaseType Size
  | GetArraySlice base => ArraySliceType_get header base
  | GetLValue objectTy quals => LValueType_get header objectTy quals
  | GetSubstituted Original Replacement => SubstitutedType_get header Original Replacement
  | GetPolymorphicFunction input output params =>
      PolymorphicFunctionType_get input output params
  end.

(** Two requests go to the same factory. *)
Definition same_factory (r1 r2 : Request) : bool :=
  match r1, r2 with
  | GetInteger _, GetInteger _
  | GetParen _, GetParen _
  | GetTuple _, GetTuple _
  | GetUnboundGeneric _ _, GetUnboundGeneric _ _
  | GetBoundGeneric _ _ _, GetBoundGeneric _ _ _
  | GetOneOf _ _, GetOneOf _ _
  | GetStruct _ _, GetStruct _ _
  | GetClass _ _, GetClass _ _
  | BuildProtocolComposition _, BuildProtocolComposition _
  | GetMetaType _, GetMetaType _
  | GetModule _, GetModule _
  | GetFunction _ _ _, GetFunction _ _ _
  | GetArray _ _, GetArray _ _
  | GetArraySlice _, GetArraySlice _
  | GetLValue _ _, GetLValue _ _
  | GetSubstituted _ _, GetSubstituted _ _
  | GetPolymorphicFunction _ _ _, GetPolymorphicFunction _ _ _ => true
  | _, _ => false
  end.

(** The requests excepted from uniquing: a tuple with a default-valued
    element and a polymorphic function type. *)
Definition excepted (r : Request) : bool :=
  match r with
  | GetTuple Fields => existsb hasInit Fields
  | GetPolymorphicFunction _ _ _ => true
  | _ => false
  end.

(** The pointers to types, declarations and modules among the arguments. *)
Definition req_ptrs (r : Request) : list Ptr :=
  match r with
  | GetInteger _ => []
  | GetParen underlying => [underlying]
  | GetTuple Fields => map Ty Fields
  | GetUnboundGeneric _ Parent | GetOneOf _ Parent | GetStruct _ Parent
  | GetClass _ Parent => [Parent]
  | GetBoundGeneric _ Parent GenericArgs => Parent :: GenericArgs
  | BuildProtocolComposition Protocols => Protocols
  | GetMetaType T => [T]
  | GetModule _ => []
  | GetFunction Input Result _ => [Input; Result]
  | GetArray BaseType _ => [BaseType]
  | GetArraySlice base => [base]
  | GetLValue objectTy _ => [objectTy]
  | GetSubstituted Original Replacement => [Original; Replacement]
  | GetPolymorphicFunction input output _ => [input; output]
  end.

(** [Fields.size() == 1 && !Fields[0].isVararg() && !Fields[0].hasName()] *)
Definition isParenthesized (Fields : list TupleTypeElt) : bool :=
  match Fields with
  | [Elt] => negb (isVararg Elt) && negb (hasName Elt)
  | _ => false
  end.

(** The fields of the node that answers a request. *)
Definition req_data (r : Request) : Payload :=
  match r with
  | GetInteger BitWidth => PInteger BitWidth
  | GetParen underlying => PParen underlying
  | GetTuple Fields =>
      match Fields with
      | [Elt] =>
          if negb (isVararg Elt) && negb (hasName Elt) then PParen (Ty Elt)
          else PTuple Fields
      | _ => PTuple Fields
      end
  | GetUnboundGeneric D Parent | GetOneOf D Parent | GetStruct D Parent
  | GetClass D Parent => PNominal D Parent
  | GetBoundGeneric TheDecl Parent GenericArgs => PBoundGeneric TheDecl Parent GenericArgs
  | BuildProtocolComposition Protocols => PProtocolComposition Protocols
  | GetMetaType T => PMetaType T
  | GetModule Mod => PModule Mod
  | GetFunction Input Result isAutoClosure => PFunction Input Result isAutoClosure
  | GetArray BaseType Size => PArray BaseType Size
  | GetArraySlice base => PArraySlice base
  | GetLValue objectTy quals => PLValue objectTy quals
  | GetSubstituted Original Replacement => PSubstituted Original Replacement
  | GetPolymorphicFunction input output params =>
      PPolymorphicFunction input output params
  end.

(** The table slot in which the result of a request is kept. *)
Definition table_entry (C : Implementation) (r : Request) : option Ptr :=
  match r with
  | GetInteger BitWidth => IntegerTypes C !! BitWidth
  | GetParen underlying => ParenTypes C !! underlying
  | GetTuple Fields =>
      match Fields with
      | [Elt] =>
          if negb (isVararg Elt) && negb (hasName Elt) then ParenTypes C !! Ty Elt
          else TupleTypes C !! TupleType_Profile [] Fields
      | _ => TupleTypes C !! TupleType_Profile [] Fields
      end
  | GetUnboundGeneric TheDecl Parent =>
      UnboundGenericTypes C !! UnboundGenericType_Profile [] TheDecl Parent
  | GetBoundGeneric TheDecl Parent GenericArgs =>
      BoundGenericTypes C !! BoundGenericType_Profile [] TheDecl Parent GenericArgs
  | GetOneOf D Parent => OneOfTypes C !! OneOfType_Profile [] D Parent
  | GetStruct D Parent => StructTypes C !! StructType_Profile [] D Parent
  | GetClass D Parent => ClassTypes C !! ClassType_Profile [] D Parent
  | BuildProtocolComposition Protocols =>
      ProtocolCompositionTypes C !! ProtocolCompositionType_Profile [] Protocols
  | GetMetaType T => MetaTypeTypes C !! T
  | GetModule Mod => ModuleTypes C !! Mod
  | GetFunction Input Result isAutoClosure =>
      FunctionTypes C !! (Input, (Result, char_of_bool isAutoClosure))
  | GetArray BaseType Size => ArrayTypes C !! (BaseType, Size)
  | GetArraySlice base => ArraySliceTypes C !! base
  | GetLValue objectTy quals => LValueTypes C !! (objectTy, quals)
  | GetSubstituted Original Replacement => SubstitutedTypes C !! (Original, Replacement)
  | GetPolymorphicFunction _ _ _ => None
  end.

(** What a factory dereferences or asserts before it probes its table. *)
Definition probe_ok (A : list Object) (r : Request) : Prop :=
  match r with
  | GetParen underlying => is_Some (derefType A underlying)
  | GetTuple Fields =>
      match Fields with
      | [Elt] =>
          if negb (isVararg Elt) && negb (hasName Elt) then is_Some (derefType A (Ty Elt))
          else Forall (λ p, p = 0 ∨ is_Some (derefType A p)) (map Ty Fields)
      | _ => Forall (λ p, p = 0 ∨ is_Some (derefType A p)) (map Ty Fields)
      end
  | GetBoundGeneric TheDecl _ _ => is_Some (derefDecl A TheDecl)
  | GetModule Mod => ∃ Name, deref A Mod = Some (ModuleObj Name)
  | GetArray _ Size => Size ≠ 0%N
  | _ => True
  end.

(** ** Canonicality and type variables of the children *)

Definition allocated (A : list Object) (p : Ptr) : Prop := p ≤ length A.

(** The child at [p] is a canonical node.  A null child is not. *)
Definition canonical (A : list Object) (p : Ptr) : bool :=
  match derefType A p with
  | Some T => Context T
  | None => false
  end.

(** The child at [p] has a type variable.  A null child has none. *)
Definition typeVariable (A : list Object) (p : Ptr) : bool :=
  match derefType A p with
  | Some T => HasTypeVariable T
  | None => false
  end.

(** The type pointers a node holds. *)
Definition typePtrs (D : Payload) : list Ptr :=
  match D with
  | PNone | PInteger _ | PFloat _ | PModule _ => []
  | PParen U => [U]
  | PTuple Fields => map Ty Fields
  | PNominal _ Parent => [Parent]
  | PBoundGeneric _ Parent GenericArgs => Parent :: GenericArgs
  | PProtocolComposition Protocols => Protocols
  | PMetaType T => [T]
  | PFunction In Out _ | PPolymorphicFunction In Out _ => [In; Out]
  | PArray B _ | PArraySlice B => [B]
  | PLValue Obj _ => [Obj]
  | PSubstituted Orig Repl => [Orig; Repl]
  end.

(** The children over which this file computes the context pointer of a
    node: the element types of a tuple (not the vararg base types), the
    parent when there is one and the arguments of a bound generic type,
    the member protocols, the instance, input, result, base and object
    types.  For a parenthesised, nominal, unbound generic, array slice or
    substituted node no factory of this file computes a context: the
    constructor that decides it is in the types header. *)
Definition canonicalChildren (D : Payload) : option (list Ptr) :=
  match D with
  | PTuple Fields => Some (map Ty Fields)
  | PBoundGeneric _ Parent GenericArgs =>
      Some ((if Parent =? 0 then [] else [Parent]) ++ GenericArgs)
  | PProtocolComposition Protocols => Some Protocols
  | PMetaType T => Some [T]
  | PFunction In Out _ | PPolymorphicFunction In Out _ => Some [In; Out]
  | PArray B _ => Some [B]
  | PLValue Obj _ => Some [Obj]
  | _ => None
  end.



(** The children a factory of this file consults for the
    has-type-variable flag: the structural children, except that
    [SubstitutedType::get] consults the replacement only and
    [TupleType::get] the element types only; a null parent is tested
    and counts as having no type variable.  [ProtocolCompositionType::build],
    [BuiltinIntegerType::get] and [ModuleType::get] hand no flag to the
    constructor: it is chosen in the types header. *)
Definition typeVariableChildren (D : Payload) : option (list Ptr) :=
  match D with
  | PParen U => Some [U]
  | PTuple Fields => Some (map Ty Fields)
  | PNominal _ Parent => Some [Parent]
  | PBoundGeneric _ Parent GenericArgs => Some (Parent :: GenericArgs)
  | PMetaType T => Some [T]
  | PFunction In Out _ | PPolymorphicFunction In Out _ => Some [In; Out]
  | PArray B _ | PArraySlice B => Some [B]
  | PLValue Obj _ => Some [Obj]
  | PSubstituted Orig Repl => Some [Repl]
  | _ => None
  end.

(** What the table invariant records about a uniqued node: its pointers
    are allocated, its canonical bit is the conjunction over
    [canonicalChildren] and its has-type-variable flag the disjunction
    over [typeVariableChildren]. *)
Record node_ok (A : list Object) (T : TypeBase) : Prop := mk_node_ok {
  ok_allocated : Forall (allocated A) (typePtrs (Data T));
  ok_canonical : ∀ ps, canonicalChildren (Data T) = Some ps →
                 Context T = forallb (canonical A) ps;
  ok_typeVariable : ∀ ps, typeVariableChildren (Data T) = Some ps →
                    HasTypeVariable T = existsb (typeVariable A) ps
}.

(** The arguments a factory can be called with: every pointer the
    factory may dereference points to an object of its class, and the
    asserted preconditions hold. *)
Definition request_valid (A : list Object) (r : Request) : Prop :=
  let valid p := is_Some (derefType A p) in
  let opt p := p = 0 ∨ is_Some (derefType A p) in
  match r with
  | GetInteger _ => True
  | GetParen underlying => valid underlying
  | GetTuple Fields =>
      Forall opt (map Ty Fields) ∧
      (isParenthesized Fields = true → Forall valid (map Ty Fields))
  | GetUnboundGeneric _ Parent | GetOneOf _ Parent | GetStruct _ Parent
  | GetClass _ Parent => opt Parent
  | GetBoundGeneric TheDecl Parent GenericArgs =>
      (∃ K, derefDecl A TheDecl = Some K ∧ (K = DK_Class ∨ K = DK_Struct ∨ K = DK_OneOf))
      ∧ opt Parent ∧ Forall valid GenericArgs
  | BuildProtocolComposition Protocols => Forall valid Protocols
  | GetMetaType T => valid T
  | GetModule Mod => ∃ Name, deref A Mod = Some (ModuleObj Name)
  | GetFunction Input Result _ => valid Input ∧ valid Result
  | GetArray BaseType Size => Size ≠ 0%N ∧ valid BaseType
  | GetArraySlice base => valid base
  | GetLValue objectTy _ => valid objectTy
  | GetSubstituted _ Replacement => valid Replacement
  | GetPolymorphicFunction input output _ =>
      valid input ∧ valid output ∧
      typeVariable A input = false ∧ typeVariable A output = false
  end.

(** ** The key under which a node sits in its table *)

Definition key_Integer (T : TypeBase) : option N :=
  match Kind T, Data T with BuiltinInteger, PInteger w => Some w | _, _ => None end.
Definition key_Paren (T : TypeBase) : option nat :=
  match Kind T, Data T with Paren, PParen U => Some U | _, _ => None end.
Definition key_Tuple (T : TypeBase) : option (list nat) :=
  match Kind T, Data T with
  | Tuple, PTuple Fields => Some (TupleType_Profile [] Fields)
  | _, _ => None
  end.
Definition key_UnboundGeneric (T : TypeBase) : option (list nat) :=
  match Kind T, Data T with
  | UnboundGeneric, PNominal D P => Some (UnboundGenericType_Profile [] D P)
  | _, _ => None
  end.
Definition key_BoundGeneric (T : TypeBase) : option (list nat) :=
  match Kind T, Data T with
  | (BoundGenericClass | BoundGenericStruct | BoundGenericOneOf), PBoundGeneric D P Args =>
      Some (BoundGenericType_Profile [] D P Args)
  | _, _ => None
  end.
Definition key_OneOf (T : TypeBase) : option (list nat) :=
  match Kind T, Data T with
  | OneOf, PNominal D P => Some (OneOfType_Profile [] D P)
  | _, _ => None
  end.
Definition key_Struct (T : TypeBase) : option (list nat) :=
  match Kind T, Data T with
  | Struct, PNominal D P => Some (StructType_Profile [] D P)
  | _, _ => None
  end.
Definition key_Class (T : TypeBase) : option (list nat) :=
  match Kind T, Data T with
  | Class, PNominal D P => Some (ClassType_Profile [] D P)
  | _, _ => None
  end.
Definition key_ProtocolComposition (T : TypeBase) : option (list nat) :=
  match Kind T, Data T with
  | ProtocolComposition, PProtocolComposition Ps =>
      Some (ProtocolCompositionType_Profile [] Ps)
  | _, _ => None
  end.
Definition key_MetaType (T : TypeBase) : option nat :=
  match Kind T, Data T with MetaType, PMetaType Inst => Some Inst | _, _ => None end.
Definition key_Module (T : TypeBase) : option nat :=
  match Kind T, Data T with Module, PModule Mod => Some Mod | _, _ => None end.
Definition key_Function (T : TypeBase) : option (nat * (nat * nat)) :=
  match Kind T, Data T with
  | Function, PFunction In Out a => Some (In, (Out, char_of_bool a))
  | _, _ => None
  end.
Definition key_Array (T : TypeBase) : option (nat * N) :=
  match Kind T, Data T with Array, PArray B n => Some (B, n) | _, _ => None end.
Definition key_ArraySlice (T : TypeBase) : option nat :=
  match Kind T, Data T with ArraySlice, PArraySlice B => Some B | _, _ => None end.
Definition key_LValue (T : TypeBase) : option (nat * N) :=
  match Kind T, Data T with LValue, PLValue Obj q => Some (Obj, q) | _, _ => None end.
Definition key_Substituted (T : TypeBase) : option (nat * nat) :=
  match Kind T, Data T with Substituted, PSubstituted Orig Repl => Some (Orig, Repl) | _, _ => None end.

(** Every entry of a table points to a type node that carries the
    entry's key and satisfies [node_ok]. *)
Definition table_ok {K} `{Countable K} (A : list Object) (Tb : gmap K nat)
    (key_of : TypeBase → option K) : Prop :=
  ∀ k p, Tb !! k = Some p →
    ∃ T, derefType A p = Some T ∧ key_of T = Some k ∧ node_ok A T.

(** The invariant of the implementation record. *)
Record wf (C : Implementation) : Prop := mk_wf {
  wf_IdentifierTable :
    ∀ Str p, IdentifierTable C !! Str = Some p →
             Str ≠ EmptyString ∧ deref (Allocator C) p = Some (KeyDataObj Str);
  wf_TupleTypes : table_ok (Allocator C) (TupleTypes C) key_Tuple;
  wf_MetaTypeTypes : table_ok (Allocator C) (MetaTypeTypes C) key_MetaType;
  wf_ModuleTypes : table_ok (Allocator C) (ModuleTypes C) key_Module;
  wf_FunctionTypes : table_ok (Allocator C) (FunctionTypes C) key_Function;
  wf_ArrayTypes : table_ok (Allocator C) (ArrayTypes C) key_Array;
  wf_ArraySliceTypes : table_ok (Allocator C) (ArraySliceTypes C) key_ArraySlice;
  wf_IntegerTypes : table_ok (Allocator C) (IntegerTypes C) key_Integer;
  wf_ParenTypes : table_ok (Allocator C) (ParenTypes C) key_Paren;
  wf_LValueTypes : table_ok (Allocator C) (LValueTypes C) key_LValue;
  wf_SubstitutedTypes : table_ok (Allocator C) (SubstitutedTypes C) key_Substituted;
  wf_OneOfTypes : table_ok (Allocator C) (OneOfTypes C) key_OneOf;
  wf_StructTypes : table_ok (Allocator C) (StructTypes C) key_Struct;
  wf_ClassTypes : table_ok (Allocator C) (ClassTypes C) key_Class;
  wf_ProtocolCompositionTypes :
    table_ok (Allocator C) (ProtocolCompositionTypes C) key_ProtocolComposition;
  wf_UnboundGenericTypes :
    table_ok (Allocator C) (UnboundGenericTypes C) key_UnboundGeneric;
  wf_BoundGenericTypes : table_ok (Allocator C) (BoundGenericTypes C) key_BoundGeneric
}.

(** [C'] is a later state of [C]: the arena has only grown at its end and
    no table has lost or changed an entry. *)
Record extends (C C' : Implementation) : Prop := mk_extends {
  ext_Allocator : Allocator C `prefix_of` Allocator C';
  ext_IdentifierTable : IdentifierTable C ⊆ IdentifierTable C';
  ext_TupleTypes : TupleTypes C ⊆ TupleTypes C';
  ext_MetaTypeTypes : MetaTypeTypes C ⊆ MetaTypeTypes C';
  ext_ModuleTypes : ModuleTypes C ⊆ ModuleTypes C';
  ext_FunctionTypes : FunctionTypes C ⊆ FunctionTypes C';
  ext_ArrayTypes : ArrayTypes C ⊆ ArrayTypes C';
  ext_ArraySliceTypes : ArraySliceTypes C ⊆ ArraySliceTypes C';
  ext_IntegerTypes : IntegerTypes C ⊆ IntegerTypes C';
  ext_ParenTypes : ParenTypes C ⊆ ParenTypes C';
  ext_LValueTypes : LValueTypes C ⊆ LValueTypes C';
  ext_SubstitutedTypes : SubstitutedTypes C ⊆ SubstitutedTypes C';
  ext_OneOfTypes : OneOfTypes C ⊆ OneOfTypes C';
  ext_StructTypes : StructTypes C ⊆ StructTypes C';
  ext_ClassTypes : ClassTypes C ⊆ ClassTypes C';
  ext_ProtocolCompositionTypes : ProtocolCompositionTypes C ⊆ ProtocolCompositionTypes C';
  ext_UnboundGenericTypes : UnboundGenericTypes C ⊆ UnboundGenericTypes C';
  ext_BoundGenericTypes : BoundGenericTypes C ⊆ BoundGenericTypes C';
  ext_BoundGenericSubstitutions :
    BoundGenericSubstitutions C ⊆ BoundGenericSubstitutions C'
}.

(** ** Auxiliary definitions *)

(** The words one element adds to a tuple profile. *)
Definition elt_words (Elt : TupleTypeElt) : list nat :=
  [Ty Elt; Name Elt; Init Elt; VarargBaseTy Elt].

(** A computation that, when it returns, has not touched
    [BoundGenericSubstitutions]. *)
Definition keeps_store {X} (m : M X) : Prop :=
  ∀ C a C', m C = Ok a C' → BoundGenericSubstitutions C' = BoundGenericSubstitutions C.

(** ** What a factory call does to the state *)

(** The table assignment a factory makes once it has built the node [p]
    for a request: the node is recorded under the arguments of the request,
    in the table of the factory.  A tuple with a default-valued element
    and a polymorphic function type are recorded nowhere. *)
Definition record_entry (r : Request) (p : Ptr) (C : Implementation) : Implementation :=
  match r with
  | GetInteger BitWidth => set_IntegerTypes <[BitWidth := p]> C
  | GetParen underlying => set_ParenTypes <[underlying := p]> C
  | GetTuple Fields =>
      match Fields with
      | [Elt] =>
          if negb (isVararg Elt) && negb (hasName Elt)
          then set_ParenTypes <[Ty Elt := p]> C
          else if existsb hasInit Fields then C
          else set_TupleTypes <[TupleType_Profile [] Fields := p]> C
      | _ =>
          if existsb hasInit Fields then C
          else set_TupleTypes <[TupleType_Profile [] Fields := p]> C
      end
  | GetUnboundGeneric TheDecl Parent =>
      set_UnboundGenericTypes <[UnboundGenericType_Profile [] TheDecl Parent := p]> C
  | GetBoundGeneric TheDecl Parent GenericArgs =>
      set_BoundGenericTypes
        <[BoundGenericType_Profile [] TheDecl Parent GenericArgs := p]> C
  | GetOneOf D Parent => set_OneOfTypes <[OneOfType_Profile [] D Parent := p]> C
  | GetStruct D Parent => set_StructTypes <[StructType_Profile [] D Parent := p]> C
  | GetClass D Parent => set_ClassTypes <[ClassType_Profile [] D Parent := p]> C
  | BuildProtocolComposition Protocols =>
      set_ProtocolCompositionTypes
        <[ProtocolCompositionType_Profile [] Protocols := p]> C
  | GetMetaType T => set_MetaTypeTypes <[T := p]> C
  | GetModule Mod => set_ModuleTypes <[Mod := p]> C
  | GetFunction Input Result isAutoClosure =>
      set_FunctionTypes <[(Input, (Result, char_of_bool isAutoClosure)) := p]> C
  | GetArray BaseType Size => set_ArrayTypes <[(BaseType, Size) := p]> C
  | GetArraySlice base => set_ArraySliceTypes <[base := p]> C
  | GetLValue objectTy quals => set_LValueTypes <[(objectTy, quals) := p]> C
  | GetSubstituted Original Replacement =>
      set_SubstitutedTypes <[(Original, Replacement) := p]> C
  | GetPolymorphicFunction _ _ _ => C
  end.

(** The kind tags a factory gives to the nodes it builds. *)
Definition req_kinds (r : Request) : list TypeKind :=
  match r with
  | GetInteger _ => [BuiltinInteger]
  | GetParen _ => [Paren]
  | GetTuple Fields => if isParenthesized Fields then [Paren] else [Tuple]
  | GetUnboundGeneric _ _ => [UnboundGeneric]
  | GetBoundGeneric _ _ _ => [BoundGenericClass; BoundGenericStruct; BoundGenericOneOf]
  | GetOneOf _ _ => [OneOf]
  | GetStruct _ _ => [Struct]
  | GetClass _ _ => [Class]
  | BuildProtocolComposition _ => [ProtocolComposition]
  | GetMetaType _ => [MetaType]
  | GetModule _ => [Module]
  | GetFunction _ _ _ => [Function]
  | GetArray _ _ => [Array]
  | GetArraySlice _ => [ArraySlice]
  | GetLValue _ _ => [LValue]
  | GetSubstituted _ _ => [Substituted]
  | GetPolymorphicFunction _ _ _ => [PolymorphicFunction]
  end.

(** The child at [p] is an unresolved node.  A null child is not. *)
Definition unresolved (A : list Object) (p : Ptr) : bool :=
  match derefType A p with
  | Some T => Unresolved T
  | None => false
  end.

(** The children from which a constructor of this file computes the
    unresolved flag. *)
Definition unresolvedChildren (D : Payload) : option (list Ptr) :=
  match D with
  | PBoundGeneric _ Parent GenericArgs => Some (Parent :: GenericArgs)
  | PMetaType T => Some [T]
  | PFunction In Out _ | PPolymorphicFunction In Out _ => Some [In; Out]
  | PArray B _ => Some [B]
  | _ => None
  end.

(** The subtype that [BoundGenericType::get] builds for a declaration. *)
Definition boundGenericKind (DK : DeclKind) : option TypeKind :=
  match DK with
  | DK_Class => Some BoundGenericClass
  | DK_Struct => Some BoundGenericStruct
  | DK_OneOf => Some BoundGenericOneOf
  | _ => None
  end.

(** What the constructors of this file fix besides the canonical bit and
    the has-type-variable flag: the unresolved flag is the disjunction
    over [unresolvedChildren], and a bound generic node has the subtype of
    its declaration. *)
Record node_built (A : list Object) (T : TypeBase) : Prop := mk_node_built {
  built_unresolved : ∀ ps, unresolvedChildren (Data T) = Some ps →
                     Unresolved T = existsb (unresolved A) ps;
  built_kind : ∀ D P Args, Data T = PBoundGeneric D P Args →
               ∃ DK, derefDecl A D = Some DK ∧ boundGenericKind DK = Some (Kind T)
}.

(** The second invariant: the entries of the four tables whose
    constructors are in this file satisfy [node_built]. *)
Definition table_built {K} `{Countable K} (A : list Object) (Tb : gmap K nat) : Prop :=
  ∀ k p, Tb !! k = Some p → ∃ T, derefType A p = Some T ∧ node_built A T.

Record built (C : Implementation) : Prop := mk_built {
  built_MetaTypeTypes : table_built (Allocator C) (MetaTypeTypes C);
  built_FunctionTypes : table_built (Allocator C) (FunctionTypes C);
  built_ArrayTypes : table_built (Allocator C) (ArrayTypes C);
  built_BoundGenericTypes : table_built (Allocator C) (BoundGenericTypes C)
}.

(** Two requests read the same slot: in every state they find the same
    entry. *)
Definition same_slot (r r' : Request) : Prop :=
  ∀ C, table_entry C r' = table_entry C r.

(** A call has found the node recorded for its request and left the state
    as it was, or it has placed one new node at the end of the arena and
    recorded it. *)
Definition found_or_built (r : Request) (C : Implementation) (p : Ptr)
    (C' : Implementation) : Prop :=
  (C' = C ∧ table_entry C r = Some p) ∨
  (∃ T, C' = record_entry r p (set_Allocator (λ A, A ++ [TypeObj T]) C) ∧
        p = S (length (Allocator C)) ∧
        Data T = req_data r ∧ Kind T ∈ req_kinds r ∧
        node_built (Allocator C) T ∧
        (excepted r = false → table_entry C r = None)).

(** The assertions [m] can trip all carry a message in [P]. *)
Definition asserts_in {X} (P : string → Prop) (m : M X) : Prop :=
  ∀ C msg, m C = AssertFailed msg → P msg.

(** The singleton types of a context with their kinds and fields, in
    the order of the member initialisers. *)
Definition singletons (S : ASTContext) : list (Ptr * TypeKind * Payload) :=
  [ (TheErrorType S, Error, PNone);
    (TheEmptyTupleType S, Tuple, PTuple []);
    (TheObjectPointerType S, BuiltinObjectPointer, PNone);
    (TheObjCPointerType S, BuiltinObjCPointer, PNone);
    (TheRawPointerType S, BuiltinRawPointer, PNone);
    (TheUnstructuredUnresolvedType S, UnstructuredUnresolved, PNone);
    (TheIEEE32Type S, BuiltinFloat, PFloat IEEE32);
    (TheIEEE64Type S, BuiltinFloat, PFloat IEEE64);
    (TheIEEE16Type S, BuiltinFloat, PFloat IEEE16);
    (TheIEEE80Type S, BuiltinFloat, PFloat IEEE80);
    (TheIEEE128Type S, BuiltinFloat, PFloat IEEE128);
    (ThePPC128Type S, BuiltinFloat, PFloat PPC128) ].

(** One operation on a context: a type factory called with pointers
    into the arena, [getIdentifier], [setSubstitutions], or the placement
    of any object by [new (C)]. *)
Inductive step (header : list Object → TypeKind → Payload → HeaderBits)
    (C C' : Implementation) : Prop :=
  | step_exec r p :
      Forall (allocated (Allocator C)) (req_ptrs r) →
      exec header r C = Ok p C' → step header C C'
  | step_getIdentifier Str p :
      getIdentifier Str C = Ok p C' → step header C C'
  | step_setSubstitutions Bound Subs :
      setSubstitutions Bound Subs C = Ok tt C' → step header C C'
  | step_Allocate o p :
      Allocate o C = Ok p C' → step header C C'.

(** The states a context goes through after its constructor. *)
Inductive reachable (header : list Object → TypeKind → Payload → HeaderBits)
    (S : ASTContext) : Implementation → Prop :=
  | reachable_new C : ASTContext_new header = Ok S C → reachable header S C
  | reachable_step C C' :
      reachable header S C → step header C C' → reachable header S C'.

(** The kind of the nominal type of a declaration. *)
Definition nominalKind (DK : DeclKind) : option TypeKind :=
  match DK with
  | DK_OneOf => Some OneOf
  | DK_Struct => Some Struct
  | DK_Class => Some Class
  | DK_Protocol => Some Protocol
  | DK_Other => None
  end.

(** *** The dispatcher on nominal declarations *)

Section Dispatch.

Variable header : list Object → TypeKind → Payload → HeaderBits.

(** [D->getDeclaredType()->castTo<ProtocolType>()]: the declared type of
    a protocol declaration is kept with the declaration, outside this
    file.  The branch is left open. *)
Variable declaredProtocolType : Ptr → M Ptr.

(** [NominalType::get].  The [cast]s of the first three branches test
    the kind the [switch] has just matched; the fall-through is
    [llvm_unreachable]. *)
Definition NominalType_get (D Parent : Ptr) : M Ptr :=
  do K <- declKind D;
  match K with
  | DK_OneOf => OneOfType_get header D Parent
  | DK_Struct => StructType_get header D Parent
  | DK_Class => ClassType_get header D Parent
  | DK_Protocol => declaredProtocolType D
  | DK_Other => λ _, AssertFailed "Not a nominal declaration!"
  end.

End Dispatch.

(** ** A sample context *)

(** A sample of what the types header may choose: the sugar kinds are
    never canonical, every other kind it decides is, and it sets no
    flag. *)
Definition header0 (A : list Object) (K : TypeKind) (D : Payload) : HeaderBits :=
  mkBits (match K with Paren | ArraySlice | Substituted => false | _ => true end)
         false false.

Definition state_of {A} (o : Outcome A) : Implementation :=
  match o with
  | Ok _ C => C
  | _ => Implementation_new
  end.

(** A type variable, as the type checker places one in the arena. *)
Definition aTypeVariable : TypeBase := mkType TypeVariable true false true PNone.

(** A type variable at address 1, the 32-bit integer type at 2, an
    expression handle at 3 and a struct declaration at 4. *)
Definition sample0 : Implementation :=
  state_of
    ((run Allocate (TypeObj aTypeVariable);
      run BuiltinIntegerType_get header0 32;
      run ExprHandle_get 7;
      Allocate (DeclObj DK_Struct)) Implementation_new).

(** The same with the parenthesised integer type at 5. *)
Definition sample : Implementation :=
  state_of (ParenType_get header0 2 sample0).

(** The state that a request leaves behind in the sample. *)
Definition after (r : Request) : Implementation := state_of (exec header0 r sample).

(** The bound generic struct over the integer type, at 6 in the sample. *)
Definition aBoundGeneric : TypeBase :=
  mkType BoundGenericStruct true false false (PBoundGeneric 4 0 [2]).

(** An unresolved type, as the type checker places one. *)
Definition anUnresolved : TypeBase :=
  mkType UnstructuredUnresolved true true false PNone.

(** The sample with the unresolved type at 6 and a protocol declaration
    at 7. *)
Definition sampleU : Implementation :=
  set_Allocator (λ A, A ++ [DeclObj DK_Protocol])
    (set_Allocator (λ A, A ++ [TypeObj anUnresolved]) sample).

(** The members of a context after its constructor, and its state when
    the types header chooses as [header0]. *)
Definition members0 : ASTContext := mkASTContext 2 3 4 5 6 7 8 9 10 11 12 13 14.
Definition fresh0 : Implementation := state_of (ASTContext_new header0).

(** ** The arena only grows *)

Lemma deref_allocated A p o : deref A p = Some o → allocated A p ∧ p ≠ 0.
Proof.
  destruct p as [|i]; [done|]. simpl. intros H%lookup_lt_Some.
  unfold allocated. lia.
Qed.

Lemma deref_app A B p o : deref A p = Some o → deref (A ++ B) p = Some o.
Proof.
  destruct p as [|i]; [done|]. simpl. intros H.
  rewrite lookup_app_l; [done|]. by eapply lookup_lt_Some.
Qed.

Lemma deref_app_allocated A B p : allocated A p → deref (A ++ B) p = deref A p.
Proof.
  unfold allocated. destruct p as [|i]; [done|]. simpl. intros H.
  by rewrite lookup_app_l by lia.
Qed.

Lemma deref_new A o : deref (A ++ [o]) (S (length A)) = Some o.
Proof. simpl. by rewrite list_lookup_middle. Qed.

Lemma deref_fresh A : deref A (S (length A)) = None.
Proof. simpl. apply lookup_ge_None. lia. Qed.

Lemma derefType_Some A p T : derefType A p = Some T ↔ deref A p = Some (TypeObj T).
Proof.
  unfold derefType. destruct (deref A p) as [[]|]; naive_solver.
Qed.

Lemma derefType_allocated A p T : derefType A p = Some T → allocated A p ∧ p ≠ 0.
Proof. rewrite derefType_Some. apply deref_allocated. Qed.

Lemma derefType_app A B p T : derefType A p = Some T → derefType (A ++ B) p = Some T.
Proof. rewrite !derefType_Some. apply deref_app. Qed.

Lemma derefType_app_allocated A B p :
  allocated A p → derefType (A ++ B) p = derefType A p.
Proof. intros H. unfold derefType. by rewrite deref_app_allocated. Qed.

Lemma derefType_new A T : derefType (A ++ [TypeObj T]) (S (length A)) = Some T.
Proof. unfold derefType. by rewrite deref_new. Qed.

Lemma derefType_fresh A : derefType A (S (length A)) = None.
Proof. unfold derefType. by rewrite deref_fresh. Qed.

Lemma derefType_prefix A A' p T :
  A `prefix_of` A' → derefType A p = Some T → derefType A' p = Some T.
Proof. intros [B ->]. apply derefType_app. Qed.

Lemma deref_prefix A A' p o :
  A `prefix_of` A' → deref A p = Some o → deref A' p = Some o.
Proof. intros [B ->]. apply deref_app. Qed.

Lemma allocated_app A B p : allocated A p → allocated (A ++ B) p.
Proof. unfold allocated. rewrite length_app. lia. Qed.

Lemma allocated_null A : allocated A 0.
Proof. unfold allocated. lia. Qed.

Lemma canonical_app A B p : allocated A p → canonical (A ++ B) p = canonical A p.
Proof. intros H. unfold canonical. by rewrite derefType_app_allocated. Qed.

Lemma typeVariable_app A B p :
  allocated A p → typeVariable (A ++ B) p = typeVariable A p.
Proof. intros H. unfold typeVariable. by rewrite derefType_app_allocated. Qed.

Lemma forallb_canonical_app A B ps :
  Forall (allocated A) ps → forallb (canonical (A ++ B)) ps = forallb (canonical A) ps.
Proof.
  induction 1 as [|p ps Hp _ IH]; [done|]. simpl.
  by rewrite canonical_app, IH.
Qed.

Lemma existsb_typeVariable_app A B ps :
  Forall (allocated A) ps →
  existsb (typeVariable (A ++ B)) ps = existsb (typeVariable A) ps.
Proof.
  induction 1 as [|p ps Hp _ IH]; [done|]. simpl.
  by rewrite typeVariable_app, IH.
Qed.

Lemma canonicalChildren_typePtrs D ps :
  canonicalChildren D = Some ps → ps ⊆ typePtrs D.
Proof.
  destruct D; simpl; intros [= <-]; try done.
  intros q [Hq|Hq]%elem_of_app; [|by right].
  destruct (Parent =? 0); [by apply elem_of_nil in Hq|].
  apply list_elem_of_singleton in Hq as ->. by left.
Qed.

Lemma typeVariableChildren_typePtrs D ps :
  typeVariableChildren D = Some ps → ps ⊆ typePtrs D.
Proof.
  destruct D; simpl; intros [= <-]; try done.
  intros q Hq. by right.
Qed.

Lemma Forall_subseteq {X} (P : X → Prop) (l k : list X) :
  l ⊆ k → Forall P k → Forall P l.
Proof. rewrite !Forall_forall. intros Hs Hk x Hx. apply Hk, Hs, Hx. Qed.

Lemma node_ok_app A B T : node_ok A T → node_ok (A ++ B) T.
Proof.
  intros [Ha Hc Ht]. split.
  - eapply Forall_impl; [exact Ha|]. intros p. apply allocated_app.
  - intros ps Hps. rewrite forallb_canonical_app; [by apply Hc|].
    eapply Forall_subseteq; [|exact Ha]. by apply canonicalChildren_typePtrs.
  - intros ps Hps. rewrite existsb_typeVariable_app; [by apply Ht|].
    eapply Forall_subseteq; [|exact Ha]. by apply typeVariableChildren_typePtrs.
Qed.

Lemma table_ok_app {K} `{Countable K} A B (Tb : gmap K nat) key_of :
  table_ok A Tb key_of → table_ok (A ++ B) Tb key_of.
Proof.
  intros Hok k p Hk. destruct (Hok k p Hk) as (T & HT & Hkey & Hn).
  exists T. split_and!; [by apply derefType_app|done|by apply node_ok_app].
Qed.

Lemma table_ok_insert {K} `{Countable K} A (Tb : gmap K nat) key_of k T :
  table_ok A Tb key_of → key_of T = Some k → node_ok (A ++ [TypeObj T]) T →
  table_ok (A ++ [TypeObj T]) (<[k := S (length A)]> Tb) key_of.
Proof.
  intros Hok Hkey Hn k' p'. rewrite lookup_insert. case_decide as Hd.
  - intros [= <-]. subst k'. exists T. by rewrite derefType_new.
  - intros Hk'. by apply (table_ok_app A [TypeObj T] Tb key_of Hok).
Qed.

Lemma table_ok_empty {K} `{Countable K} A key_of : table_ok A (∅ : gmap K nat) key_of.
Proof. intros k p. by rewrite lookup_empty. Qed.

(** A table is injective: a node sits under one key. *)
Lemma table_ok_inj {K} `{Countable K} A (Tb : gmap K nat) key_of k1 k2 p :
  table_ok A Tb key_of → Tb !! k1 = Some p → Tb !! k2 = Some p → k1 = k2.
Proof.
  intros Hok H1 H2.
  destruct (Hok _ _ H1) as (T1 & HT1 & Hk1 & _).
  destruct (Hok _ _ H2) as (T2 & HT2 & Hk2 & _). congruence.
Qed.

(** ** [extends] is a preorder *)

Lemma extends_refl C : extends C C.
Proof. by split. Qed.

Lemma extends_trans C1 C2 C3 : extends C1 C2 → extends C2 C3 → extends C1 C3.
Proof. intros [] []. split; by etrans. Qed.

#[global] Instance extends_preorder : PreOrder extends.
Proof. split; [exact extends_refl|exact extends_trans]. Qed.

(** ** The profiles are injective *)

Lemma foldl_AddPointer ID ps : foldl AddPointer ID ps = ID ++ ps.
Proof.
  revert ID. induction ps as [|q ps IH]; intros ID; simpl.
  - by rewrite app_nil_r.
  - rewrite IH. unfold AddPointer. by rewrite <- app_assoc.
Qed.

Lemma foldl_elt_words ID Fields :
  foldl (λ ID Elt,
           AddPointer (AddPointer (AddPointer (AddPointer ID (Ty Elt)) (Name Elt))
                                  (Init Elt)) (VarargBaseTy Elt)) ID Fields
  = ID ++ concat (map elt_words Fields).
Proof.
  revert ID. induction Fields as [|Elt Fields IH]; intros ID; simpl.
  - by rewrite app_nil_r.
  - rewrite IH. unfold AddPointer, elt_words. by rewrite <- !app_assoc.
Qed.

Lemma TupleType_Profile_words ID Fields :
  TupleType_Profile ID Fields = ID ++ length Fields :: concat (map elt_words Fields).
Proof.
  unfold TupleType_Profile, AddInteger. rewrite foldl_elt_words.
  by rewrite <- app_assoc.
Qed.

Lemma elt_words_inj Fields1 Fields2 :
  concat (map elt_words Fields1) = concat (map elt_words Fields2) →
  length Fields1 = length Fields2 → Fields1 = Fields2.
Proof.
  revert Fields2. induction Fields1 as [|[a b c d] F1 IH]; intros [|[a' b' c' d'] F2];
    simpl; try done.
  intros [= -> -> -> -> Hrest] [= Hlen]. f_equal. by apply IH.
Qed.

Lemma TupleType_Profile_inj Fields1 Fields2 :
  TupleType_Profile [] Fields1 = TupleType_Profile [] Fields2 → Fields1 = Fields2.
Proof.
  rewrite !TupleType_Profile_words. simpl. intros [= Hlen Hw].
  by apply elt_words_inj.
Qed.

Lemma BoundGenericType_Profile_inj D1 P1 Args1 D2 P2 Args2 :
  BoundGenericType_Profile [] D1 P1 Args1 = BoundGenericType_Profile [] D2 P2 Args2 →
  D1 = D2 ∧ P1 = P2 ∧ Args1 = Args2.
Proof.
  unfold BoundGenericType_Profile. rewrite !foldl_AddPointer.
  unfold AddInteger, AddPointer. simpl. by intros [= -> -> _ ->].
Qed.

Lemma ProtocolCompositionType_Profile_inj Ps1 Ps2 :
  ProtocolCompositionType_Profile [] Ps1 = ProtocolCompositionType_Profile [] Ps2 →
  Ps1 = Ps2.
Proof. unfold ProtocolCompositionType_Profile. by rewrite !foldl_AddPointer. Qed.

Lemma char_of_bool_inj a b : char_of_bool a = char_of_bool b → a = b.
Proof. by destruct a, b. Qed.

Lemma paren_elt_inj Elt1 Elt2 :
  negb (isVararg Elt1) && negb (hasName Elt1) = true →
  negb (isVararg Elt2) && negb (hasName Elt2) = true →
  hasInit Elt1 = false → hasInit Elt2 = false →
  Ty Elt1 = Ty Elt2 → Elt1 = Elt2.
Proof.
  destruct Elt1 as [t1 n1 i1 v1], Elt2 as [t2 n2 i2 v2].
  unfold isVararg, hasName, hasInit. simpl.
  rewrite !andb_true_iff, !negb_true_iff, !negb_false_iff, !Nat.eqb_eq.
  intros [-> ->] [-> ->] -> -> ->. done.
Qed.

(** ** Table lookups through [operator[]] *)

Lemma table_ok_nonnull {K} `{Countable K} A (Tb : gmap K nat) key_of k p :
  table_ok A Tb key_of → Tb !! k = Some p → p ≠ 0.
Proof.
  intros Hok Hk. destruct (Hok _ _ Hk) as (T & HT & _).
  by apply derefType_allocated in HT as [_ ?].
Qed.

Lemma slot_null {K} `{Countable K} A (Tb : gmap K nat) key_of k :
  table_ok A Tb key_of → slot Tb k = 0 → Tb !! k = None.
Proof.
  unfold slot. intros Hok. destruct (Tb !! k) as [p|] eqn:Hk; [|done].
  simpl. intros ->. by apply (table_ok_nonnull _ _ _ _ _ Hok) in Hk.
Qed.

Lemma slot_nonnull {K} `{Countable K} (Tb : gmap K nat) k :
  slot Tb k ≠ 0 → Tb !! k = Some (slot Tb k).
Proof. unfold slot. by destruct (Tb !! k). Qed.

Lemma slot_Some {K} `{Countable K} (Tb : gmap K nat) k p :
  Tb !! k = Some p → slot Tb k = p.
Proof. unfold slot. by intros ->. Qed.

Lemma canonical_deref A B p T :
  derefType A p = Some T → canonical (A ++ B) p = Context T.
Proof.
  intros HT. rewrite canonical_app by (by eapply derefType_allocated).
  unfold canonical. by rewrite HT.
Qed.

Lemma typeVariable_deref A B p T :
  derefType A p = Some T → typeVariable (A ++ B) p = HasTypeVariable T.
Proof.
  intros HT. rewrite typeVariable_app by (by eapply derefType_allocated).
  unfold typeVariable. by rewrite HT.
Qed.

Lemma canonical_null A : canonical A 0 = false.
Proof. done. Qed.

Lemma typeVariable_null A : typeVariable A 0 = false.
Proof. done. Qed.

Lemma allocated_deref A B p T : derefType A p = Some T → allocated (A ++ B) p.
Proof. intros HT. apply allocated_app. by eapply derefType_allocated. Qed.

(** ** Tactics for the state after a factory has run *)

Ltac solve_wf :=
  match goal with
  | Hwf : wf _ |- wf _ =>
      first
        [ exact Hwf
        | let Hid := fresh "Hid" in
          destruct Hwf as [Hid ? ? ? ? ? ? ? ? ? ? ? ? ? ? ? ?]; split; simpl;
          try (by apply table_ok_app);
          try (by (let Str := fresh in let q := fresh in let Hq := fresh in
                   intros Str q Hq; destruct (Hid _ _ Hq); split;
                   [done | by apply deref_app]));
          try (apply table_ok_insert; [assumption|reflexivity|]) ]
  end.

Ltac solve_extends :=
  first
    [ apply extends_refl
    | split; simpl;
      first [ done | by apply prefix_app_r | by apply insert_subseteq | idtac ] ].

Ltac mstep :=
  repeat (unfold bind, gets, ret, modify, new, Allocate, typeBase, declKind,
            assert, undefined; simpl).

Ltac solve_node_ok :=
  split; simpl; unfold isCanonical, hasTypeVariable;
  [ repeat apply Forall_cons_2; try apply Forall_nil_2;
    try (by eapply allocated_deref); try (by apply allocated_app);
    try apply allocated_null
  | intros ? [= <-]; simpl;
    repeat (erewrite canonical_deref by eassumption);
    rewrite ?canonical_null, ?andb_true_r;
    repeat match goal with |- context [Context ?T] => destruct (Context T) end
  | intros ? [= <-]; simpl;
    repeat (erewrite typeVariable_deref by eassumption);
    rewrite ?typeVariable_null, ?orb_false_r ]; try done.

Section Properties.

Variable header : list Object → TypeKind → Payload → HeaderBits.

Lemma wf_Allocate C o : wf C → wf (set_Allocator (λ A, A ++ [o]) C).
Proof. intros Hwf. solve_wf. Qed.

Lemma extends_Allocate C o : extends C (set_Allocator (λ A, A ++ [o]) C).
Proof. solve_extends. Qed.

(** *** The loops *)

Lemma typeBase_Ok p C T C' :
  typeBase p C = Ok T C' ↔ derefType (Allocator C) p = Some T ∧ C' = C.
Proof.
  unfold typeBase. destruct (derefType (Allocator C) p) as [T'|].
  - split; [by intros [= <- <-]|by intros [[= <-] ->]].
  - split; [done|by intros [? _]].
Qed.

Lemma TupleType_get_flags_spec Fields d t C r C' :
  TupleType_get_flags Fields d t C = Ok r C' →
  C' = C ∧
  r = (d || existsb hasInit Fields,
       t || existsb (typeVariable (Allocator C)) (map Ty Fields)).
Proof.
  revert d t. induction Fields as [|Elt Fields IH]; intros d t; simpl.
  - unfold ret. intros [= <- <-]. by rewrite !orb_false_r.
  - unfold bind, ret, typeBase, typeVariable, hasTypeVariable.
    destruct (hasInit Elt) eqn:Hi, t eqn:Ht, d eqn:Hd; simpl;
      try (intros [= <- <-]; by rewrite ?orb_true_r);
      destruct (Nat.eqb_spec (Ty Elt) 0) as [Hz|Hz];
      rewrite ?Hz; simpl;
      try (destruct (derefType (Allocator C) (Ty Elt)) as [T|] eqn:HT; [|done];
           destruct (HasTypeVariable T) eqn:HTv; simpl);
      try (intros [= <- <-]; by rewrite ?orb_true_r);
      intros [-> ->]%IH; by rewrite ?orb_true_r, ?orb_false_r.
Qed.

Lemma TupleType_get_canonical_spec Fields C r C' :
  TupleType_get_canonical Fields C = Ok r C' →
  C' = C ∧ r = forallb (canonical (Allocator C)) (map Ty Fields).
Proof.
  induction Fields as [|Elt Fields IH]; simpl.
  - unfold ret. by intros [= <- <-].
  - unfold bind, ret, typeBase, canonical, isCanonical.
    destruct (Nat.eqb_spec (Ty Elt) 0) as [Hz|Hz].
    { rewrite Hz. by intros [= <- <-]. }
    destruct (derefType (Allocator C) (Ty Elt)) as [T|] eqn:HT; [|done].
    destruct (Context T); simpl; [apply IH|by intros [= <- <-]].
Qed.

Lemma BoundGenericType_get_flags_spec Args c t C r C' :
  BoundGenericType_get_flags Args c t C = Ok r C' →
  C' = C ∧
  r = (c && forallb (canonical (Allocator C)) Args,
       t || existsb (typeVariable (Allocator C)) Args).
Proof.
  revert c t. induction Args as [|Arg Args IH]; intros c t; simpl.
  - unfold ret. intros [= <- <-]. by rewrite andb_true_r, orb_false_r.
  - unfold bind, ret, typeBase, canonical, typeVariable, isCanonical, hasTypeVariable.
    destruct (derefType (Allocator C) Arg) as [T|] eqn:HT; [|done].
    destruct (Context T), (HasTypeVariable T), c, t; simpl;
      try (intros [= <- <-]; by rewrite ?andb_false_r, ?orb_true_r);
      intros [-> ->]%IH; by rewrite ?andb_false_r, ?orb_true_r.
Qed.

Lemma ProtocolCompositionType_build_canonical_spec Ps c C r C' :
  ProtocolCompositionType_build_canonical Ps c C = Ok r C' →
  C' = C ∧ r = c && forallb (canonical (Allocator C)) Ps ∧
  Forall (allocated (Allocator C)) Ps.
Proof.
  revert c. induction Ps as [|t Ps IH]; intros c; simpl.
  - unfold ret. intros [= <- <-]. by rewrite andb_true_r.
  - unfold bind, typeBase, canonical.
    destruct (derefType (Allocator C) t) as [T|] eqn:HT; [|done].
    intros (-> & -> & Hall)%IH. split_and!; [done| |].
    + by destruct (Context T), c.
    + constructor; [|done]. by eapply derefType_allocated.
Qed.

Lemma anyUnresolved_Ok Args C r C' : anyUnresolved Args C = Ok r C' → C' = C.
Proof.
  induction Args as [|a Args IH]; simpl.
  - unfold ret. by intros [= _ <-].
  - unfold bind, typeBase, ret.
    destruct (derefType (Allocator C) a) as [T|]; [|done].
    destruct (isUnresolvedType T); [by intros [= _ <-]|apply IH].
Qed.

Lemma parentHasTypeVariable_Ok Parent C r C' :
  parentHasTypeVariable Parent C = Ok r C' →
  C' = C ∧ r = typeVariable (Allocator C) Parent ∧
  (Parent = 0 ∨ ∃ P, derefType (Allocator C) Parent = Some P).
Proof.
  unfold parentHasTypeVariable, bind, ret, typeBase, typeVariable, hasTypeVariable.
  destruct (Nat.eqb_spec Parent 0) as [->|Hz].
  - intros [= <- <-]. auto.
  - destruct (derefType (Allocator C) Parent) as [P|]; [|done].
    intros [= <- <-]. eauto.
Qed.

Lemma BoundGenericType_ctor_Ok K D P Args ctx tv C T C' :
  BoundGenericType_ctor K D P Args ctx tv C = Ok T C' →
  C' = C ∧ ∃ u, T = mkType K ctx u tv (PBoundGeneric D P Args).
Proof.
  unfold BoundGenericType_ctor, bind, ret, typeBase.
  destruct (P =? 0).
  - destruct (anyUnresolved Args C) as [u C1| |] eqn:Hu; [|done..].
    apply anyUnresolved_Ok in Hu as ->. intros [= <- <-]. eauto.
  - destruct (derefType (Allocator C) P) as [PT|]; [|done].
    destruct (isUnresolvedType PT).
    + intros [= <- <-]. eauto.
    + destruct (anyUnresolved Args C) as [u C1| |] eqn:Hu; [|done..].
      apply anyUnresolved_Ok in Hu as ->. intros [= <- <-]. eauto.
Qed.

(** *** The factories, one by one *)

Lemma ParenType_get_spec underlying C p C' :
  wf C → ParenType_get header underlying C = Ok p C' →
  wf C' ∧ extends C C' ∧ ParenTypes C' !! underlying = Some p.
Proof.
  intros Hwf. unfold ParenType_get, bind, gets, typeBase, new, ParenType_ctor,
    Allocate, modify, ret. simpl.
  destruct (derefType (Allocator C) underlying) as [U|] eqn:HU; [|done].
  destruct (Nat.eqb_spec (slot (ParenTypes C) underlying) 0) as [Hs|Hs].
  - intros [= <- <-]. simpl. split_and!.
    + solve_wf. solve_node_ok.
    + apply (slot_null _ _ _ _ (wf_ParenTypes _ Hwf)) in Hs. solve_extends.
    + apply lookup_insert_eq.
  - intros [= <- <-]. split_and!; [done|solve_extends|by apply slot_nonnull].
Qed.

Lemma BuiltinIntegerType_get_spec BitWidth C p C' :
  wf C → BuiltinIntegerType_get header BitWidth C = Ok p C' →
  wf C' ∧ extends C C' ∧ IntegerTypes C' !! BitWidth = Some p.
Proof.
  intros Hwf. unfold BuiltinIntegerType_get, bind, gets, new, headerNode,
    Allocate, modify, ret. simpl.
  destruct (Nat.eqb_spec (slot (IntegerTypes C) BitWidth) 0) as [Hs|Hs].
  - intros [= <- <-]. simpl. split_and!.
    + solve_wf. solve_node_ok.
    + apply (slot_null _ _ _ _ (wf_IntegerTypes _ Hwf)) in Hs. solve_extends.
    + apply lookup_insert_eq.
  - intros [= <- <-]. split_and!; [done|solve_extends|by apply slot_nonnull].
Qed.

Lemma TupleType_get_tuple_spec Fields C p C' :
  wf C → Forall (allocated (Allocator C)) (map Ty Fields) →
  existsb hasInit Fields = false →
  TupleType_get_tuple header Fields C = Ok p C' →
  wf C' ∧ extends C C' ∧ TupleTypes C' !! TupleType_Profile [] Fields = Some p.
Proof.
  intros Hwf Hall Hdef. unfold TupleType_get_tuple, bind.
  destruct (TupleType_get_flags Fields false false C) as [[d t] C1| |] eqn:Hfl; [|done..].
  apply TupleType_get_flags_spec in Hfl as [-> [= -> ->]]. rewrite Hdef. simpl.
  unfold gets, ret.
  destruct (TupleTypes C !! TupleType_Profile [] Fields) as [TT|] eqn:Hlk.
  { intros [= <- <-]. split_and!; [done|solve_extends|done]. }
  destruct (TupleType_get_canonical Fields C) as [c C1| |] eqn:Hc; [|done..].
  apply TupleType_get_canonical_spec in Hc as [-> ->].
  unfold new, TupleType_ctor, bind, gets, ret, Allocate, modify. simpl.
  intros [= <- <-]. simpl. split_and!.
  - solve_wf. split; simpl.
    + eapply Forall_impl; [exact Hall|]. intros q. apply allocated_app.
    + intros ? [= <-]. by rewrite forallb_canonical_app.
    + intros ? [= <-]. by rewrite existsb_typeVariable_app.
  - solve_extends.
  - apply lookup_insert_eq.
Qed.

Lemma UnboundGenericType_get_spec D Parent C p C' :
  wf C → UnboundGenericType_get header D Parent C = Ok p C' →
  wf C' ∧ extends C C' ∧ UnboundGenericTypes C' !! UnboundGenericType_Profile [] D Parent = Some p.
Proof.
  intros Hwf. unfold UnboundGenericType_get, bind, gets, ret.
  destruct (UnboundGenericTypes C !! UnboundGenericType_Profile [] D Parent) as [q|] eqn:Hlk.
  { intros [= <- <-]. split_and!; [done|solve_extends|done]. }
  destruct (parentHasTypeVariable Parent C) as [tv C1| |] eqn:Htv; [|done..].
  apply parentHasTypeVariable_Ok in Htv as (-> & -> & HP).
  unfold new, UnboundGenericType_ctor, bind, gets, ret, Allocate, modify. simpl.
  intros [= <- <-]. simpl. split_and!.
  - solve_wf. split; simpl.
    + constructor; [|done]. destruct HP as [->|[P HP]];
        [apply allocated_null|by eapply allocated_deref].
    + done.
    + intros ? [= <-]. simpl. rewrite orb_false_r.
      destruct HP as [->|[P HP]]; [done|].
      rewrite typeVariable_app; [done|]. by eapply derefType_allocated.
  - solve_extends.
  - apply lookup_insert_eq.
Qed.

Lemma OneOfType_get_spec D Parent C p C' :
  wf C → OneOfType_get header D Parent C = Ok p C' →
  wf C' ∧ extends C C' ∧ OneOfTypes C' !! OneOfType_Profile [] D Parent = Some p.
Proof.
  intros Hwf. unfold OneOfType_get, bind, gets, ret.
  destruct (OneOfTypes C !! OneOfType_Profile [] D Parent) as [q|] eqn:Hlk.
  { intros [= <- <-]. split_and!; [done|solve_extends|done]. }
  destruct (parentHasTypeVariable Parent C) as [tv C1| |] eqn:Htv; [|done..].
  apply parentHasTypeVariable_Ok in Htv as (-> & -> & HP).
  unfold new, OneOfType_ctor, NominalType_ctor, bind, gets, ret, Allocate, modify. simpl.
  intros [= <- <-]. simpl. split_and!.
  - solve_wf. split; simpl.
    + constructor; [|done]. destruct HP as [->|[P HP]];
        [apply allocated_null|by eapply allocated_deref].
    + done.
    + intros ? [= <-]. simpl. rewrite orb_false_r.
      destruct HP as [->|[P HP]]; [done|].
      rewrite typeVariable_app; [done|]. by eapply derefType_allocated.
  - solve_extends.
  - apply lookup_insert_eq.
Qed.

Lemma StructType_get_spec D Parent C p C' :
  wf C → StructType_get header D Parent C = Ok p C' →
  wf C' ∧ extends C C' ∧ StructTypes C' !! StructType_Profile [] D Parent = Some p.
Proof.
  intros Hwf. unfold StructType_get, bind, gets, ret.
  destruct (StructTypes C !! StructType_Profile [] D Parent) as [q|] eqn:Hlk.
  { intros [= <- <-]. split_and!; [done|solve_extends|done]. }
  destruct (parentHasTypeVariable Parent C) as [tv C1| |] eqn:Htv; [|done..].
  apply parentHasTypeVariable_Ok in Htv as (-> & -> & HP).
  unfold new, StructType_ctor, NominalType_ctor, bind, gets, ret, Allocate, modify. simpl.
  intros [= <- <-]. simpl. split_and!.
  - solve_wf. split; simpl.
    + constructor; [|done]. destruct HP as [->|[P HP]];
        [apply allocated_null|by eapply allocated_deref].
    + done.
    + intros ? [= <-]. simpl. rewrite orb_false_r.
      destruct HP as [->|[P HP]]; [done|].
      rewrite typeVariable_app; [done|]. by eapply derefType_allocated.
  - solve_extends.
  - apply lookup_insert_eq.
Qed.

Lemma ClassType_get_spec D Parent C p C' :
  wf C → ClassType_get header D Parent C = Ok p C' →
  wf C' ∧ extends C C' ∧ ClassTypes C' !! ClassType_Profile [] D Parent = Some p.
Proof.
  intros Hwf. unfold ClassType_get, bind, gets, ret.
  destruct (ClassTypes C !! ClassType_Profile [] D Parent) as [q|] eqn:Hlk.
  { intros [= <- <-]. split_and!; [done|solve_extends|done]. }
  destruct (parentHasTypeVariable Parent C) as [tv C1| |] eqn:Htv; [|done..].
  apply parentHasTypeVariable_Ok in Htv as (-> & -> & HP).
  unfold new, ClassType_ctor, NominalType_ctor, bind, gets, ret, Allocate, modify. simpl.
  intros [= <- <-]. simpl. split_and!.
  - solve_wf. split; simpl.
    + constructor; [|done]. destruct HP as [->|[P HP]];
        [apply allocated_null|by eapply allocated_deref].
    + done.
    + intros ? [= <-]. simpl. rewrite orb_false_r.
      destruct HP as [->|[P HP]]; [done|].
      rewrite typeVariable_app; [done|]. by eapply derefType_allocated.
  - solve_extends.
  - apply lookup_insert_eq.
Qed.

Lemma BoundGenericType_get_spec D Parent Args C p C' :
  wf C → Forall (allocated (Allocator C)) (Parent :: Args) →
  BoundGenericType_get D Parent Args C = Ok p C' →
  wf C' ∧ extends C C' ∧
  BoundGenericTypes C' !! BoundGenericType_Profile [] D Parent Args = Some p.
Proof.
  intros Hwf Hall. unfold BoundGenericType_get, bind, gets, ret, declKind.
  destruct (derefDecl (Allocator C) D) as [DK|] eqn:HDK; [|done].
  destruct (BoundGenericTypes C !! BoundGenericType_Profile [] D Parent Args)
    as [q|] eqn:Hlk.
  { intros [= <- <-]. split_and!; [done|solve_extends|done]. }
  destruct (parentHasTypeVariable Parent C) as [tv C1| |] eqn:Htv; [|done..].
  apply parentHasTypeVariable_Ok in Htv as (-> & -> & HP).
  pose (c0 := if Parent =? 0 then true else canonical (Allocator C) Parent).
  pose (t0 := typeVariable (Allocator C) Parent).
  match goal with
  | |- match ?can with _ => _ end = _ → _ =>
      assert (can = Ok c0 C) as ->
  end.
  { subst c0. unfold typeBase, isCanonical, canonical.
    destruct (Nat.eqb_spec Parent 0) as [Hz|Hz]; [done|].
    destruct HP as [?|[P ->]]; done. }
  fold t0.
  match goal with
  | |- match ?fl with _ => _ end = _ → _ =>
      assert (∀ r C1, fl = Ok r C1 →
                C1 = C ∧
                r = (c0 && forallb (canonical (Allocator C)) Args,
                     t0 || existsb (typeVariable (Allocator C)) Args)) as Hfl;
      [|destruct fl as [[c t] C1| |] eqn:Hfleq; [|done..]]
  end.
  { intros r C1. destruct c0 eqn:Hc0, t0 eqn:Ht0; simpl;
      solve [apply BoundGenericType_get_flags_spec | by intros [= <- <-]]. }
  destruct (Hfl _ _ eq_refl) as [-> [= -> ->]]. clear Hfl Hfleq.
  assert (∀ K T C1,
    new (BoundGenericType_ctor K D Parent Args
           (c0 && forallb (canonical (Allocator C)) Args)
           (t0 || existsb (typeVariable (Allocator C)) Args)) C = Ok T C1 →
    K ∈ [BoundGenericClass; BoundGenericStruct; BoundGenericOneOf] →
    wf (set_BoundGenericTypes <[BoundGenericType_Profile [] D Parent Args := T]> C1) ∧
    extends C (set_BoundGenericTypes <[BoundGenericType_Profile [] D Parent Args := T]> C1) ∧
    BoundGenericTypes
      (set_BoundGenericTypes <[BoundGenericType_Profile [] D Parent Args := T]> C1)
      !! BoundGenericType_Profile [] D Parent Args = Some T) as Hnew.
  { intros K T C1. unfold new, bind, Allocate.
    destruct (BoundGenericType_ctor _ _ _ _ _ _ C) as [N C2| |] eqn:HN; [|done..].
    apply BoundGenericType_ctor_Ok in HN as [-> [u ->]].
    intros [= <- <-] HK. simpl. split_and!.
    - assert (key_BoundGeneric
                (mkType K (c0 && forallb (canonical (Allocator C)) Args)
                   u (t0 || existsb (typeVariable (Allocator C)) Args)
                   (PBoundGeneric D Parent Args))
              = Some (BoundGenericType_Profile [] D Parent Args)) as Hkey.
      { repeat (apply elem_of_cons in HK as [->|HK]; [done|]).
        by apply elem_of_nil in HK. }
      destruct Hwf as [Hid ? ? ? ? ? ? ? ? ? ? ? ? ? ? ? ?]; split; simpl;
        try (by apply table_ok_app).
      { intros Str q Hq. destruct (Hid _ _ Hq). split; [done|by apply deref_app]. }
      apply table_ok_insert; [assumption|exact Hkey|].
      split; simpl.
      + eapply Forall_impl; [exact Hall|]. intros q. apply allocated_app.
      + intros ? [= <-]. rewrite forallb_app.
        apply Forall_cons in Hall as [HaP HaA].
        rewrite !forallb_canonical_app; [|done|by destruct (Parent =? 0); auto].
        subst c0. destruct (Parent =? 0); simpl; [done|by rewrite andb_true_r].
      + intros ? [= <-]. by rewrite existsb_typeVariable_app.
    - solve_extends.
    - apply lookup_insert_eq. }
  unfold modify.
  destruct DK; simpl;
    try (unfold assert; simpl);
    match goal with
    | |- match new ?c C with _ => _ end = _ → _ =>
        destruct (new c C) as [T C1| |] eqn:HT; [|done..];
        intros [= <- <-]; eapply Hnew; [exact HT|rewrite !elem_of_cons; auto]
    | |- _ => done
    end.
Qed.

Lemma ProtocolCompositionType_build_spec Ps C p C' :
  wf C → ProtocolCompositionType_build header Ps C = Ok p C' →
  wf C' ∧ extends C C' ∧
  ProtocolCompositionTypes C' !! ProtocolCompositionType_Profile [] Ps = Some p.
Proof.
  intros Hwf. unfold ProtocolCompositionType_build, bind, gets, ret.
  destruct (ProtocolCompositionTypes C !! ProtocolCompositionType_Profile [] Ps)
    as [q|] eqn:Hlk.
  { intros [= <- <-]. split_and!; [done|solve_extends|done]. }
  destruct (ProtocolCompositionType_build_canonical Ps true C) as [c C1| |] eqn:Hc;
    [|done..].
  apply ProtocolCompositionType_build_canonical_spec in Hc as (-> & -> & Hall).
  unfold new, ProtocolCompositionType_ctor, bind, gets, ret, Allocate, modify. simpl.
  intros [= <- <-]. simpl. split_and!.
  - solve_wf. split; simpl.
    + eapply Forall_impl; [exact Hall|]. intros q. apply allocated_app.
    + intros ? [= <-]. by rewrite forallb_canonical_app.
    + done.
  - solve_extends.
  - apply lookup_insert_eq.
Qed.

Lemma MetaTypeType_get_spec T C p C' :
  wf C → MetaTypeType_get T C = Ok p C' →
  wf C' ∧ extends C C' ∧ MetaTypeTypes C' !! T = Some p.
Proof.
  intros Hwf. unfold MetaTypeType_get, bind, gets, typeBase, new, MetaTypeType_ctor,
    Allocate, modify, ret, typeBase. simpl.
  destruct (Nat.eqb_spec (slot (MetaTypeTypes C) T) 0) as [Hs|Hs]; simpl.
  - destruct (derefType (Allocator C) T) as [I|] eqn:HI; [|done].
    mstep. rewrite ?HI, ?HR, ?HB. mstep.
    intros [= <- <-]. simpl. split_and!.
    + solve_wf. solve_node_ok.
    + apply (slot_null _ _ _ _ (wf_MetaTypeTypes _ Hwf)) in Hs. solve_extends.
    + apply lookup_insert_eq.
  - intros [= <- <-]. split_and!; [done|solve_extends|by apply slot_nonnull].
Qed.

Lemma ModuleType_get_spec Mod C p C' :
  wf C → ModuleType_get header Mod C = Ok p C' →
  wf C' ∧ extends C C' ∧ ModuleTypes C' !! Mod = Some p.
Proof.
  intros Hwf. unfold ModuleType_get, bind, gets, new, headerNode,
    Allocate, modify, ret, undefined. simpl.
  destruct (deref (Allocator C) Mod) as [[]|]; try done.
  destruct (Nat.eqb_spec (slot (ModuleTypes C) Mod) 0) as [Hs|Hs]; simpl.
  - intros [= <- <-]. simpl. split_and!.
    + solve_wf. solve_node_ok.
    + apply (slot_null _ _ _ _ (wf_ModuleTypes _ Hwf)) in Hs. solve_extends.
    + apply lookup_insert_eq.
  - intros [= <- <-]. split_and!; [done|solve_extends|by apply slot_nonnull].
Qed.

Lemma FunctionType_get_spec Input Result a C p C' :
  wf C → FunctionType_get Input Result a C = Ok p C' →
  wf C' ∧ extends C C' ∧
  FunctionTypes C' !! (Input, (Result, char_of_bool a)) = Some p.
Proof.
  intros Hwf. unfold FunctionType_get, bind, gets, typeBase, new, FunctionType_ctor,
    Allocate, modify, ret, typeBase, isCanonical, hasTypeVariable. simpl.
  destruct (Nat.eqb_spec (slot (FunctionTypes C) (Input, (Result, char_of_bool a))) 0)
    as [Hs|Hs]; simpl.
  - destruct (derefType (Allocator C) Input) as [I|] eqn:HI; [|done].
    destruct (derefType (Allocator C) Result) as [R|] eqn:HR; [|done].
    mstep. rewrite ?HI, ?HR, ?HB. mstep.
    intros [= <- <-]. simpl. split_and!.
    + solve_wf. solve_node_ok.
    + apply (slot_null _ _ _ _ (wf_FunctionTypes _ Hwf)) in Hs. solve_extends.
    + apply lookup_insert_eq.
  - intros [= <- <-]. split_and!; [done|solve_extends|by apply slot_nonnull].
Qed.

Lemma ArrayType_get_spec BaseType Size C p C' :
  wf C → ArrayType_get BaseType Size C = Ok p C' →
  wf C' ∧ extends C C' ∧ ArrayTypes C' !! (BaseType, Size) = Some p.
Proof.
  intros Hwf. unfold ArrayType_get, bind, gets, typeBase, new, ArrayType_ctor,
    Allocate, modify, ret, typeBase, assert, isCanonical, hasTypeVariable. simpl.
  destruct (Size =? 0)%N; [done|]. simpl.
  destruct (Nat.eqb_spec (slot (ArrayTypes C) (BaseType, Size)) 0) as [Hs|Hs]; simpl.
  - destruct (derefType (Allocator C) BaseType) as [B|] eqn:HB; [|done].
    mstep. rewrite ?HI, ?HR, ?HB. mstep.
    intros [= <- <-]. simpl. split_and!.
    + solve_wf. solve_node_ok.
    + apply (slot_null _ _ _ _ (wf_ArrayTypes _ Hwf)) in Hs. solve_extends.
    + apply lookup_insert_eq.
  - intros [= <- <-]. split_and!; [done|solve_extends|by apply slot_nonnull].
Qed.

Lemma ArraySliceType_get_spec base C p C' :
  wf C → ArraySliceType_get header base C = Ok p C' →
  wf C' ∧ extends C C' ∧ ArraySliceTypes C' !! base = Some p.
Proof.
  intros Hwf. unfold ArraySliceType_get, bind, gets, typeBase, new,
    ArraySliceType_ctor, Allocate, modify, ret, typeBase, hasTypeVariable. simpl.
  destruct (Nat.eqb_spec (slot (ArraySliceTypes C) base) 0) as [Hs|Hs]; simpl.
  - destruct (derefType (Allocator C) base) as [B|] eqn:HB; [|done].
    intros [= <- <-]. simpl. split_and!.
    + solve_wf. solve_node_ok.
    + apply (slot_null _ _ _ _ (wf_ArraySliceTypes _ Hwf)) in Hs. solve_extends.
    + apply lookup_insert_eq.
  - intros [= <- <-]. split_and!; [done|solve_extends|by apply slot_nonnull].
Qed.

Lemma LValueType_get_spec objectTy quals C p C' :
  wf C → LValueType_get header objectTy quals C = Ok p C' →
  wf C' ∧ extends C C' ∧ LValueTypes C' !! (objectTy, quals) = Some p.
Proof.
  intros Hwf. unfold LValueType_get, bind, gets, ret.
  destruct (LValueTypes C !! (objectTy, quals)) as [q|] eqn:Hlk.
  { intros [= <- <-]. split_and!; [done|solve_extends|done]. }
  unfold typeBase, new, LValueType_ctor, bind, gets, ret, Allocate, modify,
    isCanonical, hasTypeVariable. simpl.
  destruct (derefType (Allocator C) objectTy) as [B|] eqn:HB; [|done].
  intros [= <- <-]. simpl. split_and!.
  - solve_wf. solve_node_ok.
  - solve_extends.
  - apply lookup_insert_eq.
Qed.

Lemma SubstitutedType_get_spec Original Replacement C p C' :
  wf C → allocated (Allocator C) Original →
  SubstitutedType_get header Original Replacement C = Ok p C' →
  wf C' ∧ extends C C' ∧ SubstitutedTypes C' !! (Original, Replacement) = Some p.
Proof.
  intros Hwf Hall. unfold SubstitutedType_get, bind, gets, typeBase, new,
    SubstitutedType_ctor, Allocate, modify, ret, typeBase, hasTypeVariable. simpl.
  destruct (Nat.eqb_spec (slot (SubstitutedTypes C) (Original, Replacement)) 0)
    as [Hs|Hs]; simpl.
  - destruct (derefType (Allocator C) Replacement) as [R|] eqn:HR; [|done].
    intros [= <- <-]. simpl. split_and!.
    + solve_wf. solve_node_ok.
    + apply (slot_null _ _ _ _ (wf_SubstitutedTypes _ Hwf)) in Hs. solve_extends.
    + apply lookup_insert_eq.
  - intros [= <- <-]. split_and!; [done|solve_extends|by apply slot_nonnull].
Qed.

Lemma TupleType_get_spec Fields C p C' :
  wf C → Forall (allocated (Allocator C)) (map Ty Fields) →
  existsb hasInit Fields = false →
  TupleType_get header Fields C = Ok p C' →
  wf C' ∧ extends C C' ∧ table_entry C' (GetTuple Fields) = Some p.
Proof.
  intros Hwf Hall Hdef. unfold TupleType_get, table_entry.
  destruct Fields as [|Elt [|Elt' Fields]];
    try (by apply TupleType_get_tuple_spec).
  destruct (negb (isVararg Elt) && negb (hasName Elt));
    [by apply ParenType_get_spec|by apply TupleType_get_tuple_spec].
Qed.

(** Every uniqued factory keeps the invariant, only extends the state and
    leaves its result in its table. *)
Lemma exec_spec r C p C' :
  wf C → Forall (allocated (Allocator C)) (req_ptrs r) → excepted r = false →
  exec header r C = Ok p C' →
  wf C' ∧ extends C C' ∧ table_entry C' r = Some p.
Proof.
  intros Hwf Hall Hdef. destruct r; simpl in *; [..|done].
  - by apply BuiltinIntegerType_get_spec.
  - by apply ParenType_get_spec.
  - by apply TupleType_get_spec.
  - by apply UnboundGenericType_get_spec.
  - by apply BoundGenericType_get_spec.
  - by apply OneOfType_get_spec.
  - by apply StructType_get_spec.
  - by apply ClassType_get_spec.
  - by apply ProtocolCompositionType_build_spec.
  - by apply MetaTypeType_get_spec.
  - by apply ModuleType_get_spec.
  - by apply FunctionType_get_spec.
  - by apply ArrayType_get_spec.
  - by apply ArraySliceType_get_spec.
  - by apply LValueType_get_spec.
  - apply SubstitutedType_get_spec; [done|]. by apply Forall_cons in Hall as [? _].
Qed.

End Properties.

(** ** A node answers one request of its factory *)

Lemma table_entry_inj C r1 r2 p :
  wf C → same_factory r1 r2 = true →
  excepted r1 = false → excepted r2 = false →
  table_entry C r1 = Some p → table_entry C r2 = Some p → r1 = r2.
Proof.
  intros Hwf Hsame Hd1 Hd2 H1 H2.
  destruct r1, r2; try done; simpl in *.
  - f_equal. eapply table_ok_inj; [apply (wf_IntegerTypes _ Hwf)|done..].
  - f_equal. eapply table_ok_inj; [apply (wf_ParenTypes _ Hwf)|done..].
  - assert (∀ Elt F, ParenTypes C !! Ty Elt = Some p →
              TupleTypes C !! TupleType_Profile [] F = Some p → False) as Hmix.
    { intros Elt F Hp Ht.
      destruct (wf_ParenTypes _ Hwf _ _ Hp) as (T1 & HT1 & Hk1 & _).
      destruct (wf_TupleTypes _ Hwf _ _ Ht) as (T2 & HT2 & Hk2 & _).
      rewrite HT1 in HT2. injection HT2 as <-.
      unfold key_Paren, key_Tuple in *. by destruct (Kind T1). }
    assert (∀ F1 F2, TupleTypes C !! TupleType_Profile [] F1 = Some p →
              TupleTypes C !! TupleType_Profile [] F2 = Some p → F1 = F2) as Htup.
    { intros F1 F2 Ht1 Ht2. apply TupleType_Profile_inj.
      eapply table_ok_inj; [apply (wf_TupleTypes _ Hwf)|done..]. }
    f_equal.
    destruct Fields as [|E1 [|E1' F1]], Fields0 as [|E2 [|E2' F2]];
      try (eapply Htup; eassumption).
    all: try destruct (negb (isVararg E1) && negb (hasName E1)) eqn:HE1.
    all: try destruct (negb (isVararg E2) && negb (hasName E2)) eqn:HE2.
    all: try (eapply Htup; eassumption).
    all: try (exfalso; eapply Hmix; eassumption).
    simpl in Hd1, Hd2. rewrite orb_false_r in Hd1, Hd2.
    f_equal. apply paren_elt_inj; try done.
    eapply table_ok_inj; [apply (wf_ParenTypes _ Hwf)|done..].
  - assert (UnboundGenericType_Profile [] TheDecl Parent
            = UnboundGenericType_Profile [] TheDecl0 Parent0) as [= -> ->]; [|done].
    eapply table_ok_inj; [apply (wf_UnboundGenericTypes _ Hwf)|done..].
  - assert (BoundGenericType_Profile [] TheDecl Parent GenericArgs
            = BoundGenericType_Profile [] TheDecl0 Parent0 GenericArgs0) as Heq.
    { eapply table_ok_inj; [apply (wf_BoundGenericTypes _ Hwf)|done..]. }
    by apply BoundGenericType_Profile_inj in Heq as (-> & -> & ->).
  - assert (OneOfType_Profile [] D Parent = OneOfType_Profile [] D0 Parent0)
      as [= -> ->]; [|done].
    eapply table_ok_inj; [apply (wf_OneOfTypes _ Hwf)|done..].
  - assert (StructType_Profile [] D Parent = StructType_Profile [] D0 Parent0)
      as [= -> ->]; [|done].
    eapply table_ok_inj; [apply (wf_StructTypes _ Hwf)|done..].
  - assert (ClassType_Profile [] D Parent = ClassType_Profile [] D0 Parent0)
      as [= -> ->]; [|done].
    eapply table_ok_inj; [apply (wf_ClassTypes _ Hwf)|done..].
  - f_equal. apply ProtocolCompositionType_Profile_inj.
    eapply table_ok_inj; [apply (wf_ProtocolCompositionTypes _ Hwf)|done..].
  - f_equal. eapply table_ok_inj; [apply (wf_MetaTypeTypes _ Hwf)|done..].
  - f_equal. eapply table_ok_inj; [apply (wf_ModuleTypes _ Hwf)|done..].
  - assert ((Input, (Result, char_of_bool isAutoClosure))
            = (Input0, (Result0, char_of_bool isAutoClosure0))) as [= -> -> Hc].
    { eapply table_ok_inj; [apply (wf_FunctionTypes _ Hwf)|done..]. }
    by apply char_of_bool_inj in Hc as ->.
  - assert ((BaseType, Size) = (BaseType0, Size0)) as [= -> ->]; [|done].
    eapply table_ok_inj; [apply (wf_ArrayTypes _ Hwf)|done..].
  - f_equal. eapply table_ok_inj; [apply (wf_ArraySliceTypes _ Hwf)|done..].
  - assert ((objectTy, quals) = (objectTy0, quals0)) as [= -> ->]; [|done].
    eapply table_ok_inj; [apply (wf_LValueTypes _ Hwf)|done..].
  - assert ((Original, Replacement) = (Original0, Replacement0)) as [= -> ->];
      [|done].
    eapply table_ok_inj; [apply (wf_SubstitutedTypes _ Hwf)|done..].
Qed.

(** ** A second request finds the node of the first *)

Lemma table_entry_extends C C' r p :
  extends C C' → table_entry C r = Some p → table_entry C' r = Some p.
Proof.
  intros []. destruct r; simpl; try done;
    repeat case_match;
    intros Hk; eapply lookup_weaken; eassumption.
Qed.

Lemma probe_ok_prefix A A' r : A `prefix_of` A' → probe_ok A r → probe_ok A' r.
Proof.
  intros Hpre.
  assert (∀ p, is_Some (derefType A p) → is_Some (derefType A' p)) as Hty.
  { intros p [T HT]. exists T. by eapply derefType_prefix. }
  assert (∀ ps, Forall (λ p, p = 0 ∨ is_Some (derefType A p)) ps →
                Forall (λ p, p = 0 ∨ is_Some (derefType A' p)) ps) as Hall.
  { intros ps Hps. eapply Forall_impl; [exact Hps|]. intros p [?|?]; auto. }
  destruct r; simpl; try done.
  - apply Hty.
  - repeat case_match; first [apply Hty|apply Hall].
  - unfold derefDecl. intros [K HK].
    destruct (deref A TheDecl) as [o|] eqn:Ho; [|done].
    by rewrite (deref_prefix _ _ _ _ Hpre Ho).
  - intros [Name HN]. exists Name. by eapply deref_prefix.
Qed.

Lemma TupleType_get_flags_probe Fields t C :
  existsb hasInit Fields = false →
  Forall (λ p, p = 0 ∨ is_Some (derefType (Allocator C) p)) (map Ty Fields) →
  ∃ t', TupleType_get_flags Fields false t C = Ok (false, t') C.
Proof.
  revert t. induction Fields as [|Elt Fields IH]; intros t; simpl.
  - intros _ _. by exists t.
  - intros [Hi Hd]%orb_false_iff [HE Hall]%Forall_cons. rewrite Hi. simpl.
    unfold bind, ret, typeBase.
    destruct (Nat.eqb_spec (Ty Elt) 0) as [Hz|Hz]; [by apply IH|].
    destruct HE as [?|[T HT]]; [done|]. rewrite HT.
    destruct (hasTypeVariable T); by apply IH.
Qed.

Lemma TupleType_get_flags_probed Fields t C r C' :
  existsb hasInit Fields = false →
  TupleType_get_flags Fields false t C = Ok r C' →
  Forall (λ p, p = 0 ∨ is_Some (derefType (Allocator C) p)) (map Ty Fields).
Proof.
  revert t. induction Fields as [|Elt Fields IH]; intros t; simpl; [by constructor|].
  intros [Hi Hd]%orb_false_iff. rewrite Hi. simpl.
  unfold bind, ret, typeBase.
  destruct (Nat.eqb_spec (Ty Elt) 0) as [Hz|Hz].
  { intros H. constructor; [by left|]. by eapply IH. }
  destruct (derefType (Allocator C) (Ty Elt)) as [T|] eqn:HT; [|done].
  intros H. constructor; [by right|].
  destruct (hasTypeVariable T); by eapply IH.
Qed.

Section Uniquing.

Variable header : list Object → TypeKind → Payload → HeaderBits.

Lemma exec_probe_ok r C p C' :
  excepted r = false → exec header r C = Ok p C' → probe_ok (Allocator C) r.
Proof.
  intros Hdef. destruct r; simpl in *; try done.
  - unfold ParenType_get. mstep.
    by destruct (derefType (Allocator C) underlying).
  - assert (∀ F, existsb hasInit F = false →
              TupleType_get_tuple header F C = Ok p C' →
              Forall (λ p, p = 0 ∨ is_Some (derefType (Allocator C) p)) (map Ty F))
      as Htup.
    { intros F HF. unfold TupleType_get_tuple, bind.
      destruct (TupleType_get_flags F false false C) as [fl C1| |] eqn:Hfl; [|done..].
      intros _. by eapply TupleType_get_flags_probed. }
    unfold TupleType_get.
    destruct Fields as [|Elt [|Elt' Fields]]; try (by apply Htup).
    destruct (negb (isVararg Elt) && negb (hasName Elt)); [|by apply Htup].
    unfold ParenType_get. mstep. by destruct (derefType (Allocator C) (Ty Elt)).
  - unfold BoundGenericType_get. mstep.
    by destruct (derefDecl (Allocator C) TheDecl).
  - unfold ModuleType_get. mstep.
    destruct (deref (Allocator C) Mod) as [[]|]; try done. eauto.
  - unfold ArrayType_get. mstep. by destruct (N.eqb_spec Size 0).
Qed.

Lemma exec_hit r C p :
  excepted r = false → probe_ok (Allocator C) r → table_entry C r = Some p →
  p ≠ 0 → exec header r C = Ok p C.
Proof.
  intros Hdef Hprobe Hentry Hp.
  assert (∀ {K} `{Countable K} (Tb : gmap K nat) k,
            Tb !! k = Some p → (slot Tb k =? 0) = false) as Hslot.
  { intros K ? ? Tb k Hk. rewrite (slot_Some _ _ _ Hk). by apply Nat.eqb_neq. }
  assert (∀ U, is_Some (derefType (Allocator C) U) → ParenTypes C !! U = Some p →
               ParenType_get header U C = Ok p C) as Hparen.
  { intros U [T HT] Hk. unfold ParenType_get. mstep.
    rewrite HT, (Hslot _ _ _ _ _ Hk). by rewrite (slot_Some _ _ _ Hk). }
  assert (∀ F, existsb hasInit F = false →
              Forall (λ p, p = 0 ∨ is_Some (derefType (Allocator C) p)) (map Ty F) →
              TupleTypes C !! TupleType_Profile [] F = Some p →
              TupleType_get_tuple header F C = Ok p C) as Htup.
  { intros F HF Hall Hk. unfold TupleType_get_tuple, bind.
    destruct (TupleType_get_flags_probe F false C HF Hall) as [t' ->].
    simpl. unfold gets, ret. by rewrite Hk. }
  destruct r; simpl in *; try done;
    try (match goal with
         | |- ?f _ = _ => unfold f
         | |- ?f _ _ = _ => unfold f
         | |- ?f _ _ _ = _ => unfold f
         | |- ?f _ _ _ _ = _ => unfold f
         end; mstep;
         first [ by rewrite Hentry
               | rewrite (Hslot _ _ _ _ _ Hentry); simpl;
                 by rewrite (slot_Some _ _ _ Hentry) ]).
  - by apply Hparen.
  - unfold TupleType_get.
    destruct Fields as [|Elt [|Elt' Fields]]; try (by apply Htup).
    destruct (negb (isVararg Elt) && negb (hasName Elt));
      [by apply Hparen|by apply Htup].
  - destruct Hprobe as [K HK]. unfold BoundGenericType_get. mstep.
    by rewrite HK, Hentry.
  - destruct Hprobe as [Name HN]. unfold ModuleType_get. mstep. rewrite HN.
    rewrite (Hslot _ _ _ _ _ Hentry). simpl. by rewrite (slot_Some _ _ _ Hentry).
  - unfold ArrayType_get. mstep. apply N.eqb_neq in Hprobe as ->. simpl.
    rewrite (Hslot _ _ _ _ _ Hentry). simpl. by rewrite (slot_Some _ _ _ Hentry).
Qed.

End Uniquing.

Lemma wf_Implementation_new : wf Implementation_new.
Proof. split; simpl; try apply table_ok_empty. intros Str p. by rewrite lookup_empty. Qed.

Lemma table_entry_data C r p :
  wf C → table_entry C r = Some p →
  ∃ T, derefType (Allocator C) p = Some T ∧ Data T = req_data r ∧
       node_ok (Allocator C) T.
Proof.
  intros Hwf.
  assert (∀ {K} `{Countable K} (Tb : gmap K nat) key_of k D,
            table_ok (Allocator C) Tb key_of → Tb !! k = Some p →
            (∀ T, key_of T = Some k → Data T = D) →
            ∃ T, derefType (Allocator C) p = Some T ∧ Data T = D ∧
                 node_ok (Allocator C) T) as Hgen.
  { intros K ? ? Tb key_of k D Hok Hk HD.
    destruct (Hok _ _ Hk) as (T & ? & ? & ?). exists T. auto. }
  assert (∀ U T, key_Paren T = Some U → Data T = PParen U) as HParen.
  { intros U T. unfold key_Paren.
    destruct (Kind T), (Data T); try done. by intros [= ->]. }
  assert (∀ F T, key_Tuple T = Some (TupleType_Profile [] F) → Data T = PTuple F)
    as HTuple.
  { intros F T. unfold key_Tuple.
    destruct (Kind T), (Data T); try done. by intros [= ->%TupleType_Profile_inj]. }
  assert (∀ {K} `{Countable K} (Tb : gmap K nat) key_of k D,
            Tb !! k = Some p → table_ok (Allocator C) Tb key_of →
            (∀ T, key_of T = Some k → Data T = D) →
            ∃ T, derefType (Allocator C) p = Some T ∧ Data T = D ∧
                 node_ok (Allocator C) T) as Hgen'.
  { intros K ? ? Tb key_of k D Hk Hok HD. by eapply Hgen. }
  clear Hgen.
  destruct Hwf. destruct r; simpl; try done.
  all: repeat case_match.
  all: intros Hk; eapply (Hgen' _ _ _ _ _ _ _ Hk); [eassumption|]; intros TB.
  all: try apply HParen; try apply HTuple.
  all: unfold key_Integer, key_UnboundGeneric, key_OneOf, key_Struct,
         key_Class, key_MetaType, key_Module, key_Function, key_Array,
         key_ArraySlice, key_LValue, key_Substituted, key_BoundGeneric,
         key_ProtocolComposition;
       destruct (Kind TB), (Data TB); try done.
  all: first [ by intros [= -> ->] | by intros [= ->]
             | by intros [= -> -> ->%char_of_bool_inj]
             | by intros [= (-> & -> & ->)%BoundGenericType_Profile_inj]
             | by intros [= ->%ProtocolCompositionType_Profile_inj] ].
Qed.

(** ** Factories that place a fresh node *)

Lemma TupleType_get_flags_prefix Fields d t C r C' C2 :
  TupleType_get_flags Fields d t C = Ok r C' →
  Allocator C `prefix_of` Allocator C2 →
  TupleType_get_flags Fields d t C2 = Ok r C2.
Proof.
  intros Hfl Hpre. revert d t Hfl.
  induction Fields as [|Elt Fields IH]; intros d t; simpl.
  - unfold ret. by intros [= <- _].
  - unfold bind, ret, typeBase.
    destruct (hasInit Elt && t); [by intros [= <- _]|].
    destruct (Nat.eqb_spec (Ty Elt) 0) as [Hz|Hz].
    { apply IH. }
    destruct (derefType (Allocator C) (Ty Elt)) as [T|] eqn:HT; [|done].
    rewrite (derefType_prefix _ _ _ _ Hpre HT).
    destruct (hasTypeVariable T).
    + destruct (if hasInit Elt then true else d); [by intros [= <- _]|apply IH].
    + apply IH.
Qed.

Lemma TupleType_get_canonical_prefix Fields C r C' C2 :
  TupleType_get_canonical Fields C = Ok r C' →
  Allocator C `prefix_of` Allocator C2 →
  TupleType_get_canonical Fields C2 = Ok r C2.
Proof.
  intros Hc Hpre. revert Hc. induction Fields as [|Elt Fields IH]; simpl.
  - unfold ret. by intros [= <- _].
  - unfold bind, ret, typeBase.
    destruct (Ty Elt =? 0); [by intros [= <- _]|].
    destruct (derefType (Allocator C) (Ty Elt)) as [T|] eqn:HT; [|done].
    rewrite (derefType_prefix _ _ _ _ Hpre HT).
    destruct (negb (isCanonical T)); [by intros [= <- _]|apply IH].
Qed.

Section Fresh.

Variable header : list Object → TypeKind → Payload → HeaderBits.

(** A tuple with a default-valued element that is not collapsed to a
    parenthesised type: the node is new and no table changes. *)
Lemma TupleType_get_tuple_default Fields C p C' :
  existsb hasInit Fields = true →
  TupleType_get_tuple header Fields C = Ok p C' →
  ∃ T, p = S (length (Allocator C)) ∧
       C' = set_Allocator (λ A, A ++ [TypeObj T]) C ∧
       Kind T = Tuple ∧ Data T = PTuple Fields ∧
       Context T = forallb (canonical (Allocator C)) (map Ty Fields) ∧
       HasTypeVariable T = existsb (typeVariable (Allocator C)) (map Ty Fields).
Proof.
  intros Hdef. unfold TupleType_get_tuple, bind.
  destruct (TupleType_get_flags Fields false false C) as [[d t] C1| |] eqn:Hfl; [|done..].
  apply TupleType_get_flags_spec in Hfl as [-> [= -> ->]]. rewrite Hdef. simpl.
  unfold ret.
  destruct (TupleType_get_canonical Fields C) as [c C1| |] eqn:Hc; [|done..].
  apply TupleType_get_canonical_spec in Hc as [-> ->].
  unfold new, TupleType_ctor, bind, gets, ret, Allocate. simpl.
  intros [= <- <-]. eexists. split_and!; try reflexivity.
Qed.

Lemma TupleType_get_tuple_default_again Fields C p C' C2 :
  existsb hasInit Fields = true →
  TupleType_get_tuple header Fields C = Ok p C' →
  Allocator C `prefix_of` Allocator C2 →
  ∃ p2 C3, TupleType_get_tuple header Fields C2 = Ok p2 C3.
Proof.
  intros Hdef Hget Hpre. revert Hget. unfold TupleType_get_tuple, bind.
  destruct (TupleType_get_flags Fields false false C) as [[d t] C1| |] eqn:Hfl; [|done..].
  destruct (TupleType_get_flags_spec _ _ _ _ _ _ Hfl) as [-> [= -> ->]].
  rewrite (TupleType_get_flags_prefix _ _ _ _ _ _ C2 Hfl Hpre).
  rewrite Hdef. simpl. unfold ret.
  destruct (TupleType_get_canonical Fields C) as [c C1| |] eqn:Hc; [|done..].
  destruct (TupleType_get_canonical_spec _ _ _ _ Hc) as [-> ->].
  rewrite (TupleType_get_canonical_prefix _ _ _ _ C2 Hc Hpre).
  intros _. unfold new, TupleType_ctor, bind, gets, ret, Allocate. simpl. eauto.
Qed.

Lemma PolymorphicFunctionType_get_Ok input output params C p C' :
  PolymorphicFunctionType_get input output params C = Ok p C' →
  ∃ In Out T,
    derefType (Allocator C) input = Some In ∧
    derefType (Allocator C) output = Some Out ∧
    HasTypeVariable In = false ∧ HasTypeVariable Out = false ∧
    T = mkType PolymorphicFunction (Context In && Context Out)
               (Unresolved In || Unresolved Out) false
               (PPolymorphicFunction input output params) ∧
    p = S (length (Allocator C)) ∧
    C' = set_Allocator (λ A, A ++ [TypeObj T]) C.
Proof.
  unfold PolymorphicFunctionType_get, PolymorphicFunctionType_ctor. mstep.
  destruct (derefType (Allocator C) input) as [In|] eqn:HI; [|done].
  destruct (derefType (Allocator C) output) as [Out|] eqn:HO; [|done].
  unfold hasTypeVariable, isCanonical, isUnresolvedType.
  destruct (HasTypeVariable In) eqn:HtI, (HasTypeVariable Out) eqn:HtO; try done.
  simpl. intros [= <- <-]. exists In, Out. eexists. split_and!; try done.
  by destruct (Context In), (Context Out).
Qed.

(** Every factory keeps the invariant and only extends the state, and
    the node it returns holds the fields of the request and satisfies
    [node_ok]. *)
Lemma exec_node r C p C' :
  wf C → Forall (allocated (Allocator C)) (req_ptrs r) →
  exec header r C = Ok p C' →
  wf C' ∧ extends C C' ∧
  ∃ T, derefType (Allocator C') p = Some T ∧ Data T = req_data r ∧
       node_ok (Allocator C') T.
Proof.
  intros Hwf Hall Hx.
  destruct (excepted r) eqn:Hex.
  2: { destruct (exec_spec header _ _ _ _ Hwf Hall Hex Hx) as (Hwf' & Hext & Hent).
       split_and!; [done..|]. by eapply table_entry_data. }
  destruct r; try done; simpl in *.
  - assert (isParenthesized Fields = true ∨ isParenthesized Fields = false)
      as [Hpar|Hpar] by (destruct (isParenthesized Fields); auto).
    + destruct Fields as [|Elt [|Elt' Fields]]; try done. simpl in Hpar, Hx |- *.
      rewrite Hpar in Hx |- *.
      destruct (ParenType_get_spec header _ _ _ _ Hwf Hx) as (Hwf' & Hext & Hent).
      split_and!; [done..|].
      by apply (table_entry_data C' (GetParen (Ty Elt))).
    + assert (TupleType_get_tuple header Fields C = Ok p C') as Hget.
      { destruct Fields as [|Elt [|Elt' Fields]]; try done.
        simpl in Hpar. unfold TupleType_get in Hx. by rewrite Hpar in Hx. }
      assert (req_data (GetTuple Fields) = PTuple Fields) as Hdata.
      { destruct Fields as [|Elt [|Elt' Fields]]; try done.
        simpl in Hpar |- *. by rewrite Hpar. }
      simpl in Hdata. rewrite Hdata.
      destruct (TupleType_get_tuple_default _ _ _ _ Hex Hget)
        as (T & -> & -> & HK & HD & Hc & Ht).
      split_and!; [by apply wf_Allocate|by apply extends_Allocate|].
      exists T. simpl. rewrite derefType_new. split_and!; [done..|].
      split; rewrite HD; simpl.
      * eapply Forall_impl; [exact Hall|]. intros q. apply allocated_app.
      * intros ? [= <-]. by rewrite forallb_canonical_app.
      * intros ? [= <-]. by rewrite existsb_typeVariable_app.
  - destruct (PolymorphicFunctionType_get_Ok _ _ _ _ _ _ Hx)
      as (In & Out & T & HI & HO & HtI & HtO & -> & -> & ->).
    split_and!; [by apply wf_Allocate|by apply extends_Allocate|].
    eexists. simpl. rewrite derefType_new. split_and!; [done..|].
    solve_node_ok. by rewrite HtI, HtO.
Qed.

End Fresh.

(** ** The factories return on valid arguments *)

Lemma TupleType_get_flags_returns Fields d t C :
  Forall (λ p, p = 0 ∨ is_Some (derefType (Allocator C) p)) (map Ty Fields) →
  ∃ r, TupleType_get_flags Fields d t C = Ok r C.
Proof.
  revert d t. induction Fields as [|Elt Fields IH]; intros d t; simpl.
  - intros _. by eexists.
  - intros [HE Hall]%Forall_cons. unfold bind, ret, typeBase.
    destruct (hasInit Elt && t); [by eexists|].
    destruct (Nat.eqb_spec (Ty Elt) 0) as [Hz|Hz]; [by apply IH|].
    destruct HE as [?|[T HT]]; [done|]. rewrite HT.
    destruct (hasTypeVariable T); [|by apply IH].
    destruct (if hasInit Elt then true else d); [by eexists|by apply IH].
Qed.

Lemma TupleType_get_canonical_returns Fields C :
  Forall (λ p, p = 0 ∨ is_Some (derefType (Allocator C) p)) (map Ty Fields) →
  ∃ r, TupleType_get_canonical Fields C = Ok r C.
Proof.
  induction Fields as [|Elt Fields IH]; simpl.
  - intros _. by eexists.
  - intros [HE Hall]%Forall_cons. unfold bind, ret, typeBase.
    destruct (Nat.eqb_spec (Ty Elt) 0) as [Hz|Hz]; [by eexists|].
    destruct HE as [?|[T HT]]; [done|]. rewrite HT.
    destruct (negb (isCanonical T)); [by eexists|by apply IH].
Qed.

Lemma BoundGenericType_get_flags_returns Args c t C :
  Forall (λ p, is_Some (derefType (Allocator C) p)) Args →
  ∃ r, BoundGenericType_get_flags Args c t C = Ok r C.
Proof.
  revert c t. induction Args as [|Arg Args IH]; intros c t; simpl.
  - intros _. by eexists.
  - intros [[T HT] Hall]%Forall_cons. unfold bind, ret, typeBase. rewrite HT.
    destruct (negb (isCanonical T) && t); [by eexists|].
    destruct (hasTypeVariable T); [|by apply IH].
    destruct (negb (if negb (isCanonical T) then false else c));
      [by eexists|by apply IH].
Qed.

Lemma anyUnresolved_returns Args C :
  Forall (λ p, is_Some (derefType (Allocator C) p)) Args →
  ∃ r, anyUnresolved Args C = Ok r C.
Proof.
  induction Args as [|Arg Args IH]; simpl.
  - intros _. by eexists.
  - intros [[T HT] Hall]%Forall_cons. unfold bind, ret, typeBase. rewrite HT.
    destruct (isUnresolvedType T); [by eexists|by apply IH].
Qed.

Lemma ProtocolCompositionType_build_canonical_returns Ps c C :
  Forall (λ p, is_Some (derefType (Allocator C) p)) Ps →
  ∃ r, ProtocolCompositionType_build_canonical Ps c C = Ok r C.
Proof.
  revert c. induction Ps as [|t Ps IH]; intros c; simpl.
  - intros _. by eexists.
  - intros [[T HT] Hall]%Forall_cons. unfold bind, typeBase. rewrite HT.
    by apply IH.
Qed.

Lemma parentHasTypeVariable_returns Parent C :
  Parent = 0 ∨ is_Some (derefType (Allocator C) Parent) →
  ∃ r, parentHasTypeVariable Parent C = Ok r C.
Proof.
  unfold parentHasTypeVariable, bind, ret, typeBase.
  destruct (Nat.eqb_spec Parent 0) as [Hz|Hz]; [by eexists|].
  intros [?|[P ->]]; [done|]. by eexists.
Qed.

Lemma BoundGenericType_ctor_returns K D P Args ctx tv C :
  P = 0 ∨ is_Some (derefType (Allocator C) P) →
  Forall (λ p, is_Some (derefType (Allocator C) p)) Args →
  ∃ T, BoundGenericType_ctor K D P Args ctx tv C = Ok T C.
Proof.
  intros HP Hall. unfold BoundGenericType_ctor, bind, ret, typeBase.
  destruct (anyUnresolved_returns Args C Hall) as [u Hu].
  destruct (Nat.eqb_spec P 0) as [Hz|Hz].
  - rewrite Hu. by eexists.
  - destruct HP as [?|[PT ->]]; [done|].
    destruct (isUnresolvedType PT); [by eexists|]. rewrite Hu. by eexists.
Qed.

Lemma bind_Ok {X Y} (m : M X) (k : X → M Y) C a C1 :
  m C = Ok a C1 → bind m k C = k a C1.
Proof. unfold bind. by intros ->. Qed.

Section Returns.

Variable header : list Object → TypeKind → Payload → HeaderBits.

Lemma ParenType_get_returns U C :
  is_Some (derefType (Allocator C) U) → ∃ p C', ParenType_get header U C = Ok p C'.
Proof.
  intros [T HT]. unfold ParenType_get, ParenType_ctor. mstep. rewrite HT.
  destruct (slot (ParenTypes C) U =? 0); by eexists _, _.
Qed.

Lemma TupleType_get_tuple_returns Fields C :
  Forall (λ p, p = 0 ∨ is_Some (derefType (Allocator C) p)) (map Ty Fields) →
  ∃ p C', TupleType_get_tuple header Fields C = Ok p C'.
Proof.
  intros Hall. unfold TupleType_get_tuple, bind.
  destruct (TupleType_get_flags_returns Fields false false C Hall) as [[d t] ->].
  destruct (TupleType_get_canonical_returns Fields C Hall) as [c Hc].
  assert (∃ p C', (do IsCanonical <- TupleType_get_canonical Fields;
                   do New <- new (TupleType_ctor header Fields IsCanonical t);
                   run (if negb d
                        then modify (set_TupleTypes <[TupleType_Profile [] Fields := New]>)
                        else ret tt);
                   ret New) C = Ok p C') as Hmiss.
  { unfold bind. rewrite Hc. unfold TupleType_ctor. mstep.
    destruct (negb d); by eexists _, _. }
  destruct (negb d) eqn:Hd; simpl; [|exact Hmiss].
  unfold gets, ret.
  destruct (TupleTypes C !! TupleType_Profile [] Fields); [by eexists _, _|].
  exact Hmiss.
Qed.

Lemma nominal_get_returns (Tb : Implementation → gmap (list nat) nat)
    (set : (gmap (list nat) nat → gmap (list nat) nat) → Implementation → Implementation)
    (ctor : Ptr → Ptr → bool → M TypeBase) ID Parent D C :
  (∀ tv, ∃ T, ctor D Parent tv C = Ok T C) →
  Parent = 0 ∨ is_Some (derefType (Allocator C) Parent) →
  ∃ p C',
    (do Found <- gets (λ C, Tb C !! ID);
     match Found with
     | Some q => ret q
     | None =>
         do hasTypeVariable <- parentHasTypeVariable Parent;
         do q <- new (ctor D Parent hasTypeVariable);
         run modify (set <[ID := q]>);
         ret q
     end) C = Ok p C'.
Proof.
  intros Hctor HP. unfold bind, gets, ret.
  destruct (Tb C !! ID); [by eexists _, _|].
  destruct (parentHasTypeVariable_returns Parent C HP) as [tv ->].
  unfold new, bind. destruct (Hctor tv) as [T ->]. unfold Allocate, modify.
  by eexists _, _.
Qed.

(** Every factory returns a node when its arguments are valid. *)
Lemma exec_returns r C :
  request_valid (Allocator C) r → ∃ p C', exec header r C = Ok p C'.
Proof.
  destruct r; simpl.
  - intros _. unfold BuiltinIntegerType_get, headerNode. mstep.
    destruct (slot (IntegerTypes C) BitWidth =? 0); by eexists _, _.
  - apply ParenType_get_returns.
  - intros [Hopt Hpar]. unfold TupleType_get.
    destruct Fields as [|Elt [|Elt' Fields]];
      try (by apply TupleType_get_tuple_returns).
    simpl in Hpar.
    destruct (negb (isVararg Elt) && negb (hasName Elt));
      [|by apply TupleType_get_tuple_returns].
    apply ParenType_get_returns. by apply Forall_cons in Hpar as [? _].
  - apply (nominal_get_returns UnboundGenericTypes set_UnboundGenericTypes
             (UnboundGenericType_ctor header)).
    intros tv. unfold UnboundGenericType_ctor. mstep. by eexists.
  - intros ((K & HK & HKind) & HP & Hall).
    unfold BoundGenericType_get.
    erewrite bind_Ok by (unfold declKind; rewrite HK; reflexivity).
    erewrite bind_Ok by reflexivity.
    destruct (BoundGenericTypes C !! _); [by eexists _, _|].
    destruct (parentHasTypeVariable_returns Parent C HP) as [tv Htv].
    erewrite bind_Ok by exact Htv.
    assert (∃ c, (if Parent =? 0 then ret true
                  else do P <- typeBase Parent; ret (isCanonical P)) C = Ok c C)
      as [c Hc].
    { unfold bind, ret, typeBase.
      destruct (Nat.eqb_spec Parent 0) as [Hz|Hz]; [by eexists|].
      destruct HP as [?|[P ->]]; [done|]. by eexists. }
    erewrite bind_Ok by exact Hc.
    assert (∃ fl, (if c || negb tv
                   then BoundGenericType_get_flags GenericArgs c tv
                   else ret (c, tv)) C = Ok fl C) as [[c' tv'] Hfl].
    { destruct (c || negb tv); [|by eexists].
      by apply BoundGenericType_get_flags_returns. }
    erewrite bind_Ok by exact Hfl.
    assert (∀ K', ∃ q C',
              new (BoundGenericType_ctor K' TheDecl Parent GenericArgs c' tv') C
              = Ok q C') as Hnew.
    { intros K'. unfold new, bind.
      destruct (BoundGenericType_ctor_returns K' TheDecl Parent GenericArgs c' tv' C
                  HP Hall) as [T ->].
      unfold Allocate. by eexists _, _. }
    destruct HKind as [-> | [-> | ->]].
    + destruct (Hnew BoundGenericClass) as (q & C' & Hq).
      erewrite bind_Ok by exact Hq. by eexists _, _.
    + destruct (Hnew BoundGenericStruct) as (q & C' & Hq).
      erewrite bind_Ok by exact Hq. by eexists _, _.
    + destruct (Hnew BoundGenericOneOf) as (q & C' & Hq).
      erewrite bind_Ok; [by eexists _, _|].
      erewrite bind_Ok by reflexivity. exact Hq.
  - apply (nominal_get_returns OneOfTypes set_OneOfTypes (OneOfType_ctor header)).
    intros tv. unfold OneOfType_ctor, NominalType_ctor. mstep. by eexists.
  - apply (nominal_get_returns StructTypes set_StructTypes (StructType_ctor header)).
    intros tv. unfold StructType_ctor, NominalType_ctor. mstep. by eexists.
  - apply (nominal_get_returns ClassTypes set_ClassTypes (ClassType_ctor header)).
    intros tv. unfold ClassType_ctor, NominalType_ctor. mstep. by eexists.
  - intros Hall. unfold ProtocolCompositionType_build, bind, gets, ret.
    destruct (ProtocolCompositionTypes C !! _); [by eexists _, _|].
    destruct (ProtocolCompositionType_build_canonical_returns Protocols true C Hall)
      as [c ->].
    unfold ProtocolCompositionType_ctor. mstep. by eexists _, _.
  - intros [I HI]. unfold MetaTypeType_get, MetaTypeType_ctor. mstep.
    destruct (negb (slot (MetaTypeTypes C) T =? 0)); [by eexists _, _|].
    simpl. rewrite HI. mstep. rewrite HI. mstep. by eexists _, _.
  - intros [Name HN]. unfold ModuleType_get, headerNode. mstep. rewrite HN.
    destruct (negb (slot (ModuleTypes C) Mod =? 0)); by eexists _, _.
  - intros [[I HI] [R HR]]. unfold FunctionType_get, FunctionType_ctor. mstep.
    destruct (negb (slot (FunctionTypes C) _ =? 0)); [by eexists _, _|].
    simpl. rewrite HI, HR. mstep. rewrite HI, HR. mstep. by eexists _, _.
  - intros [HS [B HB]]. unfold ArrayType_get, ArrayType_ctor. mstep.
    apply N.eqb_neq in HS as ->. simpl.
    destruct (negb (slot (ArrayTypes C) _ =? 0)); [by eexists _, _|].
    simpl. rewrite HB. mstep. rewrite HB. mstep. by eexists _, _.
  - intros [B HB]. unfold ArraySliceType_get, ArraySliceType_ctor. mstep.
    destruct (negb (slot (ArraySliceTypes C) base =? 0)); [by eexists _, _|].
    simpl. rewrite HB. mstep. by eexists _, _.
  - intros [B HB]. unfold LValueType_get, LValueType_ctor. mstep.
    destruct (LValueTypes C !! _); [by eexists _, _|].
    rewrite HB. mstep. by eexists _, _.
  - intros [R HR]. unfold SubstitutedType_get, SubstitutedType_ctor. mstep.
    destruct (slot (SubstitutedTypes C) _ =? 0); [|by eexists _, _].
    rewrite HR. mstep. by eexists _, _.
  - intros ([I HI] & [R HR] & HtI & HtR).
    unfold typeVariable in HtI, HtR. rewrite HI in HtI. rewrite HR in HtR.
    unfold PolymorphicFunctionType_get, PolymorphicFunctionType_ctor, hasTypeVariable.
    mstep. rewrite HI, HR, HtI, HtR. simpl. by eexists _, _.
Qed.

End Returns.

(** ** The factories leave the substitution store alone *)

Lemma keeps_ret {X} (a : X) : keeps_store (ret a).
Proof. by intros C b C' [= _ <-]. Qed.

Lemma keeps_gets {X} (f : Implementation → X) : keeps_store (gets f).
Proof. by intros C b C' [= _ <-]. Qed.

Lemma keeps_assert b msg : keeps_store (assert b msg).
Proof. intros C [] C'. unfold assert. destruct b; [by intros [= <-]|done]. Qed.

Lemma keeps_undefined {X} : keeps_store (@undefined X).
Proof. by intros C a C'. Qed.

Lemma keeps_typeBase p : keeps_store (typeBase p).
Proof. by intros C T C' [_ ->]%typeBase_Ok. Qed.

Lemma keeps_declKind p : keeps_store (declKind p).
Proof.
  intros C K C'. unfold declKind.
  destruct (derefDecl (Allocator C) p); [by intros [= _ <-]|done].
Qed.

Lemma keeps_Allocate o : keeps_store (Allocate o).
Proof. by intros C p C' [= _ <-]. Qed.

Lemma keeps_modify f :
  (∀ C, BoundGenericSubstitutions (f C) = BoundGenericSubstitutions C) →
  keeps_store (modify f).
Proof. intros Hf C [] C' [= <-]. apply Hf. Qed.

Lemma keeps_bind {X Y} (m : M X) (k : X → M Y) :
  keeps_store m → (∀ a, keeps_store (k a)) → keeps_store (bind m k).
Proof.
  intros Hm Hk C b C'. unfold bind.
  destruct (m C) as [a C1| |] eqn:Hmc; [|done..].
  intros Hkc. rewrite (Hk a C1 b C' Hkc). by eapply Hm.
Qed.

Ltac keeps :=
  repeat first
    [ assumption
    | apply keeps_ret | apply keeps_gets | apply keeps_assert | apply keeps_undefined
    | apply keeps_typeBase | apply keeps_declKind | apply keeps_Allocate
    | apply keeps_modify; intros ?; reflexivity
    | apply keeps_bind; [|intros ?]
    | match goal with
      | |- keeps_store (if ?b then _ else _) => destruct b
      | |- keeps_store (let '(_, _) := ?x in _) => destruct x
      | |- keeps_store (match ?x with _ => _ end) => destruct x
      end ].

Lemma keeps_TupleType_get_flags Fields d t : keeps_store (TupleType_get_flags Fields d t).
Proof.
  revert d t. induction Fields as [|Elt Fields IH]; intros d t; simpl; keeps;
    apply IH.
Qed.

Lemma keeps_TupleType_get_canonical Fields : keeps_store (TupleType_get_canonical Fields).
Proof. induction Fields as [|Elt Fields IH]; simpl; keeps. Qed.

Lemma keeps_BoundGenericType_get_flags Args c t :
  keeps_store (BoundGenericType_get_flags Args c t).
Proof.
  revert c t. induction Args as [|Arg Args IH]; intros c t; simpl; keeps; apply IH.
Qed.

Lemma keeps_anyUnresolved Args : keeps_store (anyUnresolved Args).
Proof. induction Args as [|Arg Args IH]; simpl; keeps. Qed.

Lemma keeps_ProtocolCompositionType_build_canonical Ps c :
  keeps_store (ProtocolCompositionType_build_canonical Ps c).
Proof. revert c. induction Ps as [|t Ps IH]; intros c; simpl; keeps; apply IH. Qed.

Section Store.

Variable header : list Object → TypeKind → Payload → HeaderBits.

(** No type factory reads or writes the substitution store. *)
Lemma keeps_exec r : keeps_store (exec header r).
Proof.
  destruct r; simpl;
    repeat
      (progress
         (unfold BuiltinIntegerType_get, ParenType_get, TupleType_get,
            TupleType_get_tuple, UnboundGenericType_get, BoundGenericType_get,
            OneOfType_get, StructType_get, ClassType_get,
            ProtocolCompositionType_build, MetaTypeType_get, ModuleType_get,
            FunctionType_get, ArrayType_get, ArraySliceType_get, LValueType_get,
            SubstitutedType_get, PolymorphicFunctionType_get, parentHasTypeVariable,
            new, headerNode, ParenType_ctor, TupleType_ctor, UnboundGenericType_ctor,
            BoundGenericType_ctor, OneOfType_ctor, StructType_ctor, ClassType_ctor,
            NominalType_ctor, ProtocolCompositionType_ctor, MetaTypeType_ctor,
            FunctionType_ctor, PolymorphicFunctionType_ctor, ArrayType_ctor,
            ArraySliceType_ctor, LValueType_ctor, SubstitutedType_ctor;
          cbv zeta; keeps));
    first [ apply keeps_TupleType_get_flags | apply keeps_TupleType_get_canonical
          | apply keeps_BoundGenericType_get_flags | apply keeps_anyUnresolved
          | apply keeps_ProtocolCompositionType_build_canonical ].
Qed.

End Store.

(** ** Reading the flags of the children *)



Lemma paren_entry C U p :
  wf C → ParenTypes C !! U = Some p →
  ∃ T, derefType (Allocator C) p = Some T ∧ Kind T = Paren ∧ Data T = PParen U.
Proof.
  intros Hwf Hk. destruct (wf_ParenTypes _ Hwf _ _ Hk) as (T & HT & Hkey & _).
  exists T. split; [done|]. unfold key_Paren in Hkey.
  destruct (Kind T), (Data T); try done. by injection Hkey as ->.
Qed.

(** ** Identifiers and the substitution store *)

Lemma getIdentifier_spec Str C :
  Str ≠ EmptyString → wf C →
  ∃ p C', getIdentifier Str C = Ok p C' ∧ p ≠ 0 ∧ wf C' ∧ extends C C' ∧
          IdentifierTable C' !! Str = Some p.
Proof.
  intros HStr Hwf. unfold getIdentifier. rewrite decide_False by done. mstep.
  destruct (IdentifierTable C !! Str) as [q|] eqn:Hk.
  - exists q, C. split_and!; [done| |done|apply extends_refl|done].
    destruct (wf_IdentifierTable _ Hwf _ _ Hk) as [_ Hq].
    by apply deref_allocated in Hq as [_ ?].
  - eexists _, _. split_and!; [done|done| | |by apply lookup_insert_eq].
    + destruct Hwf as [Hid ? ? ? ? ? ? ? ? ? ? ? ? ? ? ? ?]; split; simpl;
        try (by apply table_ok_app).
      intros Str' q. rewrite lookup_insert. case_decide as Hd.
      * intros [= <-]. subst Str'. split; [done|apply deref_new].
      * intros Hq. destruct (Hid _ _ Hq). split; [done|by apply deref_app].
    + solve_extends.
Qed.

Lemma identifier_entry_inj C Str1 Str2 p :
  wf C → IdentifierTable C !! Str1 = Some p → IdentifierTable C !! Str2 = Some p →
  Str1 = Str2.
Proof.
  intros Hwf H1 H2.
  destruct (wf_IdentifierTable _ Hwf _ _ H1) as [_ E1].
  destruct (wf_IdentifierTable _ Hwf _ _ H2) as [_ E2]. congruence.
Qed.

Lemma getIdentifier_hit Str C p :
  Str ≠ EmptyString → IdentifierTable C !! Str = Some p → getIdentifier Str C = Ok p C.
Proof.
  intros HStr Hk. unfold getIdentifier. rewrite decide_False by done. mstep.
  by rewrite Hk.
Qed.

Lemma wf_setSubstitutions C f : wf C → wf (set_BoundGenericSubstitutions f C).
Proof. intros []. by split. Qed.

Lemma ArrayType_get_hit BaseType Size C p :
  Size ≠ 0%N → ArrayTypes C !! (BaseType, Size) = Some p → p ≠ 0 →
  ArrayType_get BaseType Size C = Ok p C.
Proof.
  intros HS Hk Hp. unfold ArrayType_get. mstep.
  apply N.eqb_neq in HS as ->. simpl. rewrite (slot_Some _ _ _ Hk).
  apply Nat.eqb_neq in Hp as ->. done.
Qed.

(** ** The constructor establishes the invariant *)

Section Constructor.

Variable header : list Object → TypeKind → Payload → HeaderBits.

Lemma new_headerNode K D C :
  ∃ T, new (headerNode header K D) C
       = Ok (S (length (Allocator C))) (set_Allocator (λ A, A ++ [TypeObj T]) C).
Proof. unfold new, headerNode. mstep. by eexists. Qed.

Lemma ASTContext_new_wf : ∃ S C, ASTContext_new header = Ok S C ∧ wf C.
Proof.
  unfold ASTContext_new, ASTContext_ctor.
  destruct (getIdentifier_spec "Builtin" Implementation_new ltac:(discriminate)
              wf_Implementation_new) as (Builtin & C1 & H1 & _ & Hwf1 & _).
  erewrite bind_Ok by exact H1.
  erewrite bind_Ok by reflexivity.
  pose proof (wf_Allocate C1 (ModuleObj Builtin) Hwf1) as Hwf2.
  set (C2 := set_Allocator _ C1) in *.
  destruct (new_headerNode Error PNone C2) as [T3 H3].
  erewrite bind_Ok by exact H3.
  pose proof (wf_Allocate C2 (TypeObj T3) Hwf2) as Hwf3.
  set (C3 := set_Allocator _ C2) in *.
  destruct (exec_returns header (GetTuple []) C3) as (p4 & C4 & H4).
  { split; [constructor|done]. }
  destruct (exec_node header (GetTuple []) C3 p4 C4 Hwf3 ltac:(constructor) H4)
    as (Hwf4 & _).
  simpl in H4. erewrite bind_Ok by exact H4.
  repeat
    match goal with
    | Hwf : wf ?C |- ∃ _ _, bind (new (headerNode header ?K ?D)) _ ?C = _ ∧ _ =>
        let T := fresh "T" in
        let H := fresh "H" in
        destruct (new_headerNode K D C) as [T H];
        erewrite bind_Ok by exact H;
        apply (wf_Allocate C (TypeObj T)) in Hwf
    end.
  eexists _, _. split; [reflexivity|assumption].
Qed.

Lemma keeps_getIdentifier Str : keeps_store (getIdentifier Str).
Proof. unfold getIdentifier. keeps. Qed.

(** In a fresh context no substitutions are recorded. *)
Lemma ASTContext_new_store S C :
  ASTContext_new header = Ok S C → BoundGenericSubstitutions C = ∅.
Proof.
  assert (keeps_store (ASTContext_ctor header)) as Hkeeps.
  { unfold ASTContext_ctor.
    apply keeps_bind; [apply keeps_getIdentifier|intros ?].
    apply keeps_bind; [apply keeps_Allocate|intros ?].
    apply keeps_bind; [unfold new, headerNode; keeps|intros ?].
    apply keeps_bind; [apply (keeps_exec header (GetTuple []))|intros ?].
    repeat (apply keeps_bind; [unfold new, headerNode; keeps|intros ?]).
    apply keeps_ret. }
  intros HC. exact (Hkeeps Implementation_new S C HC).
Qed.

End Constructor.

Section Claims.

Variable header : list Object → TypeKind → Payload → HeaderBits.

(** A request that is not excepted from uniquing, once answered, is
    answered with the same node in every later state, and the later
    state is left as it is. *)
Lemma exec_again r C p C1 C2 :
  wf C → Forall (allocated (Allocator C)) (req_ptrs r) → excepted r = false →
  exec header r C = Ok p C1 → extends C1 C2 →
  exec header r C2 = Ok p C2.
Proof.
  intros Hwf Hall Hex Hx Hext.
  destruct (exec_spec header _ _ _ _ Hwf Hall Hex Hx) as (Hwf1 & Hext1 & Hent1).
  apply exec_hit; [done| |by eapply table_entry_extends|].
  - eapply probe_ok_prefix; [|by eapply exec_probe_ok].
    destruct Hext1, Hext. by etrans.
  - destruct (table_entry_data _ _ _ Hwf1 Hent1) as (T & HT & _).
    by apply derefType_allocated in HT as [_ ?].
Qed.

(** The flags of a function type, of a tuple, of a protocol composition
    and of a substituted type, read off [exec_node]. *)
Lemma FunctionType_get_flags Input Result a C p C' :
  wf C → allocated (Allocator C) Input → allocated (Allocator C) Result →
  FunctionType_get Input Result a C = Ok p C' →
  ∃ T, derefType (Allocator C') p = Some T ∧
       Context T = canonical (Allocator C') Input && canonical (Allocator C') Result ∧
       HasTypeVariable T
       = typeVariable (Allocator C') Input || typeVariable (Allocator C') Result.
Proof.
  intros Hwf HI HR Hx.
  destruct (FunctionType_get_spec _ _ _ _ _ _ Hwf Hx) as (Hwf' & _ & Hent).
  destruct (table_entry_data C' (GetFunction Input Result a) p Hwf' Hent)
    as (T & HT & HD & [_ Hc Ht]).
  exists T. simpl in HD. rewrite HD in Hc, Ht. split; [done|].
  rewrite (Hc _ eq_refl), (Ht _ eq_refl). simpl.
  by rewrite andb_true_r, orb_false_r.
Qed.

Lemma TupleType_get_tuple_flags Fields C p C' :
  wf C → Forall (allocated (Allocator C)) (map Ty Fields) →
  isParenthesized Fields = false →
  TupleType_get header Fields C = Ok p C' →
  ∃ T, derefType (Allocator C') p = Some T ∧ Data T = PTuple Fields ∧
       Context T = forallb (canonical (Allocator C')) (map Ty Fields) ∧
       HasTypeVariable T = existsb (typeVariable (Allocator C')) (map Ty Fields).
Proof.
  intros Hwf Hall Hpar Hx.
  destruct (exec_node header (GetTuple Fields) C p C' Hwf Hall Hx)
    as (_ & _ & T & HT & HD & [_ Hc Ht]).
  assert (req_data (GetTuple Fields) = PTuple Fields) as Hdata.
  { destruct Fields as [|Elt [|Elt' Fields]]; try done.
    simpl in Hpar |- *. by rewrite Hpar. }
  rewrite Hdata in HD. exists T. rewrite HD in Hc, Ht.
  by rewrite (Hc _ eq_refl), (Ht _ eq_refl).
Qed.

Lemma ProtocolCompositionType_build_flags Protocols C p C' :
  wf C → Forall (allocated (Allocator C)) Protocols →
  ProtocolCompositionType_build header Protocols C = Ok p C' →
  ∃ T, derefType (Allocator C') p = Some T ∧
       Context T = forallb (canonical (Allocator C')) Protocols.
Proof.
  intros Hwf Hall Hx.
  destruct (exec_node header (BuildProtocolComposition Protocols) C p C' Hwf Hall Hx)
    as (_ & _ & T & HT & HD & [_ Hc _]).
  exists T. rewrite HD in Hc. by rewrite (Hc _ eq_refl).
Qed.

Lemma SubstitutedType_get_flags Original Replacement C p C' :
  wf C → allocated (Allocator C) Original → allocated (Allocator C) Replacement →
  SubstitutedType_get header Original Replacement C = Ok p C' →
  ∃ T, derefType (Allocator C') p = Some T ∧
       HasTypeVariable T = typeVariable (Allocator C') Replacement.
Proof.
  intros Hwf HO HR Hx.
  destruct (exec_node header (GetSubstituted Original Replacement) C p C' Hwf
              ltac:(by repeat constructor) Hx) as (_ & _ & T & HT & HD & [_ _ Ht]).
  exists T. rewrite HD in Ht. rewrite (Ht _ eq_refl). simpl.
  by rewrite orb_false_r.
Qed.

(** C1: on one context, for every uniqued factory, a second call with
    the arguments of an earlier call returns the node of the earlier call
    and changes nothing, and two calls of the same factory return the same
    node only if their arguments are equal.  Tuples with a default-valued
    element are excepted.  The second call may come after any number of
    other calls: [C2] is any later well-formed state. *)
Theorem uniqued_factories_identity r1 r2 C p1 C1 C2 p2 C3 :
  wf C →
  Forall (allocated (Allocator C)) (req_ptrs r1) →
  excepted r1 = false →
  exec header r1 C = Ok p1 C1 →
  wf C2 → extends C1 C2 →
  Forall (allocated (Allocator C2)) (req_ptrs r2) →
  excepted r2 = false →
  same_factory r1 r2 = true →
  exec header r2 C2 = Ok p2 C3 →
  exec header r1 C2 = Ok p1 C2 ∧ (r1 = r2 ↔ p1 = p2).
Proof.
  intros Hwf Hall1 Hd1 Hx1 Hwf2 Hext Hall2 Hd2 Hsame Hx2.
  destruct (exec_spec header _ _ _ _ Hwf Hall1 Hd1 Hx1) as (Hwf1 & Hext1 & Hent1).
  destruct (exec_spec header _ _ _ _ Hwf2 Hall2 Hd2 Hx2) as (Hwf3 & Hext3 & Hent3).
  assert (exec header r1 C2 = Ok p1 C2) as Hagain
    by exact (exec_again r1 C p1 C1 C2 Hwf Hall1 Hd1 Hx1 Hext).
  split; [done|]. split.
  - intros <-. congruence.
  - intros <-. eapply table_entry_inj; [exact Hwf3|done..| |done].
    eapply table_entry_extends; [|exact Hent1].
    eapply extends_trans; [exact Hext|exact Hext3].
Qed.



(** C3: a tuple request with exactly one element, unnamed and not a
    vararg, is the request for the parenthesised type of the element's
    type: the two calls are the same computation, and whichever comes
    first, the other returns the same node later. *)
Theorem tuple_of_one_is_paren Elt :
  hasName Elt = false → isVararg Elt = false →
  (∀ C, TupleType_get header [Elt] C = ParenType_get header (Ty Elt) C) ∧
  (∀ C p C1 C2,
     wf C → ParenType_get header (Ty Elt) C = Ok p C1 → extends C1 C2 →
     TupleType_get header [Elt] C2 = Ok p C2) ∧
  (∀ C p C1 C2,
     wf C → TupleType_get header [Elt] C = Ok p C1 → extends C1 C2 →
     ParenType_get header (Ty Elt) C2 = Ok p C2).
Proof.
  intros Hn Hv.
  assert (∀ C, TupleType_get header [Elt] C = ParenType_get header (Ty Elt) C) as Heq.
  { intros C. unfold TupleType_get. by rewrite Hn, Hv. }
  assert (∀ C p C1 C2,
            wf C → ParenType_get header (Ty Elt) C = Ok p C1 → extends C1 C2 →
            ParenType_get header (Ty Elt) C2 = Ok p C2) as Hagain.
  { intros C p C1 C2 Hwf Hget Hext.
    apply (exec_again (GetParen (Ty Elt)) C p C1 C2); try done.
    constructor; [|done]. unfold ParenType_get in Hget. revert Hget. mstep.
    destruct (derefType (Allocator C) (Ty Elt)) eqn:HT; [|done].
    intros _. by eapply derefType_allocated. }
  split_and!; [done| |].
  - intros C p C1 C2 Hwf Hget Hext. rewrite Heq. by eapply Hagain.
  - intros C p C1 C2 Hwf Hget Hext. rewrite Heq in Hget. by eapply Hagain.
Qed.

(** C10: the single-element collapse comes before the default-value
    check.  A field list of one unnamed, non-vararg element is answered
    with the uniqued parenthesised type of the element's type whatever the
    element's default-value expression is, so a second such request with
    the same element type, and any default value, returns the same node. *)
Theorem collapse_precedes_default_check Elt1 Elt2 C p C1 C2 :
  hasName Elt1 = false → isVararg Elt1 = false →
  hasName Elt2 = false → isVararg Elt2 = false →
  Ty Elt2 = Ty Elt1 →
  wf C → TupleType_get header [Elt1] C = Ok p C1 → extends C1 C2 →
  (∃ T, derefType (Allocator C1) p = Some T ∧ Kind T = Paren ∧
        Data T = PParen (Ty Elt1)) ∧
  ParenTypes C1 !! Ty Elt1 = Some p ∧
  TupleTypes C1 = TupleTypes C ∧
  TupleType_get header [Elt2] C2 = Ok p C2.
Proof.
  intros Hn1 Hv1 Hn2 Hv2 HTy Hwf Hget Hext.
  unfold TupleType_get in *. rewrite Hn1, Hv1 in Hget. rewrite Hn2, Hv2, HTy.
  simpl in *.
  destruct (ParenType_get_spec header _ _ _ _ Hwf Hget) as (Hwf1 & Hext1 & Hent).
  split_and!; [by apply paren_entry|done| |].
  - revert Hget. unfold ParenType_get. mstep.
    destruct (derefType (Allocator C) (Ty Elt1)); [|done].
    destruct (slot (ParenTypes C) (Ty Elt1) =? 0); by intros [= <- <-].
  - apply (exec_again (GetParen (Ty Elt1)) C p C1 C2); try done.
    constructor; [|done]. revert Hget. unfold ParenType_get. mstep.
    destruct (derefType (Allocator C) (Ty Elt1)) eqn:HT; [|done].
    intros _. by eapply derefType_allocated.
Qed.

(** C4, amended: for every field list with a default-valued element
    that is not a single unnamed non-vararg element, the call places a new
    tuple node at the end of the arena and leaves every table as it was;
    a second call with the same field list returns, and returns another
    node. *)
Theorem default_tuple_not_uniqued Fields C p C' :
  existsb hasInit Fields = true → isParenthesized Fields = false →
  TupleType_get header Fields C = Ok p C' →
  (∃ T, C' = set_Allocator (λ A, A ++ [TypeObj T]) C ∧
        Kind T = Tuple ∧ Data T = PTuple Fields) ∧
  TupleTypes C' = TupleTypes C ∧
  deref (Allocator C) p = None ∧
  ∀ C2, extends C' C2 →
    ∃ p2 C3, TupleType_get header Fields C2 = Ok p2 C3 ∧ p2 ≠ p ∧
             TupleTypes C3 = TupleTypes C2.
Proof.
  intros Hdef Hpar Hx.
  assert (∀ C0, TupleType_get header Fields C0 = TupleType_get_tuple header Fields C0)
    as Heq.
  { intros C0. destruct Fields as [|Elt [|Elt' Fields]]; try done.
    simpl in Hpar. unfold TupleType_get. by rewrite Hpar. }
  rewrite Heq in Hx.
  destruct (TupleType_get_tuple_default header _ _ _ _ Hdef Hx)
    as (T & -> & -> & HK & HD & _).
  split_and!; [by exists T|done|apply deref_fresh|].
  intros C2 Hext. rewrite Heq.
  destruct (TupleType_get_tuple_default_again header _ _ _ _ C2 Hdef Hx)
    as (p2 & C3 & Hx2).
  { etrans; [|apply (ext_Allocator _ _ Hext)]. simpl. by apply prefix_app_r. }
  exists p2, C3. split; [done|].
  destruct (TupleType_get_tuple_default header _ _ _ _ Hdef Hx2)
    as (T2 & -> & -> & _).
  split; [|done].
  apply ext_Allocator in Hext. simpl in Hext. apply prefix_length in Hext.
  rewrite length_app in Hext. simpl in Hext. lia.
Qed.

(** C5: the substitution store.  With a non-canonical key both
    [getSubstitutions] and [setSubstitutions] trip their assertion.  With
    a canonical key that has no entry, [getSubstitutions] returns absent
    and [setSubstitutions] returns; in every later state
    [getSubstitutions] returns exactly the substitutions that were set and
    a second [setSubstitutions] trips the assertion. *)
Theorem substitution_store Bound B C :
  derefType (Allocator C) Bound = Some B →
  (Context B = false →
     getSubstitutions Bound C
       = AssertFailed "Requesting non-canonical substitutions" ∧
     ∀ Subs, setSubstitutions Bound Subs C
       = AssertFailed "Requesting non-canonical substitutions") ∧
  (Context B = true → BoundGenericSubstitutions C !! Bound = None →
     getSubstitutions Bound C = Ok None C ∧
     ∀ Subs, ∃ C',
       setSubstitutions Bound Subs C = Ok tt C' ∧ extends C C' ∧ (wf C → wf C') ∧
       ∀ C2, extends C' C2 →
         getSubstitutions Bound C2 = Ok (Some Subs) C2 ∧
         ∀ Subs', setSubstitutions Bound Subs' C2
           = AssertFailed "Already have substitutions?").
Proof.
  intros HB. split.
  - intros Hc. unfold getSubstitutions, setSubstitutions, isCanonical. mstep.
    by rewrite HB, Hc.
  - intros Hc Hnone. split.
    { unfold getSubstitutions, isCanonical. mstep. by rewrite HB, Hc, Hnone. }
    intros Subs. eexists. split_and!.
    + unfold setSubstitutions, isCanonical. mstep. rewrite HB, Hc, Hnone. simpl.
      reflexivity.
    + solve_extends.
    + apply wf_setSubstitutions.
    + intros C2 [Hpre _ _ _ _ _ _ _ _ _ _ _ _ _ _ _ _ _ Hsub]. simpl in *.
      assert (derefType (Allocator C2) Bound = Some B) as HB2
        by (by eapply derefType_prefix).
      assert (BoundGenericSubstitutions C2 !! Bound = Some Subs) as Hk.
      { eapply lookup_weaken; [|exact Hsub]. apply lookup_insert_eq. }
      unfold getSubstitutions, setSubstitutions, isCanonical. mstep.
      by rewrite HB2, Hc, Hk.
Qed.

(** C7: [getIdentifier] on the empty string returns the null identifier
    and leaves the state as it is, whatever the table holds; on a
    non-empty string it returns a non-null handle; and two calls on
    non-empty strings return equal handles exactly when the strings are
    equal. *)
Theorem identifier_interning :
  (∀ C, getIdentifier EmptyString C = Ok 0 C) ∧
  (∀ Str C, Str ≠ EmptyString → wf C →
     ∃ p C', getIdentifier Str C = Ok p C' ∧ p ≠ 0 ∧ wf C' ∧ extends C C') ∧
  (∀ Str1 Str2 C p1 C1 C2 p2 C3,
     Str1 ≠ EmptyString → Str2 ≠ EmptyString →
     wf C → getIdentifier Str1 C = Ok p1 C1 →
     wf C2 → extends C1 C2 → getIdentifier Str2 C2 = Ok p2 C3 →
     getIdentifier Str1 C2 = Ok p1 C2 ∧ (Str1 = Str2 ↔ p1 = p2)).
Proof.
  split_and!.
  - done.
  - intros Str C HStr Hwf.
    destruct (getIdentifier_spec Str C HStr Hwf) as (p & C' & ? & ? & ? & ? & ?).
    by exists p, C'.
  - intros Str1 Str2 C p1 C1 C2 p2 C3 H1 H2 Hwf Hx1 Hwf2 Hext Hx2.
    destruct (getIdentifier_spec Str1 C H1 Hwf) as (q1 & D1 & Hy1 & _ & _ & _ & Hk1).
    rewrite Hx1 in Hy1. injection Hy1 as <- <-.
    destruct (getIdentifier_spec Str2 C2 H2 Hwf2) as (q2 & D2 & Hy2 & _ & Hwf3 & Hext3 & Hk2).
    rewrite Hx2 in Hy2. injection Hy2 as <- <-.
    assert (IdentifierTable C2 !! Str1 = Some p1) as Hk12
      by (eapply lookup_weaken; [exact Hk1|apply (ext_IdentifierTable _ _ Hext)]).
    assert (getIdentifier Str1 C2 = Ok p1 C2) as Hagain
      by (by apply getIdentifier_hit).
    split; [done|]. split.
    + intros <-. congruence.
    + intros <-. eapply identifier_entry_inj; [exact Hwf3| |exact Hk2].
      eapply lookup_weaken; [exact Hk12|apply (ext_IdentifierTable _ _ Hext3)].
Qed.

(** C8: [PolymorphicFunctionType::get] trips its assertion when the
    input or the result has a type variable; otherwise it places a new
    node at the end of the arena, at an address where no object was, and
    a later call with the same arguments returns yet another node. *)
Theorem polymorphic_function_always_fresh input output params C In Out :
  derefType (Allocator C) input = Some In →
  derefType (Allocator C) output = Some Out →
  (HasTypeVariable In || HasTypeVariable Out = true →
     PolymorphicFunctionType_get input output params C
       = AssertFailed "!input->hasTypeVariable() && !output->hasTypeVariable()") ∧
  (HasTypeVariable In || HasTypeVariable Out = false →
     ∃ T,
       PolymorphicFunctionType_get input output params C
         = Ok (S (length (Allocator C))) (set_Allocator (λ A, A ++ [TypeObj T]) C) ∧
       Kind T = PolymorphicFunction ∧
       Data T = PPolymorphicFunction input output params ∧
       deref (Allocator C) (S (length (Allocator C))) = None ∧
       ∀ C2, extends (set_Allocator (λ A, A ++ [TypeObj T]) C) C2 →
         ∃ T2,
           PolymorphicFunctionType_get input output params C2
             = Ok (S (length (Allocator C2)))
                  (set_Allocator (λ A, A ++ [TypeObj T2]) C2) ∧
           S (length (Allocator C2)) ≠ S (length (Allocator C))).
Proof.
  intros HI HO.
  assert (∀ C0, derefType (Allocator C0) input = Some In →
                derefType (Allocator C0) output = Some Out →
                HasTypeVariable In || HasTypeVariable Out = false →
                ∃ T, PolymorphicFunctionType_get input output params C0
                     = Ok (S (length (Allocator C0)))
                          (set_Allocator (λ A, A ++ [TypeObj T]) C0) ∧
                     Kind T = PolymorphicFunction ∧
                     Data T = PPolymorphicFunction input output params) as Hok.
  { intros C0 HI0 HO0 [HtI HtO]%orb_false_iff.
    unfold PolymorphicFunctionType_get, PolymorphicFunctionType_ctor, hasTypeVariable.
    mstep. rewrite HI0, HO0, HtI, HtO. simpl. eexists. split_and!; reflexivity. }
  split.
  - intros Htv.
    unfold PolymorphicFunctionType_get, PolymorphicFunctionType_ctor, hasTypeVariable.
    mstep. rewrite HI, HO. simpl.
    destruct (HasTypeVariable In), (HasTypeVariable Out); done.
  - intros Htv. destruct (Hok C HI HO Htv) as (T & Hget & HK & HD).
    exists T. split_and!; [done..|apply deref_fresh|].
    intros C2 Hext. apply ext_Allocator in Hext. simpl in Hext.
    destruct (Hok C2) as (T2 & Hget2 & _); [| |done|].
    + eapply derefType_prefix; [exact Hext|]. by apply derefType_app.
    + eapply derefType_prefix; [exact Hext|]. by apply derefType_app.
    + exists T2. split; [done|].
      apply prefix_length in Hext. rewrite length_app in Hext. simpl in Hext. lia.
Qed.

(** C9: [ArrayType::get] with size 0 trips its assertion.  With a
    non-zero size no assertion is tripped, and on a base type that is a
    node of the context the call returns the node kept under the pair of
    base type and size: later calls with that pair return it again, and
    a call with another pair returns another node. *)
Theorem array_size_precondition BaseType :
  (∀ C, ArrayType_get BaseType 0 C = AssertFailed "Size != 0") ∧
  (∀ Size C msg, Size ≠ 0%N → ArrayType_get BaseType Size C ≠ AssertFailed msg) ∧
  (∀ Size C B, Size ≠ 0%N → wf C → derefType (Allocator C) BaseType = Some B →
     ∃ p C',
       ArrayType_get BaseType Size C = Ok p C' ∧ wf C' ∧ extends C C' ∧
       ArrayTypes C' !! (BaseType, Size) = Some p ∧
       (∃ T, derefType (Allocator C') p = Some T ∧ Kind T = Array ∧
             Data T = PArray BaseType Size) ∧
       ∀ C2, extends C' C2 →
         ArrayType_get BaseType Size C2 = Ok p C2 ∧
         ∀ BaseType' Size' p' C3,
           wf C2 → ArrayType_get BaseType' Size' C2 = Ok p' C3 →
           ((BaseType', Size') = (BaseType, Size) ↔ p' = p)).
Proof.
  split_and!.
  - done.
  - intros Size C msg HS. unfold ArrayType_get, ArrayType_ctor. mstep.
    apply N.eqb_neq in HS as ->. simpl.
    destruct (negb (slot (ArrayTypes C) (BaseType, Size) =? 0)); [done|].
    simpl. destruct (derefType (Allocator C) BaseType) eqn:HB; mstep;
      rewrite ?HB; mstep; done.
  - intros Size C B HS Hwf HB.
    assert (∃ p C', ArrayType_get BaseType Size C = Ok p C') as (p & C' & Hget).
    { unfold ArrayType_get, ArrayType_ctor. mstep.
      apply N.eqb_neq in HS as ->. simpl.
      destruct (negb (slot (ArrayTypes C) (BaseType, Size) =? 0)); [by eauto|].
      simpl. rewrite HB. mstep. rewrite HB. mstep. by eauto. }
    exists p, C'.
    destruct (ArrayType_get_spec _ _ _ _ _ Hwf Hget) as (Hwf' & Hext & Hent).
    split_and!; [done..| |].
    + destruct (wf_ArrayTypes _ Hwf' _ _ Hent) as (T & HT & Hkey & _).
      exists T. split; [done|]. unfold key_Array in Hkey.
      destruct (Kind T), (Data T); try done. by injection Hkey as -> ->.
    + intros C2 Hext2.
      split.
      { apply ArrayType_get_hit; [done| |].
        - eapply lookup_weaken; [exact Hent|apply (ext_ArrayTypes _ _ Hext2)].
        - eapply table_ok_nonnull; [apply (wf_ArrayTypes _ Hwf')|exact Hent]. }
      intros BaseType' Size' p' C3 Hwf2 Hget'.
      destruct (ArrayType_get_spec _ _ _ _ _ Hwf2 Hget') as (Hwf3 & Hext3 & Hent3).
      assert (ArrayTypes C3 !! (BaseType, Size) = Some p) as Hent13.
      { eapply lookup_weaken; [exact Hent|].
        etrans; [apply (ext_ArrayTypes _ _ Hext2)|apply (ext_ArrayTypes _ _ Hext3)]. }
      split.
      * intros Heq. rewrite Heq in Hent3. congruence.
      * intros ->. eapply table_ok_inj; [apply (wf_ArrayTypes _ Hwf3)|done..].
Qed.

End Claims.

(** ** Find or build *)

Lemma anyUnresolved_spec Args C u C' :
  anyUnresolved Args C = Ok u C' →
  C' = C ∧ u = existsb (unresolved (Allocator C)) Args.
Proof.
  induction Args as [|a Args IH]; simpl.
  - unfold ret. by intros [= <- <-].
  - unfold bind, typeBase, ret, unresolved, isUnresolvedType.
    destruct (derefType (Allocator C) a) as [T|]; [|done].
    destruct (Unresolved T); [by intros [= <- <-]|apply IH].
Qed.

Lemma BoundGenericType_ctor_spec K D P Args ctx tv C T C' :
  BoundGenericType_ctor K D P Args ctx tv C = Ok T C' →
  C' = C ∧
  T = mkType K ctx
        (unresolved (Allocator C) P || existsb (unresolved (Allocator C)) Args)
        tv (PBoundGeneric D P Args).
Proof.
  unfold BoundGenericType_ctor, bind, ret, typeBase, unresolved, isUnresolvedType.
  destruct (Nat.eqb_spec P 0) as [->|Hz].
  - simpl. destruct (anyUnresolved Args C) as [u C1| |] eqn:Hu; [|done..].
    apply anyUnresolved_spec in Hu as [-> ->]. by intros [= <- <-].
  - destruct (derefType (Allocator C) P) as [PT|]; [|done].
    destruct (Unresolved PT).
    + by intros [= <- <-].
    + destruct (anyUnresolved Args C) as [u C1| |] eqn:Hu; [|done..].
      apply anyUnresolved_spec in Hu as [-> ->]. by intros [= <- <-].
Qed.

Ltac found := left; split; [reflexivity|first [by apply slot_nonnull|assumption]].

Ltac built_node :=
  split; simpl; unfold unresolved, isUnresolvedType;
  [ intros ? [= <-]; simpl;
    repeat match goal with H : derefType _ _ = Some _ |- _ => rewrite H end;
    by rewrite ?orb_false_r
  | intros ? ? ? [= <- <- <-] ]; try done.

Ltac built_new Hnull :=
  right; eexists; split_and!;
  [ reflexivity | reflexivity | reflexivity
  | simpl; rewrite ?elem_of_cons; auto
  | try built_node
  | intros _; simpl; first [exact Hnull | eapply slot_null; [eauto using wf_IntegerTypes, wf_ParenTypes, wf_MetaTypeTypes, wf_ModuleTypes, wf_FunctionTypes, wf_ArrayTypes, wf_ArraySliceTypes, wf_SubstitutedTypes|exact Hnull]] ].

Section FindOrBuild.

Variable header : list Object → TypeKind → Payload → HeaderBits.

Lemma BuiltinIntegerType_get_found_or_built BitWidth C p C' :
  wf C → BuiltinIntegerType_get header BitWidth C = Ok p C' →
  found_or_built (GetInteger BitWidth) C p C'.
Proof.
  intros Hwf. unfold BuiltinIntegerType_get, headerNode. mstep.
  destruct (Nat.eqb_spec (slot (IntegerTypes C) BitWidth) 0) as [Hs|Hs];
    intros [= <- <-]; [built_new Hs|found].
Qed.

Lemma ParenType_get_found_or_built underlying C p C' :
  wf C → ParenType_get header underlying C = Ok p C' →
  found_or_built (GetParen underlying) C p C'.
Proof.
  intros Hwf. unfold ParenType_get, ParenType_ctor. mstep.
  destruct (derefType (Allocator C) underlying) as [U|] eqn:HU; [|done].
  destruct (Nat.eqb_spec (slot (ParenTypes C) underlying) 0) as [Hs|Hs];
    intros [= <- <-]; [built_new Hs|found].
Qed.

Lemma UnboundGenericType_get_found_or_built D Parent C p C' :
  wf C → UnboundGenericType_get header D Parent C = Ok p C' →
  found_or_built (GetUnboundGeneric D Parent) C p C'.
Proof.
  intros Hwf. unfold UnboundGenericType_get, bind, gets, ret.
  destruct (UnboundGenericTypes C !! UnboundGenericType_Profile [] D Parent) as [q|] eqn:Hlk.
  { intros [= <- <-]. found. }
  destruct (parentHasTypeVariable Parent C) as [tv C1| |] eqn:Htv; [|done..].
  apply parentHasTypeVariable_Ok in Htv as (-> & -> & HP).
  unfold UnboundGenericType_ctor. mstep. intros [= <- <-]. built_new Hlk.
Qed.

Lemma OneOfType_get_found_or_built D Parent C p C' :
  wf C → OneOfType_get header D Parent C = Ok p C' →
  found_or_built (GetOneOf D Parent) C p C'.
Proof.
  intros Hwf. unfold OneOfType_get, bind, gets, ret.
  destruct (OneOfTypes C !! OneOfType_Profile [] D Parent) as [q|] eqn:Hlk.
  { intros [= <- <-]. found. }
  destruct (parentHasTypeVariable Parent C) as [tv C1| |] eqn:Htv; [|done..].
  apply parentHasTypeVariable_Ok in Htv as (-> & -> & HP).
  unfold OneOfType_ctor, NominalType_ctor. mstep. intros [= <- <-]. built_new Hlk.
Qed.

Lemma StructType_get_found_or_built D Parent C p C' :
  wf C → StructType_get header D Parent C = Ok p C' →
  found_or_built (GetStruct D Parent) C p C'.
Proof.
  intros Hwf. unfold StructType_get, bind, gets, ret.
  destruct (StructTypes C !! StructType_Profile [] D Parent) as [q|] eqn:Hlk.
  { intros [= <- <-]. found. }
  destruct (parentHasTypeVariable Parent C) as [tv C1| |] eqn:Htv; [|done..].
  apply parentHasTypeVariable_Ok in Htv as (-> & -> & HP).
  unfold StructType_ctor, NominalType_ctor. mstep. intros [= <- <-]. built_new Hlk.
Qed.

Lemma ClassType_get_found_or_built D Parent C p C' :
  wf C → ClassType_get header D Parent C = Ok p C' →
  found_or_built (GetClass D Parent) C p C'.
Proof.
  intros Hwf. unfold ClassType_get, bind, gets, ret.
  destruct (ClassTypes C !! ClassType_Profile [] D Parent) as [q|] eqn:Hlk.
  { intros [= <- <-]. found. }
  destruct (parentHasTypeVariable Parent C) as [tv C1| |] eqn:Htv; [|done..].
  apply parentHasTypeVariable_Ok in Htv as (-> & -> & HP).
  unfold ClassType_ctor, NominalType_ctor. mstep. intros [= <- <-]. built_new Hlk.
Qed.

Lemma TupleType_get_tuple_found_or_built Fields C p C' :
  wf C → isParenthesized Fields = false →
  TupleType_get_tuple header Fields C = Ok p C' →
  found_or_built (GetTuple Fields) C p C'.
Proof.
  intros Hwf Hpar.
  assert (table_entry C (GetTuple Fields) = TupleTypes C !! TupleType_Profile [] Fields)
    as Hent.
  { destruct Fields as [|Elt [|Elt' Fields]]; try done.
    simpl in Hpar |- *. by rewrite Hpar. }
  assert (req_data (GetTuple Fields) = PTuple Fields) as Hdata.
  { destruct Fields as [|Elt [|Elt' Fields]]; try done.
    simpl in Hpar |- *. by rewrite Hpar. }
  assert (∀ q C0, record_entry (GetTuple Fields) q C0
                  = if existsb hasInit Fields then C0
                    else set_TupleTypes <[TupleType_Profile [] Fields := q]> C0)
    as Hrec.
  { intros q C0. destruct Fields as [|Elt [|Elt' Fields]]; try done.
    simpl in Hpar |- *. by rewrite Hpar. }
  assert (req_kinds (GetTuple Fields) = [Tuple]) as Hkinds.
  { simpl. by rewrite Hpar. }
  set (Q := found_or_built (GetTuple Fields) C).
  unfold TupleType_get_tuple, bind.
  destruct (TupleType_get_flags Fields false false C) as [[d t] C1| |] eqn:Hfl; [|done..].
  apply TupleType_get_flags_spec in Hfl as [-> [= -> ->]]. simpl.
  destruct (existsb hasInit Fields) eqn:Hdef; simpl; unfold gets, ret.
  - destruct (TupleType_get_canonical Fields C) as [c C1| |] eqn:Hc; [|done..].
    apply TupleType_get_canonical_spec in Hc as [-> ->].
    unfold TupleType_ctor. mstep. intros [= <- <-].
    subst Q. unfold found_or_built. right. eexists.
    rewrite Hrec, ?Hdef, Hdata, Hkinds, Hent.
    split_and!; try reflexivity;
      first [by left|by built_node|by (simpl; rewrite Hdef)|done].
  - destruct (TupleTypes C !! TupleType_Profile [] Fields) as [TT|] eqn:Hlk.
    { intros [= <- <-]. subst Q. left. by rewrite Hent. }
    destruct (TupleType_get_canonical Fields C) as [c C1| |] eqn:Hc; [|done..].
    apply TupleType_get_canonical_spec in Hc as [-> ->].
    unfold TupleType_ctor. mstep. intros [= <- <-].
    subst Q. unfold found_or_built. right. eexists.
    rewrite Hrec, ?Hdef, Hdata, Hkinds, Hent.
    split_and!; try reflexivity;
      first [by left|by built_node|by (simpl; rewrite Hdef)|done].
Qed.

Lemma TupleType_get_found_or_built Fields C p C' :
  wf C → TupleType_get header Fields C = Ok p C' →
  found_or_built (GetTuple Fields) C p C'.
Proof.
  intros Hwf.
  destruct (isParenthesized Fields) eqn:Hpar.
  - destruct Fields as [|Elt [|Elt' Fields]]; try done.
    simpl in Hpar. unfold TupleType_get. rewrite Hpar. intros Hx.
    destruct (ParenType_get_found_or_built _ _ _ _ Hwf Hx)
      as [[-> Hent]|(T & -> & -> & HD & HK & Hb & Hnone)].
    + left. split; [done|]. simpl. by rewrite Hpar.
    + right. exists T. simpl. rewrite Hpar. split_and!; try done.
      intros _. by apply Hnone.
  - intros Hx. apply TupleType_get_tuple_found_or_built; [done..|].
    destruct Fields as [|Elt [|Elt' Fields]]; try done.
    simpl in Hpar. unfold TupleType_get in Hx. by rewrite Hpar in Hx.
Qed.

Lemma ProtocolCompositionType_build_found_or_built Ps C p C' :
  wf C → ProtocolCompositionType_build header Ps C = Ok p C' →
  found_or_built (BuildProtocolComposition Ps) C p C'.
Proof.
  intros Hwf. unfold ProtocolCompositionType_build, bind, gets, ret.
  destruct (ProtocolCompositionTypes C !! ProtocolCompositionType_Profile [] Ps)
    as [q|] eqn:Hlk.
  { intros [= <- <-]. found. }
  destruct (ProtocolCompositionType_build_canonical Ps true C) as [c C1| |] eqn:Hc;
    [|done..].
  apply ProtocolCompositionType_build_canonical_spec in Hc as (-> & -> & Hall).
  unfold ProtocolCompositionType_ctor. mstep. intros [= <- <-]. built_new Hlk.
Qed.

Lemma MetaTypeType_get_found_or_built T C p C' :
  wf C → MetaTypeType_get T C = Ok p C' → found_or_built (GetMetaType T) C p C'.
Proof.
  intros Hwf. unfold MetaTypeType_get, MetaTypeType_ctor. mstep.
  destruct (Nat.eqb_spec (slot (MetaTypeTypes C) T) 0) as [Hs|Hs]; simpl.
  - destruct (derefType (Allocator C) T) as [In|] eqn:HI; [|done].
    mstep. rewrite ?HI. mstep. intros [= <- <-]. built_new Hs.
  - intros [= <- <-]. found.
Qed.

Lemma ModuleType_get_found_or_built Mod C p C' :
  wf C → ModuleType_get header Mod C = Ok p C' → found_or_built (GetModule Mod) C p C'.
Proof.
  intros Hwf. unfold ModuleType_get, headerNode. mstep.
  destruct (deref (Allocator C) Mod) as [[]|]; try done.
  destruct (Nat.eqb_spec (slot (ModuleTypes C) Mod) 0) as [Hs|Hs]; simpl;
    intros [= <- <-]; [built_new Hs|found].
Qed.

Lemma FunctionType_get_found_or_built Input Result a C p C' :
  wf C → FunctionType_get Input Result a C = Ok p C' →
  found_or_built (GetFunction Input Result a) C p C'.
Proof.
  intros Hwf. unfold FunctionType_get, FunctionType_ctor. mstep.
  destruct (Nat.eqb_spec (slot (FunctionTypes C) (Input, (Result, char_of_bool a))) 0)
    as [Hs|Hs]; simpl.
  - destruct (derefType (Allocator C) Input) as [In|] eqn:HI; [|done].
    destruct (derefType (Allocator C) Result) as [Out|] eqn:HR; [|done].
    mstep. rewrite ?HI, ?HR. mstep. intros [= <- <-]. built_new Hs.
  - intros [= <- <-]. found.
Qed.

Lemma ArrayType_get_found_or_built BaseType Size C p C' :
  wf C → ArrayType_get BaseType Size C = Ok p C' →
  found_or_built (GetArray BaseType Size) C p C'.
Proof.
  intros Hwf. unfold ArrayType_get, ArrayType_ctor. mstep.
  destruct (Size =? 0)%N; [done|]. simpl.
  destruct (Nat.eqb_spec (slot (ArrayTypes C) (BaseType, Size)) 0) as [Hs|Hs]; simpl.
  - destruct (derefType (Allocator C) BaseType) as [B|] eqn:HB; [|done].
    mstep. rewrite ?HB. mstep. intros [= <- <-]. built_new Hs.
  - intros [= <- <-]. found.
Qed.

Lemma ArraySliceType_get_found_or_built base C p C' :
  wf C → ArraySliceType_get header base C = Ok p C' →
  found_or_built (GetArraySlice base) C p C'.
Proof.
  intros Hwf. unfold ArraySliceType_get, ArraySliceType_ctor. mstep.
  destruct (Nat.eqb_spec (slot (ArraySliceTypes C) base) 0) as [Hs|Hs]; simpl.
  - destruct (derefType (Allocator C) base) as [B|] eqn:HB; [|done].
    mstep. intros [= <- <-]. built_new Hs.
  - intros [= <- <-]. found.
Qed.

Lemma LValueType_get_found_or_built objectTy quals C p C' :
  wf C → LValueType_get header objectTy quals C = Ok p C' →
  found_or_built (GetLValue objectTy quals) C p C'.
Proof.
  intros Hwf. unfold LValueType_get, bind, gets, ret.
  destruct (LValueTypes C !! (objectTy, quals)) as [q|] eqn:Hlk.
  { intros [= <- <-]. found. }
  unfold LValueType_ctor. mstep.
  destruct (derefType (Allocator C) objectTy) as [B|] eqn:HB; [|done].
  intros [= <- <-]. built_new Hlk.
Qed.

Lemma SubstitutedType_get_found_or_built Original Replacement C p C' :
  wf C → SubstitutedType_get header Original Replacement C = Ok p C' →
  found_or_built (GetSubstituted Original Replacement) C p C'.
Proof.
  intros Hwf. unfold SubstitutedType_get, SubstitutedType_ctor. mstep.
  destruct (Nat.eqb_spec (slot (SubstitutedTypes C) (Original, Replacement)) 0)
    as [Hs|Hs]; simpl.
  - destruct (derefType (Allocator C) Replacement) as [R|] eqn:HR; [|done].
    intros [= <- <-]. built_new Hs.
  - intros [= <- <-]. found.
Qed.

Lemma PolymorphicFunctionType_get_found_or_built input output params C p C' :
  PolymorphicFunctionType_get input output params C = Ok p C' →
  found_or_built (GetPolymorphicFunction input output params) C p C'.
Proof.
  intros Hx.
  destruct (PolymorphicFunctionType_get_Ok _ _ _ _ _ _ Hx)
    as (In & Out & T & HI & HO & HtI & HtO & -> & -> & ->).
  right. eexists. split_and!; try reflexivity; first [by left|by built_node|done].
Qed.

Lemma BoundGenericType_get_found_or_built D Parent Args C p C' :
  wf C → BoundGenericType_get D Parent Args C = Ok p C' →
  found_or_built (GetBoundGeneric D Parent Args) C p C'.
Proof.
  intros Hwf. set (Q := found_or_built (GetBoundGeneric D Parent Args) C).
  unfold BoundGenericType_get, bind, gets, ret, declKind.
  destruct (derefDecl (Allocator C) D) as [DK|] eqn:HDK; [|done].
  destruct (BoundGenericTypes C !! BoundGenericType_Profile [] D Parent Args)
    as [q|] eqn:Hlk.
  { intros [= <- <-]. subst Q. by left. }
  destruct (parentHasTypeVariable Parent C) as [tv C1| |] eqn:Htv; [|done..].
  apply parentHasTypeVariable_Ok in Htv as (-> & -> & HP).
  match goal with
  | |- match ?can with _ => _ end = _ → _ =>
      destruct can as [c0 C1| |] eqn:Hcan; [|done..];
      assert (C1 = C) as ->
  end.
  { revert Hcan. unfold typeBase. destruct (Parent =? 0); [by intros [= _ <-]|].
    destruct (derefType (Allocator C) Parent); [by intros [= _ <-]|done]. }
  match goal with
  | |- match ?fl with _ => _ end = _ → _ =>
      destruct fl as [[c t] C1| |] eqn:Hfl; [|done..];
      assert (C1 = C) as ->
  end.
  { revert Hfl. destruct (c0 || negb _).
    - by intros [-> _]%BoundGenericType_get_flags_spec.
    - by intros [= _ _ <-]. }
  assert (∀ K T C1,
    new (BoundGenericType_ctor K D Parent Args c t) C = Ok T C1 →
    boundGenericKind DK = Some K →
    Q T (set_BoundGenericTypes <[BoundGenericType_Profile [] D Parent Args := T]> C1))
    as Hnew.
  { intros K T C1. unfold new, bind, Allocate.
    destruct (BoundGenericType_ctor _ _ _ _ _ _ C) as [N C2| |] eqn:HN; [|done..].
    apply BoundGenericType_ctor_spec in HN as [-> ->].
    intros [= <- <-] HK. subst Q. right. eexists. split_and!; try reflexivity.
    - simpl. rewrite !elem_of_cons. destruct DK; simplify_eq/=; auto.
    - split; simpl.
      + by intros ? [= <-].
      + intros ? ? ? [= <- <- <-]. by exists DK.
    - done. }
  unfold modify.
  destruct DK; simpl;
    try (unfold assert; simpl);
    match goal with
    | |- match new ?c C with _ => _ end = _ → _ =>
        destruct (new c C) as [T C1| |] eqn:HT; [|done..];
        intros [= <- <-]; eapply Hnew; [exact HT|reflexivity]
    | |- _ => done
    end.
Qed.

(** Every factory finds or builds. *)
Lemma exec_found_or_built r C p C' :
  wf C → exec header r C = Ok p C' → found_or_built r C p C'.
Proof.
  intros Hwf. destruct r; simpl.
  - by apply BuiltinIntegerType_get_found_or_built.
  - by apply ParenType_get_found_or_built.
  - by apply TupleType_get_found_or_built.
  - by apply UnboundGenericType_get_found_or_built.
  - by apply BoundGenericType_get_found_or_built.
  - by apply OneOfType_get_found_or_built.
  - by apply StructType_get_found_or_built.
  - by apply ClassType_get_found_or_built.
  - by apply ProtocolCompositionType_build_found_or_built.
  - by apply MetaTypeType_get_found_or_built.
  - by apply ModuleType_get_found_or_built.
  - by apply FunctionType_get_found_or_built.
  - by apply ArrayType_get_found_or_built.
  - by apply ArraySliceType_get_found_or_built.
  - by apply LValueType_get_found_or_built.
  - by apply SubstitutedType_get_found_or_built.
  - by apply PolymorphicFunctionType_get_found_or_built.
Qed.

End FindOrBuild.

(** ** What a recorded entry changes *)

Lemma record_entry_Allocator r p C : Allocator (record_entry r p C) = Allocator C.
Proof. destruct r; simpl; repeat case_match; reflexivity. Qed.

Lemma record_entry_IdentifierTable r p C :
  IdentifierTable (record_entry r p C) = IdentifierTable C.
Proof. destruct r; simpl; repeat case_match; reflexivity. Qed.

Lemma record_entry_BoundGenericSubstitutions r p C :
  BoundGenericSubstitutions (record_entry r p C) = BoundGenericSubstitutions C.
Proof. destruct r; simpl; repeat case_match; reflexivity. Qed.

Lemma table_entry_set_Allocator f C r :
  table_entry (set_Allocator f C) r = table_entry C r.
Proof. destruct r; simpl; repeat case_match; reflexivity. Qed.

(** ** The second invariant is kept *)

Lemma unresolved_app A B p : allocated A p → unresolved (A ++ B) p = unresolved A p.
Proof. intros H. unfold unresolved. by rewrite derefType_app_allocated. Qed.

Lemma existsb_unresolved_app A B ps :
  Forall (allocated A) ps →
  existsb (unresolved (A ++ B)) ps = existsb (unresolved A) ps.
Proof.
  induction 1 as [|p ps Hp _ IH]; [done|]. simpl.
  by rewrite unresolved_app, IH.
Qed.

Lemma existsb_unresolved_iff A ps :
  existsb (unresolved A) ps = true ↔
  ∃ q Q, q ∈ ps ∧ derefType A q = Some Q ∧ Unresolved Q = true.
Proof.
  rewrite existsb_exists. split.
  - intros (q & Hq & Hu). apply list_elem_of_In in Hq.
    unfold unresolved in Hu. destruct (derefType A q) as [Q|] eqn:HQ; [|done].
    eauto.
  - intros (q & Q & Hq & HQ & Hu). exists q. apply list_elem_of_In in Hq.
    split; [done|]. unfold unresolved. by rewrite HQ.
Qed.

Lemma unresolvedChildren_typePtrs D ps :
  unresolvedChildren D = Some ps → ps ⊆ typePtrs D.
Proof. destruct D; simpl; intros [= <-]; done. Qed.

Lemma typePtrs_req_data r : typePtrs (req_data r) = req_ptrs r.
Proof. destruct r; simpl; try done. by repeat case_match. Qed.

Lemma derefDecl_app A B p K : derefDecl A p = Some K → derefDecl (A ++ B) p = Some K.
Proof.
  unfold derefDecl. destruct (deref A p) as [o|] eqn:Ho; [|done].
  by rewrite (deref_app _ B _ _ Ho).
Qed.

Lemma node_built_app A B T :
  Forall (allocated A) (typePtrs (Data T)) → node_built A T → node_built (A ++ B) T.
Proof.
  intros Hall [Hu Hk]. split.
  - intros ps Hps. rewrite existsb_unresolved_app; [by apply Hu|].
    eapply Forall_subseteq; [|exact Hall]. by apply unresolvedChildren_typePtrs.
  - intros D P Args HD. destruct (Hk D P Args HD) as (DK & HDK & HK).
    exists DK. split; [by apply derefDecl_app|done].
Qed.

Lemma table_built_app {K} `{Countable K} A B (Tb : gmap K nat) key_of :
  table_ok A Tb key_of → table_built A Tb → table_built (A ++ B) Tb.
Proof.
  intros Hok Hb k p Hk.
  destruct (Hok k p Hk) as (T & HT & _ & [Hall _ _]).
  destruct (Hb k p Hk) as (T' & HT' & Hn).
  rewrite HT in HT'. injection HT' as <-.
  exists T. split; [by apply derefType_app|by apply node_built_app].
Qed.

Lemma table_built_insert {K} `{Countable K} A (Tb : gmap K nat) key_of k T :
  table_ok A Tb key_of → table_built A Tb →
  Forall (allocated A) (typePtrs (Data T)) → node_built A T →
  table_built (A ++ [TypeObj T]) (<[k := S (length A)]> Tb).
Proof.
  intros Hok Hb Hall Hn k' p'. rewrite lookup_insert. case_decide as Hd.
  - intros [= <-]. exists T. split; [apply derefType_new|by apply node_built_app].
  - intros Hk'. exact (table_built_app A [TypeObj T] Tb key_of Hok Hb k' p' Hk').
Qed.

Lemma built_Implementation_new : built Implementation_new.
Proof. split; intros k p; simpl; by rewrite lookup_empty. Qed.

Lemma built_Allocate C o : wf C → built C → built (set_Allocator (λ A, A ++ [o]) C).
Proof.
  intros Hwf []. split; simpl; eapply table_built_app;
    eauto using wf_MetaTypeTypes, wf_FunctionTypes, wf_ArrayTypes, wf_BoundGenericTypes.
Qed.

Lemma node_built_vacuous A T :
  unresolvedChildren (Data T) = None →
  (∀ D P Args, Data T ≠ PBoundGeneric D P Args) → node_built A T.
Proof.
  intros Hu Hk. split.
  - intros ps. by rewrite Hu.
  - intros D P Args HD. by destruct (Hk D P Args).
Qed.

Lemma table_entry_built C r p :
  wf C → built C → table_entry C r = Some p →
  ∃ T, derefType (Allocator C) p = Some T ∧ Data T = req_data r ∧
       node_built (Allocator C) T.
Proof.
  intros Hwf Hb Hent.
  destruct (table_entry_data C r p Hwf Hent) as (T & HT & HD & _).
  exists T. split_and!; [done..|].
  assert (∀ {K} `{Countable K} (Tb : gmap K nat) k,
            table_built (Allocator C) Tb → Tb !! k = Some p →
            node_built (Allocator C) T) as Hgen.
  { intros K ? ? Tb k Htb Hk. destruct (Htb k p Hk) as (T' & HT' & Hn).
    rewrite HT in HT'. by injection HT' as <-. }
  destruct Hb.
  destruct r; simpl in *; try (eapply Hgen; [|exact Hent]; assumption);
    try (apply node_built_vacuous; rewrite HD; [done|by intros ? ? ?]).
  repeat case_match; apply node_built_vacuous; rewrite HD;
    first [done|by intros ? ? ?].
Qed.

Section Built.

Variable header : list Object → TypeKind → Payload → HeaderBits.

Lemma built_exec r C p C' :
  wf C → built C → Forall (allocated (Allocator C)) (req_ptrs r) →
  exec header r C = Ok p C' →
  built C' ∧
  ∃ T, derefType (Allocator C') p = Some T ∧ Data T = req_data r ∧
       node_built (Allocator C') T.
Proof.
  intros Hwf Hb Hall Hx.
  destruct (exec_found_or_built header r C p C' Hwf Hx)
    as [[-> Hent]|(T & -> & -> & HD & _ & Hn & _)].
  { split; [done|]. by apply table_entry_built. }
  assert (Forall (allocated (Allocator C)) (typePtrs (Data T))) as HallT.
  { by rewrite HD, typePtrs_req_data. }
  split.
  - destruct Hb as [Hm Hf Ha Hg]. destruct Hwf.
    destruct r; simpl; repeat case_match;
      split; simpl;
      first [ by eapply table_built_app
            | by eapply table_built_insert ].
  - exists T. rewrite record_entry_Allocator. simpl.
    split_and!; [apply derefType_new|done|by apply node_built_app].
Qed.

End Built.

(** ** The kind of the node a factory returns *)

Lemma table_entry_kind C r p :
  wf C → table_entry C r = Some p →
  ∃ T, derefType (Allocator C) p = Some T ∧ Kind T ∈ req_kinds r.
Proof.
  intros Hwf.
  assert (∀ {K} `{Countable K} (Tb : gmap K nat) key_of k (Ks : list TypeKind),
            Tb !! k = Some p → table_ok (Allocator C) Tb key_of →
            (∀ T, key_of T = Some k → Kind T ∈ Ks) →
            ∃ T, derefType (Allocator C) p = Some T ∧ Kind T ∈ Ks) as Hgen.
  { intros K ? ? Tb key_of k Ks Hk Hok HK.
    destruct (Hok _ _ Hk) as (T & ? & ? & ?). exists T. auto. }
  destruct Hwf. destruct r; simpl; unfold isParenthesized; try done.
  all: repeat case_match.
  all: intros Hk; eapply (Hgen _ _ _ _ _ _ _ Hk); [eassumption|]; intros TB.
  all: unfold key_Integer, key_Paren, key_Tuple, key_UnboundGeneric, key_OneOf,
         key_Struct, key_Class, key_MetaType, key_Module, key_Function, key_Array,
         key_ArraySlice, key_LValue, key_Substituted, key_BoundGeneric,
         key_ProtocolComposition;
       destruct (Kind TB), (Data TB); try done.
  all: intros _; repeat first [by apply list_elem_of_here|apply list_elem_of_further].
Qed.

Lemma req_kinds_data r1 r2 K :
  K ∈ req_kinds r1 → K ∈ req_kinds r2 → req_kinds r1 = req_kinds r2.
Proof.
  destruct r1, r2; simpl; repeat case_match;
    intros H1%list_elem_of_In H2%list_elem_of_In; simpl in *;
    intuition congruence.
Qed.

(** Two requests with the same kinds and fields are the same request,
    unless both ask for a parenthesised node. *)
Lemma req_kinds_data_eq r1 r2 :
  req_kinds r1 = req_kinds r2 → req_data r1 = req_data r2 →
  r1 = r2 ∨ ∃ U, req_data r1 = PParen U.
Proof.
  destruct r1, r2; simpl; unfold isParenthesized; repeat case_match;
    intros HK HD; simplify_eq/=; eauto.
Qed.

Section Kinds.

Variable header : list Object → TypeKind → Payload → HeaderBits.

Lemma exec_kind r C p C' :
  wf C → exec header r C = Ok p C' →
  ∃ T, derefType (Allocator C') p = Some T ∧ Kind T ∈ req_kinds r ∧
       Data T = req_data r.
Proof.
  intros Hwf Hx.
  destruct (exec_found_or_built header r C p C' Hwf Hx)
    as [[-> Hent]|(T & -> & -> & HD & HK & _)].
  - destruct (table_entry_kind C r p Hwf Hent) as (T & HT & HK).
    destruct (table_entry_data C r p Hwf Hent) as (T' & HT' & HD & _).
    rewrite HT in HT'. injection HT' as <-. by exists T.
  - exists T. rewrite record_entry_Allocator. simpl.
    split_and!; [apply derefType_new|done..].
Qed.

End Kinds.

(** ** Where a factory can trip an assertion *)

Lemma asserts_ret {X} P (a : X) : asserts_in P (ret a).
Proof. by intros C msg. Qed.

Lemma asserts_gets {X} P (f : Implementation → X) : asserts_in P (gets f).
Proof. by intros C msg. Qed.

Lemma asserts_modify P f : asserts_in P (modify f).
Proof. by intros C msg. Qed.

Lemma asserts_undefined {X} P : asserts_in P (@undefined X).
Proof. by intros C msg. Qed.

Lemma asserts_Allocate P o : asserts_in P (Allocate o).
Proof. by intros C msg. Qed.

Lemma asserts_typeBase P p : asserts_in P (typeBase p).
Proof. intros C msg. unfold typeBase. by destruct (derefType (Allocator C) p). Qed.

Lemma asserts_declKind P p : asserts_in P (declKind p).
Proof. intros C msg. unfold declKind. by destruct (derefDecl (Allocator C) p). Qed.

Lemma asserts_assert (P : string → Prop) b msg :
  (b = false → P msg) → asserts_in P (assert b msg).
Proof. intros Hb C msg'. unfold assert. destruct b; [done|]. intros [= <-]. auto. Qed.

Lemma asserts_bind {X Y} P (m : M X) (k : X → M Y) :
  asserts_in P m → (∀ a, asserts_in P (k a)) → asserts_in P (bind m k).
Proof.
  intros Hm Hk C msg. unfold bind.
  destruct (m C) as [a C1|msg'|] eqn:Hmc; [apply Hk| |done].
  intros [= <-]. by eapply Hm.
Qed.

Ltac asserts :=
  repeat first
    [ assumption
    | apply asserts_ret | apply asserts_gets | apply asserts_undefined
    | apply asserts_typeBase | apply asserts_declKind | apply asserts_Allocate
    | apply asserts_modify
    | apply asserts_bind; [|intros ?]
    | match goal with
      | |- asserts_in _ (if ?b then _ else _) => destruct b
      | |- asserts_in _ (let '(_, _) := ?x in _) => destruct x
      | |- asserts_in _ (match ?x with _ => _ end) => destruct x
      end ].

Lemma asserts_TupleType_get_flags P Fields d t :
  asserts_in P (TupleType_get_flags Fields d t).
Proof.
  revert d t. induction Fields as [|Elt Fields IH]; intros d t; simpl; asserts;
    apply IH.
Qed.

Lemma asserts_TupleType_get_canonical P Fields :
  asserts_in P (TupleType_get_canonical Fields).
Proof. induction Fields as [|Elt Fields IH]; simpl; asserts. Qed.

Lemma asserts_BoundGenericType_get_flags P Args c t :
  asserts_in P (BoundGenericType_get_flags Args c t).
Proof.
  revert c t. induction Args as [|Arg Args IH]; intros c t; simpl; asserts; apply IH.
Qed.

Lemma asserts_anyUnresolved P Args : asserts_in P (anyUnresolved Args).
Proof. induction Args as [|Arg Args IH]; simpl; asserts. Qed.

Lemma asserts_ProtocolCompositionType_build_canonical P Ps c :
  asserts_in P (ProtocolCompositionType_build_canonical Ps c).
Proof. revert c. induction Ps as [|t Ps IH]; intros c; simpl; asserts; apply IH. Qed.

Ltac asserts_factory :=
  repeat
    (progress
       (unfold BuiltinIntegerType_get, ParenType_get, TupleType_get,
          TupleType_get_tuple, UnboundGenericType_get,
          OneOfType_get, StructType_get, ClassType_get,
          ProtocolCompositionType_build, MetaTypeType_get, ModuleType_get,
          FunctionType_get, ArraySliceType_get, LValueType_get,
          SubstitutedType_get, parentHasTypeVariable,
          new, headerNode, ParenType_ctor, TupleType_ctor, UnboundGenericType_ctor,
          BoundGenericType_ctor, OneOfType_ctor, StructType_ctor, ClassType_ctor,
          NominalType_ctor, ProtocolCompositionType_ctor, MetaTypeType_ctor,
          FunctionType_ctor, ArrayType_ctor,
          ArraySliceType_ctor, LValueType_ctor, SubstitutedType_ctor;
        cbv zeta; asserts));
  try first [ apply asserts_TupleType_get_flags | apply asserts_TupleType_get_canonical
            | apply asserts_BoundGenericType_get_flags | apply asserts_anyUnresolved
            | apply asserts_ProtocolCompositionType_build_canonical ].

Section Assertions.

Variable header : list Object → TypeKind → Payload → HeaderBits.

Lemma exec_asserts r C msg :
  exec header r C = AssertFailed msg →
  match r with
  | GetArray _ Size => Size = 0%N ∧ msg = "Size != 0"
  | GetBoundGeneric TheDecl _ _ =>
      table_entry C r = None ∧
      (∃ DK, derefDecl (Allocator C) TheDecl = Some DK ∧ boundGenericKind DK = None) ∧
      msg = "cast<Ty>() argument of incompatible type!"
  | GetPolymorphicFunction input output _ =>
      typeVariable (Allocator C) input || typeVariable (Allocator C) output = true ∧
      msg = "!input->hasTypeVariable() && !output->hasTypeVariable()"
  | _ => False
  end.
Proof.
  destruct r; simpl;
    try (revert C msg;
         match goal with |- ∀ C msg, ?m C = _ → False =>
           change (asserts_in (λ _, False) m) end;
         by asserts_factory).
  - (* BoundGenericType::get *)
    unfold BoundGenericType_get. unfold bind at 1. unfold declKind.
    destruct (derefDecl (Allocator C) TheDecl) as [DK|] eqn:HDK; [|done].
    unfold bind at 1. unfold gets at 1.
    destruct (BoundGenericTypes C !! _) as [q|] eqn:Hk; [done|].
    intros Hx.
    enough (boundGenericKind DK = None ∧
            msg = "cast<Ty>() argument of incompatible type!") as [? ?] by eauto.
    revert Hx. generalize C at 1. intros C0. revert C0 msg.
    match goal with |- ∀ C msg, ?m C = _ → _ =>
      change (asserts_in (λ msg, boundGenericKind DK = None ∧
                msg = "cast<Ty>() argument of incompatible type!") m) end.
    asserts_factory.
    all: try (apply asserts_assert; simpl; by intros).
  - (* ArrayType::get *)
    unfold ArrayType_get. unfold bind at 1. unfold assert.
    destruct (N.eqb_spec Size 0) as [->|Hne]; simpl; [by intros [= <-]|].
    revert C msg.
    match goal with |- ∀ C msg, ?m C = _ → _ =>
      change (asserts_in (λ msg, Size = 0%N ∧ msg = "Size != 0") m) end.
    asserts_factory.
  - (* PolymorphicFunctionType::get *)
    unfold PolymorphicFunctionType_get, PolymorphicFunctionType_ctor, typeVariable,
      hasTypeVariable. mstep.
    destruct (derefType (Allocator C) input) as [In|]; [|done].
    destruct (derefType (Allocator C) output) as [Out|]; [|done].
    destruct (HasTypeVariable In), (HasTypeVariable Out); simpl; try done;
      by intros [= <-].
Qed.

End Assertions.

(** ** The subtype of a bound generic type *)

Lemma valid_allocated A p : p = 0 ∨ is_Some (derefType A p) → allocated A p.
Proof.
  intros [->|[T HT]]; [apply allocated_null|].
  by apply derefType_allocated in HT as [? _].
Qed.

Lemma BoundGenericType_get_cast D P Args DK C :
  wf C → built C →
  derefDecl (Allocator C) D = Some DK → boundGenericKind DK = None →
  P = 0 ∨ is_Some (derefType (Allocator C) P) →
  Forall (λ p, is_Some (derefType (Allocator C) p)) Args →
  BoundGenericType_get D P Args C
  = AssertFailed "cast<Ty>() argument of incompatible type!".
Proof.
  intros Hwf Hb HDK HK HP Hall.
  assert (BoundGenericTypes C !! BoundGenericType_Profile [] D P Args = None) as Hnone.
  { destruct (BoundGenericTypes C !! _) as [q|] eqn:Hk; [|done].
    destruct (table_entry_built C (GetBoundGeneric D P Args) q Hwf Hb Hk)
      as (T & _ & HD & [_ Hkind]).
    destruct (Hkind D P Args HD) as (DK' & HDK' & HK').
    rewrite HDK in HDK'. injection HDK' as <-. by rewrite HK in HK'. }
  unfold BoundGenericType_get.
  erewrite bind_Ok by (unfold declKind; rewrite HDK; reflexivity).
  erewrite bind_Ok by reflexivity. rewrite Hnone.
  destruct (parentHasTypeVariable_returns P C HP) as [tv Htv].
  erewrite bind_Ok by exact Htv.
  assert (∃ c, (if P =? 0 then ret true
                else do PT <- typeBase P; ret (Context PT)) C = Ok c C)
    as [c Hc].
  { unfold bind, ret, typeBase.
    destruct (Nat.eqb_spec P 0) as [Hz|Hz]; [by eexists|].
    destruct HP as [?|[PT ->]]; [done|]. by eexists. }
  erewrite bind_Ok by exact Hc.
  assert (∃ fl, (if c || negb tv
                 then BoundGenericType_get_flags Args c tv
                 else ret (c, tv)) C = Ok fl C) as [[c' tv'] Hfl].
  { destruct (c || negb tv); [|by eexists].
    by apply BoundGenericType_get_flags_returns. }
  erewrite bind_Ok by exact Hfl.
  by destruct DK.
Qed.

Lemma BoundGenericType_get_subtype D P Args DK K C :
  wf C → built C →
  derefDecl (Allocator C) D = Some DK → boundGenericKind DK = Some K →
  P = 0 ∨ is_Some (derefType (Allocator C) P) →
  Forall (λ p, is_Some (derefType (Allocator C) p)) Args →
  ∃ p C' T, BoundGenericType_get D P Args C = Ok p C' ∧
            derefType (Allocator C') p = Some T ∧ Kind T = K ∧
            Data T = PBoundGeneric D P Args.
Proof.
  intros Hwf Hb HDK HK HP Hall.
  destruct (exec_returns header0 (GetBoundGeneric D P Args) C) as (p & C' & Hx).
  { simpl. split_and!; [|done..]. exists DK. split; [done|].
    destruct DK; try done; auto. }
  assert (Forall (allocated (Allocator C)) (P :: Args)) as Halloc.
  { apply Forall_cons. split; [by apply valid_allocated|].
    eapply Forall_impl; [exact Hall|]. intros q Hq. apply valid_allocated. by right. }
  destruct (built_exec header0 (GetBoundGeneric D P Args) C p C' Hwf Hb Halloc Hx)
    as (_ & T & HT & HD & [_ Hkind]).
  destruct (exec_node header0 (GetBoundGeneric D P Args) C p C' Hwf Halloc Hx)
    as (_ & [Hpre] & _).
  destruct (Hkind D P Args HD) as (DK' & HDK' & HK').
  assert (derefDecl (Allocator C') D = Some DK) as HDK2.
  { destruct Hpre as [B ->]. by apply derefDecl_app. }
  rewrite HDK2 in HDK'. injection HDK' as <-.
  rewrite HK in HK'. injection HK' as ->.
  by exists p, C', T.
Qed.

(** ** What a call leaves alone *)

Ltac slot_keys :=
  repeat match goal with
  | H : TupleType_Profile [] _ = TupleType_Profile [] _ |- _ =>
      apply TupleType_Profile_inj in H
  | H : BoundGenericType_Profile [] _ _ _ = BoundGenericType_Profile [] _ _ _ |- _ =>
      apply BoundGenericType_Profile_inj in H as (? & ? & ?)
  | H : ProtocolCompositionType_Profile [] _ = ProtocolCompositionType_Profile [] _
    |- _ => apply ProtocolCompositionType_Profile_inj in H
  | H : (_, (_, char_of_bool _)) = (_, (_, char_of_bool _)) |- _ =>
      injection H as ? ? ?%char_of_bool_inj
  end.

(** An entry that the recording of a node changes is the entry of the
    request the node was built for. *)
Lemma table_entry_record_slot r p C r' :
  table_entry (record_entry r p C) r' ≠ table_entry C r' →
  table_entry (record_entry r p C) r' = Some p ∧ same_slot r r'.
Proof.
  destruct r, r'; simpl; repeat case_match; simpl; intros Hne;
    try (by destruct Hne);
    rewrite lookup_insert in Hne |- *; case_decide as Hk;
    try (by destruct Hne);
    (split; [done|]);
    unfold UnboundGenericType_Profile, OneOfType_Profile, StructType_Profile,
      ClassType_Profile, AddPointer in Hk; simpl in Hk;
    slot_keys; simplify_eq/=; intros C0; simpl; rewrite ?Hk;
    repeat case_match; simplify_eq/=; try done; congruence.
Qed.

Lemma table_entry_set_IdentifierTable f C r :
  table_entry (set_IdentifierTable f C) r = table_entry C r.
Proof. by destruct r. Qed.

Lemma table_entry_set_BoundGenericSubstitutions f C r :
  table_entry (set_BoundGenericSubstitutions f C) r = table_entry C r.
Proof. by destruct r. Qed.

Section Frame.

Variable header : list Object → TypeKind → Payload → HeaderBits.

Lemma exec_valid r C :
  wf C → request_valid (Allocator C) r →
  ∃ p C' T, exec header r C = Ok p C' ∧ p ≠ 0 ∧
            derefType (Allocator C') p = Some T ∧
            Kind T ∈ req_kinds r ∧ Data T = req_data r.
Proof.
  intros Hwf Hv. destruct (exec_returns header r C Hv) as (p & C' & Hx).
  destruct (exec_kind header r C p C' Hwf Hx) as (T & HT & HK & HD).
  exists p, C', T. split_and!; try done.
  by apply derefType_allocated in HT as [_ ?].
Qed.

End Frame.

(** ** The identifier table *)

Lemma getIdentifier_find_or_build Str C p C' :
  wf C → getIdentifier Str C = Ok p C' →
  (Str = EmptyString ∧ p = 0 ∧ C' = C) ∨
  (Str ≠ EmptyString ∧ IdentifierTable C !! Str = Some p ∧ C' = C) ∨
  (Str ≠ EmptyString ∧ IdentifierTable C !! Str = None ∧
   p = S (length (Allocator C)) ∧
   C' = set_IdentifierTable <[Str := p]>
          (set_Allocator (λ A, A ++ [KeyDataObj Str]) C)).
Proof.
  intros Hwf. unfold getIdentifier.
  destruct (decide (Str = EmptyString)) as [->|Hne].
  - intros [= <- <-]. by left.
  - mstep. destruct (IdentifierTable C !! Str) as [q|] eqn:Hk.
    + intros [= <- <-]. right. by left.
    + intros [= <- <-]. right. by right.
Qed.

Lemma getIdentifier_key_data Str C p C' :
  wf C → Str ≠ EmptyString → getIdentifier Str C = Ok p C' →
  deref (Allocator C') p = Some (KeyDataObj Str).
Proof.
  intros Hwf Hne Hx.
  destruct (getIdentifier_find_or_build Str C p C' Hwf Hx)
    as [[? _]|[(_ & Hk & ->)|(_ & _ & -> & ->)]]; [done| |].
  - by destruct (wf_IdentifierTable C Hwf Str p Hk).
  - simpl. apply deref_new.
Qed.

(** ** The substitution store *)

Lemma getSubstitutions_Ok Bound C v C' :
  getSubstitutions Bound C = Ok v C' →
  C' = C ∧ v = BoundGenericSubstitutions C !! Bound ∧ canonical (Allocator C) Bound = true.
Proof.
  unfold getSubstitutions, isCanonical, canonical. mstep.
  destruct (derefType (Allocator C) Bound) as [B|]; [|done].
  destruct (Context B); simpl; [|done]. by intros [= <- <-].
Qed.

Lemma setSubstitutions_Ok Bound Subs C C' :
  setSubstitutions Bound Subs C = Ok tt C' →
  C' = set_BoundGenericSubstitutions <[Bound := Subs]> C ∧
  BoundGenericSubstitutions C !! Bound = None ∧
  canonical (Allocator C) Bound = true.
Proof.
  unfold setSubstitutions, isCanonical, canonical. mstep.
  destruct (derefType (Allocator C) Bound) as [B|]; [|done].
  destruct (Context B); simpl; [|done].
  destruct (BoundGenericSubstitutions C !! Bound) eqn:Hk; simpl; [done|].
  by intros [= <-].
Qed.

(** ** The states after the constructor *)

Lemma built_getIdentifier Str C p C' :
  wf C → built C → getIdentifier Str C = Ok p C' → built C'.
Proof.
  intros Hwf Hb Hx.
  destruct (getIdentifier_find_or_build Str C p C' Hwf Hx)
    as [(_ & _ & ->)|[(_ & _ & ->)|(_ & _ & _ & ->)]]; [done..|].
  destruct (built_Allocate C (KeyDataObj Str) Hwf Hb). by split.
Qed.

Lemma wf_getIdentifier Str C p C' :
  wf C → getIdentifier Str C = Ok p C' → wf C' ∧ extends C C'.
Proof.
  intros Hwf Hx. destruct (decide (Str = EmptyString)) as [->|Hne].
  - injection Hx as _ <-. split; [done|apply extends_refl].
  - destruct (getIdentifier_spec Str C Hne Hwf) as (q & C2 & Hy & _ & ? & ? & _).
    rewrite Hx in Hy. by injection Hy as <- <-.
Qed.

Lemma extends_setSubstitutions Bound Subs C :
  BoundGenericSubstitutions C !! Bound = None →
  extends C (set_BoundGenericSubstitutions <[Bound := Subs]> C).
Proof. intros Hk. solve_extends. Qed.

Section Reachable.

Variable header : list Object → TypeKind → Payload → HeaderBits.

Lemma step_invariant C C' :
  step header C C' → wf C → built C → wf C' ∧ built C' ∧ extends C C'.
Proof.
  intros [r p Hall Hx|Str p Hx|Bound Subs Hx|o p Hx] Hwf Hb.
  - destruct (exec_node header r C p C' Hwf Hall Hx) as (? & ? & _).
    destruct (built_exec header r C p C' Hwf Hb Hall Hx) as (? & _). done.
  - destruct (wf_getIdentifier Str C p C' Hwf Hx). split_and!; [done| |done].
    exact (built_getIdentifier Str C p C' Hwf Hb Hx).
  - apply setSubstitutions_Ok in Hx as (-> & Hk & _). split_and!.
    + by apply wf_setSubstitutions.
    + destruct Hb. by split.
    + by apply extends_setSubstitutions.
  - injection Hx as _ <-. split_and!.
    + by apply wf_Allocate.
    + by apply built_Allocate.
    + apply extends_Allocate.
Qed.

Lemma new_headerNode_kind K D C :
  ∃ T, Kind T = K ∧ Data T = D ∧
       new (headerNode header K D) C
       = Ok (S (length (Allocator C))) (set_Allocator (λ A, A ++ [TypeObj T]) C).
Proof.
  unfold new, headerNode. mstep. eexists. split_and!; [| |reflexivity]; reflexivity.
Qed.

(** The constructor's outcome: fourteen objects, one identifier and one
    tuple entry. *)
Lemma ASTContext_new_shape :
  ∃ T3 T4 T5 T6 T7 T8 T9 T10 T11 T12 T13 T14,
    ASTContext_new header
    = Ok (mkASTContext 2 3 4 5 6 7 8 9 10 11 12 13 14)
         (set_Allocator
            (λ _, [KeyDataObj "Builtin"; ModuleObj 1; TypeObj T3; TypeObj T4;
                   TypeObj T5; TypeObj T6; TypeObj T7; TypeObj T8; TypeObj T9;
                   TypeObj T10; TypeObj T11; TypeObj T12; TypeObj T13; TypeObj T14])
            (set_TupleTypes <[TupleType_Profile [] [] := 4]>
               (set_IdentifierTable <["Builtin" := 1]> Implementation_new))) ∧
    Forall2 (λ T KD, Kind T = KD.1 ∧ Data T = KD.2)
      [T3; T4; T5; T6; T7; T8; T9; T10; T11; T12; T13; T14]
      [(Error, PNone); (Tuple, PTuple []); (BuiltinObjectPointer, PNone);
       (BuiltinObjCPointer, PNone); (BuiltinRawPointer, PNone);
       (UnstructuredUnresolved, PNone); (BuiltinFloat, PFloat IEEE32);
       (BuiltinFloat, PFloat IEEE64); (BuiltinFloat, PFloat IEEE16);
       (BuiltinFloat, PFloat IEEE80); (BuiltinFloat, PFloat IEEE128);
       (BuiltinFloat, PFloat PPC128)].
Proof.
  unfold ASTContext_new, ASTContext_ctor.
  destruct (getIdentifier_spec "Builtin" Implementation_new ltac:(discriminate)
              wf_Implementation_new) as (Builtin & C1 & H1 & _ & Hwf1 & _).
  destruct (getIdentifier_find_or_build _ _ _ _ wf_Implementation_new H1)
    as [[? _]|[(_ & Hk & _)|(_ & _ & HB & HC1)]]; [done|done|].
  erewrite bind_Ok by exact H1. clear H1.
  erewrite bind_Ok by reflexivity.
  pose proof (wf_Allocate C1 (ModuleObj Builtin) Hwf1) as Hwf2.
  destruct (new_headerNode_kind Error PNone
              (set_Allocator (λ A, A ++ [ModuleObj Builtin]) C1))
    as (T3 & HK3 & HD3 & H3).
  erewrite bind_Ok by exact H3. clear H3.
  match type of Hwf2 with wf ?C =>
    pose proof (wf_Allocate C (TypeObj T3) Hwf2) as Hwf3 end.
  match type of Hwf3 with wf ?C =>
    destruct (exec_returns header (GetTuple []) C) as (p4 & C4 & H4);
      [split; [constructor|done]|];
    destruct (exec_found_or_built header (GetTuple []) C p4 C4 Hwf3 H4)
      as [[_ Hent]|(T4 & HC4 & Hp4 & HD4 & HK4 & _)]
  end.
  { exfalso. subst C1. vm_compute in Hent. discriminate. }
  simpl in H4. erewrite bind_Ok by exact H4. clear H4.
  simpl in HD4, HK4. apply list_elem_of_singleton in HK4.
  subst C4 p4.
  repeat
    match goal with
    | |- context [bind (new (headerNode header ?K ?D)) _ ?C] =>
        let T := fresh "T" in
        let HK := fresh "HK" in
        let HD := fresh "HD" in
        let H := fresh "H" in
        destruct (new_headerNode_kind K D C) as (T & HK & HD & H);
        erewrite bind_Ok by exact H; clear H
    end.
  subst C1 Builtin. clear Hwf1 Hwf2 Hwf3.
  exists T3, T4, T, T0, T1, T2, T5, T6, T7, T8, T9, T10.
  split; [vm_compute; reflexivity|].
  repeat (apply Forall2_cons; split; [by split|]). apply Forall2_nil_2.
Qed.

Lemma ASTContext_new_state S C :
  ASTContext_new header = Ok S C →
  wf C ∧ built C ∧ BoundGenericSubstitutions C = ∅ ∧
  length (Allocator C) = 14 ∧
  NoDup (0 :: TheBuiltinModule S :: (singletons S).*1.*1) ∧
  Forall (λ s, ∃ T, derefType (Allocator C) s.1.1 = Some T ∧
                    Kind T = s.1.2 ∧ Data T = s.2) (singletons S) ∧
  (∃ Builtin, deref (Allocator C) (TheBuiltinModule S) = Some (ModuleObj Builtin) ∧
              deref (Allocator C) Builtin = Some (KeyDataObj "Builtin") ∧
              IdentifierTable C !! "Builtin" = Some Builtin) ∧
  ∀ r p, table_entry C r = Some p ↔ r = GetTuple [] ∧ p = TheEmptyTupleType S.
Proof.
  intros Hnew.
  destruct ASTContext_new_wf with (header := header) as (S' & C' & Hnew' & Hwf).
  rewrite Hnew in Hnew'. injection Hnew' as <- <-.
  pose proof (ASTContext_new_store header S C Hnew) as Hstore.
  destruct ASTContext_new_shape
    as (T3 & T4 & T5 & T6 & T7 & T8 & T9 & T10 & T11 & T12 & T13 & T14 & Heq & HF).
  rewrite Hnew in Heq. injection Heq as HS HC.
  repeat (apply Forall2_cons_1 in HF as [[? ?] HF]). simpl in *.
  split_and!; [exact Hwf| |exact Hstore|by rewrite HC| | | |].
  - rewrite HC. split; intros k p Hk; simpl in Hk; by rewrite lookup_empty in Hk.
  - rewrite HS. simpl.
    repeat (apply NoDup_cons; split;
            [rewrite ?elem_of_cons, elem_of_nil; lia|]).
    apply NoDup_nil_2.
  - rewrite HS, HC. simpl.
    repeat apply Forall_cons_2; try apply Forall_nil_2;
      (eexists; split_and!; [reflexivity|eassumption..]).
  - rewrite HS, HC. exists 1. split_and!; [reflexivity..|]. simpl.
    apply lookup_insert_eq.
  - rewrite HS, HC. clear. intros r p.
    unfold table_entry, TupleType_getEmpty.
    cbn [set_Allocator set_TupleTypes set_IdentifierTable Implementation_new
         Allocator IdentifierTable TupleTypes MetaTypeTypes ModuleTypes
         FunctionTypes ArrayTypes ArraySliceTypes IntegerTypes ParenTypes
         LValueTypes SubstitutedTypes OneOfTypes StructTypes ClassTypes
         ProtocolCompositionTypes UnboundGenericTypes BoundGenericTypes
         BoundGenericSubstitutions TheEmptyTupleType].
    pose proof (TupleType_Profile_inj []) as HID.
    set (ID := TupleType_Profile [] []) in *.
    assert (TupleType_Profile [] [] = ID) as HID0 by reflexivity. clearbody ID.
    split.
    + assert (∀ F, (<[ID := 4]> (∅ : gmap (list nat) nat))
                     !! TupleType_Profile [] F = Some p → F = [] ∧ p = 4) as HT.
      { intros F [[HF' <-]|[_ Hk]]%lookup_insert_Some; [|by rewrite lookup_empty in Hk].
        split; [|reflexivity]. symmetry. exact (HID F HF'). }
      destruct r; cbv beta iota; try (rewrite lookup_empty; discriminate);
        try discriminate.
      destruct Fields as [|Elt [|Elt' Fields]].
      * by intros [_ ->]%HT.
      * destruct (negb (isVararg Elt) && negb (hasName Elt));
          [by rewrite lookup_empty|]. by intros [[=] _]%HT.
      * by intros [[=] _]%HT.
    + intros [-> ->]. rewrite HID0. apply lookup_insert_eq.
Qed.

Lemma reachable_invariant S C :
  reachable header S C →
  wf C ∧ built C ∧ ∃ C0, ASTContext_new header = Ok S C0 ∧ extends C0 C.
Proof.
  induction 1 as [C Hnew|C C' _ (Hwf & Hb & C0 & Hnew & Hext) Hstep].
  - destruct (ASTContext_new_state S C Hnew) as (? & ? & _).
    split_and!; [done..|]. exists C. split; [done|apply extends_refl].
  - destruct (step_invariant C C' Hstep Hwf Hb) as (? & ? & Hext').
    split_and!; [done..|]. exists C0. split; [done|].
    by eapply extends_trans.
Qed.

Lemma reachable_empty_tuple S C :
  reachable header S C → TupleType_get header [] C = Ok (TupleType_getEmpty S) C.
Proof.
  intros (Hwf & _ & C0 & Hnew & Hext)%reachable_invariant.
  destruct (ASTContext_new_state S C0 Hnew) as (_ & _ & _ & _ & Hnd & _ & _ & Hent).
  apply (exec_hit header (GetTuple [])); [done|by constructor| |].
  - eapply table_entry_extends; [exact Hext|].
    exact (proj2 (Hent _ _) (conj eq_refl eq_refl)).
  - intros Hz. apply NoDup_cons in Hnd as [Hnd _]. apply Hnd.
    unfold TupleType_getEmpty in Hz. rewrite <- Hz. simpl.
    do 2 apply list_elem_of_further. apply list_elem_of_here.
Qed.

Lemma reachable_singletons S C :
  reachable header S C →
  Forall (λ s, ∃ T, derefType (Allocator C) s.1.1 = Some T ∧
                    Kind T = s.1.2 ∧ Data T = s.2) (singletons S).
Proof.
  intros (_ & _ & C0 & Hnew & Hext)%reachable_invariant.
  destruct (ASTContext_new_state S C0 Hnew) as (_ & _ & _ & _ & _ & Hs & _).
  eapply Forall_impl; [exact Hs|]. intros s (T & HT & ?). exists T. split; [|done].
  eapply derefType_prefix; [apply (ext_Allocator _ _ Hext)|exact HT].
Qed.

End Reachable.

(** ** A recorded node is found again *)

Lemma table_entry_record_self r p C :
  excepted r = false → table_entry (record_entry r p C) r = Some p.
Proof.
  destruct r; simpl; try done; intros Hdef;
    repeat case_match; simpl in *; try congruence; apply lookup_insert_eq.
Qed.

Section Again.

Variable header : list Object → TypeKind → Payload → HeaderBits.

Lemma exec_idempotent r C p C' :
  wf C → excepted r = false → exec header r C = Ok p C' →
  exec header r C' = Ok p C'.
Proof.
  intros Hwf Hdef Hx.
  pose proof (exec_probe_ok header r C p C' Hdef Hx) as Hprobe.
  destruct (exec_found_or_built header r C p C' Hwf Hx)
    as [[-> Hent]|(T & -> & -> & _)].
  - apply exec_hit; [done..|].
    destruct (table_entry_data C r p Hwf Hent) as (T & HT & _).
    by apply derefType_allocated in HT as [_ ?].
  - apply exec_hit; [done| |by apply table_entry_record_self|done].
    eapply probe_ok_prefix; [|exact Hprobe].
    rewrite record_entry_Allocator. simpl. by apply prefix_app_r.
Qed.

Variable declaredProtocolType : Ptr → M Ptr.

Lemma NominalType_get_spec D Parent DK C :
  wf C → derefDecl (Allocator C) D = Some DK →
  (DK = DK_Protocol →
     NominalType_get header declaredProtocolType D Parent C = declaredProtocolType D C) ∧
  (DK = DK_Other →
     NominalType_get header declaredProtocolType D Parent C
     = AssertFailed "Not a nominal declaration!") ∧
  (∀ K p C', nominalKind DK = Some K → K ≠ Protocol →
     NominalType_get header declaredProtocolType D Parent C = Ok p C' →
     (∃ T, derefType (Allocator C') p = Some T ∧ Kind T = K ∧
           Data T = PNominal D Parent) ∧
     derefDecl (Allocator C') D = Some DK ∧
     NominalType_get header declaredProtocolType D Parent C' = Ok p C').
Proof.
  intros Hwf HDK.
  assert (∀ r K, req_kinds r = [K] → req_data r = PNominal D Parent →
            excepted r = false →
            ∀ p C', exec header r C = Ok p C' →
              (∃ T, derefType (Allocator C') p = Some T ∧ Kind T = K ∧
                    Data T = PNominal D Parent) ∧
              derefDecl (Allocator C') D = Some DK ∧
              exec header r C' = Ok p C') as Hgen.
  { intros r K HK HD Hdef p C' Hx.
    destruct (exec_kind header r C p C' Hwf Hx) as (T & HT & HKT & HDT).
    rewrite HK in HKT. apply list_elem_of_singleton in HKT.
    split_and!.
    - exists T. by rewrite HKT, HDT, HD.
    - destruct (exec_found_or_built header r C p C' Hwf Hx)
        as [[-> _]|(T' & -> & _)]; [done|].
      rewrite record_entry_Allocator. simpl. by apply derefDecl_app.
    - by apply exec_idempotent with C. }
  unfold NominalType_get, bind, declKind. rewrite HDK.
  split_and!; [by intros ->..|].
  intros K p C' HK HP Hx. destruct DK; simpl in HK; try done; injection HK as <-;
    try done.
  - destruct (Hgen (GetOneOf D Parent) OneOf eq_refl eq_refl eq_refl p C' Hx)
      as (? & -> & ?). done.
  - destruct (Hgen (GetStruct D Parent) Struct eq_refl eq_refl eq_refl p C' Hx)
      as (? & -> & ?). done.
  - destruct (Hgen (GetClass D Parent) Class eq_refl eq_refl eq_refl p C' Hx)
      as (? & -> & ?). done.
Qed.

End Again.

(** ** The profiles from any starting ID *)

Lemma TupleType_Profile_inj_from ID Fields1 Fields2 :
  TupleType_Profile ID Fields1 = TupleType_Profile ID Fields2 → Fields1 = Fields2.
Proof.
  rewrite !TupleType_Profile_words. intros [= Hlen Hw]%app_inv_head.
  by apply elt_words_inj.
Qed.

Lemma BoundGenericType_Profile_inj_from ID D1 P1 Args1 D2 P2 Args2 :
  BoundGenericType_Profile ID D1 P1 Args1 = BoundGenericType_Profile ID D2 P2 Args2 →
  D1 = D2 ∧ P1 = P2 ∧ Args1 = Args2.
Proof.
  unfold BoundGenericType_Profile. rewrite !foldl_AddPointer.
  unfold AddInteger, AddPointer. rewrite <- !app_assoc. simpl.
  by intros [= -> -> _ ->]%app_inv_head.
Qed.

Lemma TupleType_Profile_length ID Fields :
  length (TupleType_Profile ID Fields) = length ID + 1 + 4 * length Fields.
Proof.
  rewrite TupleType_Profile_words, length_app. simpl.
  assert (length (concat (map elt_words Fields)) = 4 * length Fields) as ->; [|lia].
  induction Fields as [|Elt Fields IH]; simpl; lia.
Qed.

(** ** Further properties of the factories *)

Section Further.

Variable header : list Object → TypeKind → Payload → HeaderBits.

(** X1: a call of a type factory either finds the node recorded for its
    arguments, and then leaves the whole state as it is, or places
    exactly one node, at the end of the arena, holding the arguments and
    a kind of the factory, and records it for the arguments and nowhere
    else; a uniqued factory places a node only when none was recorded. *)
Theorem factory_finds_or_builds r C p C' :
  wf C → exec header r C = Ok p C' →
  (C' = C ∧ table_entry C r = Some p) ∨
  (∃ T, p = S (length (Allocator C)) ∧
        C' = record_entry r p (set_Allocator (λ A, A ++ [TypeObj T]) C) ∧
        Allocator C' = Allocator C ++ [TypeObj T] ∧
        Data T = req_data r ∧ Kind T ∈ req_kinds r ∧
        (excepted r = false → table_entry C r = None)).
Proof.
  intros Hwf Hx.
  destruct (exec_found_or_built header r C p C' Hwf Hx)
    as [?|(T & HC & Hp & HD & HK & _ & Hnone)]; [by left|].
  right. exists T. split_and!; try done.
  by rewrite HC, record_entry_Allocator.
Qed.

(** X2: a call of a type factory changes no table slot other than the
    one it fills.  A request whose entry differs after the call reads
    the very slot of the call's request, in every state, and now finds
    there the node the call returned.  The call touches neither the
    identifier table nor the substitution store nor any object already in
    the arena. *)
Theorem factory_leaves_other_entries r C p C' r' :
  wf C → exec header r C = Ok p C' →
  (table_entry C' r' = table_entry C r' ∨
   (table_entry C' r' = Some p ∧ same_slot r r')) ∧
  IdentifierTable C' = IdentifierTable C ∧
  BoundGenericSubstitutions C' = BoundGenericSubstitutions C ∧
  Allocator C `prefix_of` Allocator C'.
Proof.
  intros Hwf Hx.
  destruct (exec_found_or_built header r C p C' Hwf Hx)
    as [[-> _]|(T & -> & _)]; [by split; [left|]|].
  rewrite record_entry_IdentifierTable, record_entry_BoundGenericSubstitutions,
    record_entry_Allocator.
  split_and!; [|done..|by apply prefix_app_r].
  rewrite <- (table_entry_set_Allocator (λ A, A ++ [TypeObj T]) C r').
  destruct (decide (table_entry (record_entry r p
                                   (set_Allocator (λ A, A ++ [TypeObj T]) C)) r'
                    = table_entry (set_Allocator (λ A, A ++ [TypeObj T]) C) r'))
    as [Heq|Hne]; [by left|right].
  by apply table_entry_record_slot.
Qed.

(** X3: the unresolved flag.  The function, polymorphic function,
    metatype, array and bound generic nodes in the tables have the flag
    set exactly when one of their children has it set; every call of a
    factory keeps this, and the node it returns, found or new, has the
    flag set exactly when the input or the result, the instance type,
    the base type, or the parent or one of the arguments is
    unresolved. *)
Theorem unresolved_iff_child_unresolved r C p C' :
  wf C → built C → Forall (allocated (Allocator C)) (req_ptrs r) →
  exec header r C = Ok p C' →
  built C' ∧
  ∃ T, derefType (Allocator C') p = Some T ∧
       ∀ ps, unresolvedChildren (req_data r) = Some ps →
             (Unresolved T = true ↔
              ∃ q Q, q ∈ ps ∧ derefType (Allocator C') q = Some Q ∧
                     Unresolved Q = true).
Proof.
  intros Hwf Hb Hall Hx.
  destruct (built_exec header r C p C' Hwf Hb Hall Hx) as (Hb' & T & HT & HD & [Hu _]).
  split; [done|]. exists T. split; [done|]. intros ps Hps.
  rewrite <- HD in Hps. rewrite (Hu ps Hps). apply existsb_unresolved_iff.
Qed.

(** X5: the node a factory returns has a kind of that factory and holds
    the fields the factory stores for the call.  So two calls return the
    same node only if they are the same call, one factory with the same
    arguments, or both ask for the parenthesised node of one type:
    [ParenType::get] on the type, or [TupleType::get] on a single unnamed
    non-vararg element of the type, whatever its default value. *)
Theorem nodes_of_different_factories_differ r1 r2 C p1 C1 C2 p2 C3 :
  wf C → exec header r1 C = Ok p1 C1 →
  wf C2 → extends C1 C2 → exec header r2 C2 = Ok p2 C3 →
  (∃ T, derefType (Allocator C1) p1 = Some T ∧ Kind T ∈ req_kinds r1 ∧
        Data T = req_data r1) ∧
  (p1 = p2 →
   req_kinds r1 = req_kinds r2 ∧ req_data r1 = req_data r2 ∧
   (r1 = r2 ∨ ∃ U, req_data r1 = PParen U)).
Proof.
  intros Hwf Hx1 Hwf2 Hext Hx2.
  destruct (exec_kind header r1 C p1 C1 Hwf Hx1) as (T1 & HT1 & HK1 & HD1).
  destruct (exec_kind header r2 C2 p2 C3 Hwf2 Hx2) as (T2 & HT2 & HK2 & HD2).
  split; [by exists T1|]. intros <-.
  assert (Allocator C2 `prefix_of` Allocator C3) as Hpre.
  { destruct (exec_found_or_built header r2 C2 p1 C3 Hwf2 Hx2)
      as [[-> _]|(T & -> & _)]; [done|].
    rewrite record_entry_Allocator. by apply prefix_app_r. }
  assert (derefType (Allocator C3) p1 = Some T1) as HT3.
  { eapply derefType_prefix; [exact Hpre|].
    eapply derefType_prefix; [apply (ext_Allocator _ _ Hext)|exact HT1]. }
  rewrite HT2 in HT3. injection HT3 as ->.
  assert (req_kinds r1 = req_kinds r2) as HK by (by eapply req_kinds_data).
  assert (req_data r1 = req_data r2) as HD by congruence.
  split_and!; [done..|]. by apply req_kinds_data_eq.
Qed.

(** X7: called with pointers to type nodes where it dereferences them,
    and with its asserted precondition met, every factory returns, and
    what it returns is a non-null pointer to a node of its kind that
    holds the arguments. *)
Theorem valid_request_returns_node r C :
  wf C → request_valid (Allocator C) r →
  ∃ p C' T, exec header r C = Ok p C' ∧ p ≠ 0 ∧
            derefType (Allocator C') p = Some T ∧
            Kind T ∈ req_kinds r ∧ Data T = req_data r.
Proof. apply exec_valid. Qed.

(** X10: the constructor returns for whatever the types header chooses.
    It leaves fourteen objects in the arena: the key data of "Builtin",
    the builtin module named by it, and the twelve singleton types, each
    of its kind, at addresses that are pairwise different and not null.
    The identifier table holds "Builtin", the only node recorded in a
    table is the empty tuple type, under the empty field list, and no
    substitutions are recorded. *)
Theorem constructor_outcome :
  ∃ S C, ASTContext_new header = Ok S C ∧
    wf C ∧ built C ∧ BoundGenericSubstitutions C = ∅ ∧
    length (Allocator C) = 14 ∧
    NoDup (0 :: TheBuiltinModule S :: (singletons S).*1.*1) ∧
    Forall (λ s, ∃ T, derefType (Allocator C) s.1.1 = Some T ∧
                      Kind T = s.1.2 ∧ Data T = s.2) (singletons S) ∧
    (∃ Builtin, deref (Allocator C) (TheBuiltinModule S) = Some (ModuleObj Builtin) ∧
                deref (Allocator C) Builtin = Some (KeyDataObj "Builtin") ∧
                IdentifierTable C !! "Builtin" = Some Builtin) ∧
    ∀ r p, table_entry C r = Some p ↔ r = GetTuple [] ∧ p = TheEmptyTupleType S.
Proof.
  destruct (ASTContext_new_wf header) as (S & C & Hnew & _).
  exists S, C. split; [exact Hnew|]. exact (ASTContext_new_state header S C Hnew).
Qed.

(** X11: every operation on a context (a factory called with pointers
    into the arena, [getIdentifier], [setSubstitutions], the placement
    of an object) keeps both invariants of the tables, and the state
    after it extends the state before: no object is moved or changed and
    no entry is dropped or replaced. *)
Theorem operations_keep_invariants C C' :
  step header C C' → wf C → built C → wf C' ∧ built C' ∧ extends C C'.
Proof. apply step_invariant. Qed.

(** X12: in every state a context goes through after its constructor,
    [TupleType::get] on the empty field list returns the node of
    [TupleType::getEmpty] and changes nothing, and every singleton type
    is still the node the constructor placed. *)
Theorem empty_tuple_is_the_singleton S C :
  reachable header S C →
  TupleType_get header [] C = Ok (TupleType_getEmpty S) C ∧
  Forall (λ s, ∃ T, derefType (Allocator C) s.1.1 = Some T ∧
                    Kind T = s.1.2 ∧ Data T = s.2) (singletons S).
Proof.
  intros Hr. split; [by apply reachable_empty_tuple|by apply (reachable_singletons header)].
Qed.

(** X14: a call of a type factory does not change what
    [getSubstitutions] answers for a node that was in the arena before
    the call. *)
Theorem factories_keep_substitutions r C p C' Bound :
  wf C → exec header r C = Ok p C' → allocated (Allocator C) Bound →
  getSubstitutions Bound C'
  = match getSubstitutions Bound C with
    | Ok v _ => Ok v C'
    | AssertFailed m => AssertFailed m
    | Undefined => Undefined
    end.
Proof.
  intros Hwf Hx HB.
  destruct (exec_found_or_built header r C p C' Hwf Hx)
    as [[-> _]|(T & -> & _)].
  { destruct (getSubstitutions Bound C) as [v C2| |] eqn:Hg; [|done..].
    by apply getSubstitutions_Ok in Hg as (-> & _). }
  unfold getSubstitutions. mstep.
  rewrite record_entry_Allocator. simpl.
  rewrite (derefType_app_allocated _ _ _ HB).
  destruct (derefType (Allocator C) Bound) as [B|]; [|done]. simpl.
  destruct (isCanonical B); [|done]. simpl.
  by rewrite record_entry_BoundGenericSubstitutions.
Qed.

Variable declaredProtocolType : Ptr → M Ptr.

Lemma NominalType_get_asserts D Parent C msg :
  NominalType_get header declaredProtocolType D Parent C = AssertFailed msg →
  ∃ DK, derefDecl (Allocator C) D = Some DK ∧
        ((DK = DK_Other ∧ msg = "Not a nominal declaration!") ∨
         (DK = DK_Protocol ∧ declaredProtocolType D C = AssertFailed msg)).
Proof.
  unfold NominalType_get, bind, declKind.
  destruct (derefDecl (Allocator C) D) as [DK|]; [|done].
  intros Hx. exists DK. split; [done|]. destruct DK.
  - by destruct (exec_asserts header (GetOneOf D Parent) C msg Hx).
  - by destruct (exec_asserts header (GetStruct D Parent) C msg Hx).
  - by destruct (exec_asserts header (GetClass D Parent) C msg Hx).
  - by right.
  - left. by injection Hx as <-.
Qed.

(** X6: the only assertions a type factory can trip are the size check
    of [ArrayType::get], on size zero, the [cast] of
    [BoundGenericType::get], on a miss with a declaration that is
    neither a class, a struct nor a oneof, the check of the
    [PolymorphicFunctionType] constructor, on an input or result with a
    type variable, and the unreachable default of [NominalType::get], on
    a declaration that is no oneof, struct, class or protocol.  The
    other fourteen factories assert nothing, and [NominalType::get] on a
    protocol declaration fails only if the declaration's own type does. *)
Theorem factory_assertions :
  (∀ r C msg,
     exec header r C = AssertFailed msg →
     match r with
     | GetArray _ Size => Size = 0%N ∧ msg = "Size != 0"
     | GetBoundGeneric TheDecl _ _ =>
         table_entry C r = None ∧
         (∃ DK, derefDecl (Allocator C) TheDecl = Some DK ∧
                boundGenericKind DK = None) ∧
         msg = "cast<Ty>() argument of incompatible type!"
     | GetPolymorphicFunction input output _ =>
         typeVariable (Allocator C) input || typeVariable (Allocator C) output = true ∧
         msg = "!input->hasTypeVariable() && !output->hasTypeVariable()"
     | _ => False
     end) ∧
  (∀ D Parent C msg,
     NominalType_get header declaredProtocolType D Parent C = AssertFailed msg →
     ∃ DK, derefDecl (Allocator C) D = Some DK ∧
           ((DK = DK_Other ∧ msg = "Not a nominal declaration!") ∨
            (DK = DK_Protocol ∧ declaredProtocolType D C = AssertFailed msg))).
Proof. split; [apply exec_asserts|apply NominalType_get_asserts]. Qed.

(** X15: [NominalType::get] dispatches on the kind of the declaration.
    For a oneof, struct or class declaration the node it returns has the
    kind of the declaration and holds the declaration and the parent,
    and asking again returns it without a change; for a protocol
    declaration the answer is the declaration's own type; any other
    declaration runs into the unreachable default. *)
Theorem nominal_dispatch D Parent DK C :
  wf C → derefDecl (Allocator C) D = Some DK →
  (DK = DK_Protocol →
     NominalType_get header declaredProtocolType D Parent C = declaredProtocolType D C) ∧
  (DK = DK_Other →
     NominalType_get header declaredProtocolType D Parent C
     = AssertFailed "Not a nominal declaration!") ∧
  (∀ K p C', nominalKind DK = Some K → K ≠ Protocol →
     NominalType_get header declaredProtocolType D Parent C = Ok p C' →
     (∃ T, derefType (Allocator C') p = Some T ∧ Kind T = K ∧
           Data T = PNominal D Parent) ∧
     derefDecl (Allocator C') D = Some DK ∧
     NominalType_get header declaredProtocolType D Parent C' = Ok p C').
Proof. apply NominalType_get_spec. Qed.

End Further.

(** X4: [BoundGenericType::get] picks the subtype by the declaration.
    Given a class, struct or oneof declaration it returns a node of the
    bound generic class, struct or oneof kind, also when the node is
    found in the table; given any other declaration it trips the
    assertion of [cast]. *)
Theorem bound_generic_kind_follows_declaration D P Args DK C :
  wf C → built C → derefDecl (Allocator C) D = Some DK →
  P = 0 ∨ is_Some (derefType (Allocator C) P) →
  Forall (λ p, is_Some (derefType (Allocator C) p)) Args →
  match boundGenericKind DK with
  | Some K =>
      ∃ p C' T, BoundGenericType_get D P Args C = Ok p C' ∧
                derefType (Allocator C') p = Some T ∧ Kind T = K ∧
                Data T = PBoundGeneric D P Args
  | None =>
      BoundGenericType_get D P Args C
      = AssertFailed "cast<Ty>() argument of incompatible type!"
  end.
Proof.
  intros Hwf Hb HDK HP Hall. destruct (boundGenericKind DK) as [K|] eqn:HK.
  - by eapply BoundGenericType_get_subtype.
  - by eapply BoundGenericType_get_cast.
Qed.

(** X8: [TupleType::Profile] and [BoundGenericType::Profile] add to any
    ID a sequence of words that determines the arguments: one word for
    the length and four for each element of a tuple; the declaration,
    the parent, the number of arguments and the arguments of a bound
    generic type. *)
Theorem profiles_determine_arguments ID :
  (∀ Fields, length (TupleType_Profile ID Fields) = length ID + 1 + 4 * length Fields) ∧
  (∀ Fields1 Fields2,
     TupleType_Profile ID Fields1 = TupleType_Profile ID Fields2 → Fields1 = Fields2) ∧
  (∀ D1 P1 Args1 D2 P2 Args2,
     BoundGenericType_Profile ID D1 P1 Args1 = BoundGenericType_Profile ID D2 P2 Args2 →
     D1 = D2 ∧ P1 = P2 ∧ Args1 = Args2).
Proof.
  split_and!.
  - apply TupleType_Profile_length.
  - apply TupleType_Profile_inj_from.
  - apply BoundGenericType_Profile_inj_from.
Qed.

(** X9: [getIdentifier] returns the null identifier for the empty
    string, the recorded handle for a string it has seen, and otherwise
    places the key data of the string at the end of the arena and
    records it; a handle that is not null points to the key data of its
    string.  No type table and no substitution changes. *)
Theorem identifier_finds_or_builds Str C p C' :
  wf C → getIdentifier Str C = Ok p C' →
  ((Str = EmptyString ∧ p = 0 ∧ C' = C) ∨
   (Str ≠ EmptyString ∧ IdentifierTable C !! Str = Some p ∧ C' = C) ∨
   (Str ≠ EmptyString ∧ IdentifierTable C !! Str = None ∧
    p = S (length (Allocator C)) ∧
    C' = set_IdentifierTable <[Str := p]>
           (set_Allocator (λ A, A ++ [KeyDataObj Str]) C))) ∧
  (Str ≠ EmptyString → deref (Allocator C') p = Some (KeyDataObj Str)) ∧
  (∀ r, table_entry C' r = table_entry C r) ∧
  BoundGenericSubstitutions C' = BoundGenericSubstitutions C.
Proof.
  intros Hwf Hx.
  pose proof (getIdentifier_find_or_build Str C p C' Hwf Hx) as Hcases.
  split_and!; [exact Hcases|by intros; eapply getIdentifier_key_data| |].
  - intros r.
    destruct Hcases as [(_ & _ & ->)|[(_ & _ & ->)|(_ & _ & _ & ->)]]; [done..|].
    by rewrite table_entry_set_IdentifierTable, table_entry_set_Allocator.
  - by destruct Hcases as [(_ & _ & ->)|[(_ & _ & ->)|(_ & _ & _ & ->)]].
Qed.

(** X13: [setSubstitutions] returns only for a canonical key without an
    entry; it places nothing in the arena, changes no type table and no
    identifier, and changes the answer of [getSubstitutions] for no
    other key.  [getSubstitutions] never changes the state. *)
Theorem substitutions_touch_one_key Bound Subs C C' :
  setSubstitutions Bound Subs C = Ok tt C' →
  canonical (Allocator C) Bound = true ∧
  BoundGenericSubstitutions C !! Bound = None ∧
  Allocator C' = Allocator C ∧ IdentifierTable C' = IdentifierTable C ∧
  (∀ r, table_entry C' r = table_entry C r) ∧
  (∀ Other, Other ≠ Bound →
     getSubstitutions Other C'
     = match getSubstitutions Other C with
       | Ok v _ => Ok v C'
       | AssertFailed m => AssertFailed m
       | Undefined => Undefined
       end) ∧
  (∀ Other v C2, getSubstitutions Other C = Ok v C2 → C2 = C).
Proof.
  intros (-> & Hnone & Hcan)%setSubstitutions_Ok.
  split_and!; [done..| | |].
  - intros r. apply table_entry_set_BoundGenericSubstitutions.
  - intros Other Hne. unfold getSubstitutions. mstep.
    destruct (derefType (Allocator C) Other) as [B|]; [|done]. simpl.
    destruct (isCanonical B); [|done]. simpl.
    by rewrite lookup_insert_ne.
  - intros Other v C2 Hx. by apply getSubstitutions_Ok in Hx as (-> & _).
Qed.

(** ** The sample context is well-formed *)

Lemma wf_sample0 : wf sample0.
Proof.
  pose (s1 := set_Allocator (λ A, A ++ [TypeObj aTypeVariable]) Implementation_new).
  assert (wf s1) as H1 by apply wf_Allocate, wf_Implementation_new.
  pose (s2 := state_of (BuiltinIntegerType_get header0 32 s1)).
  assert (wf s2) as H2.
  { apply (BuiltinIntegerType_get_spec header0 32 s1 2 s2 H1).
    vm_compute. reflexivity. }
  pose (s3 := set_Allocator (λ A, A ++ [ExprHandleObj 7]) s2).
  assert (wf s3) as H3 by (apply wf_Allocate; exact H2).
  exact (wf_Allocate s3 (DeclObj DK_Struct) H3).
Qed.

Lemma wf_sample : wf sample.
Proof.
  apply (ParenType_get_spec header0 2 sample0 5 sample wf_sample0).
  vm_compute. reflexivity.
Qed.

Lemma wf_after r p :
  Forall (allocated (Allocator sample)) (req_ptrs r) →
  exec header0 r sample = Ok p (after r) → wf (after r).
Proof.
  intros Hall Hx. exact (proj1 (exec_node header0 r sample p (after r) wf_sample Hall Hx)).
Qed.

Lemma allocated_sample p : p ≤ 5 → allocated (Allocator sample) p.
Proof. intros Hp. unfold allocated. vm_compute length. exact Hp. Qed.

(** *** The end-to-end scenarios on the sample *)

(** The 32-bit integer type is returned again. *)
Example scenario_integer_twice :
  BuiltinIntegerType_get header0 32 sample = Ok 2 sample.
Proof. vm_compute. reflexivity. Qed.

(** A tuple of one unnamed integer is the parenthesised integer. *)
Example scenario_tuple_is_paren :
  TupleType_get header0 [mkElt 2 0 0 0] sample = Ok 5 sample
  ∧ ParenType_get header0 2 sample = Ok 5 sample.
Proof. vm_compute. split; reflexivity. Qed.

(** A named element with a default value: two calls, two nodes, both
    canonical as the integer type is. *)
Example scenario_named_default_twice :
  let Fields := [mkElt 2 9 3 0] in
  let C1 := after (GetTuple Fields) in
  TupleType_get header0 Fields sample = Ok 6 C1
  ∧ (Context <$> derefType (Allocator C1) 6) = Some true
  ∧ ∃ C2, TupleType_get header0 Fields C1 = Ok 7 C2
          ∧ (Context <$> derefType (Allocator C2) 7) = Some true.
Proof. vm_compute. split_and!; [reflexivity..|]. eexists. split; reflexivity. Qed.

(** A bound generic type is returned again; its substitutions are set
    once and read back; a second set is a contract violation. *)
Example scenario_bound_generic :
  let C1 := after (GetBoundGeneric 4 0 [2]) in
  let Subs := mkArrayRef 100 1 in
  BoundGenericType_get 4 0 [2] sample = Ok 6 C1
  ∧ BoundGenericType_get 4 0 [2] C1 = Ok 6 C1
  ∧ getSubstitutions 6 C1 = Ok None C1
  ∧ ∃ C2, setSubstitutions 6 Subs C1 = Ok tt C2
          ∧ getSubstitutions 6 C2 = Ok (Some Subs) C2
          ∧ setSubstitutions 6 Subs C2 = AssertFailed "Already have substitutions?".
Proof. vm_compute. split_and!; [reflexivity..|]. eexists. split_and!; reflexivity. Qed.

(** Identifiers. *)
Example scenario_identifiers :
  let C1 := state_of (getIdentifier "Foo" sample) in
  getIdentifier "" sample = Ok 0 sample
  ∧ getIdentifier "Foo" sample = Ok 6 C1
  ∧ getIdentifier "Foo" C1 = Ok 6 C1
  ∧ ∃ C2, getIdentifier "Bar" C1 = Ok 7 C2.
Proof. vm_compute. split_and!; [reflexivity..|]. eexists. reflexivity. Qed.

(** An array of size 0. *)
Example scenario_array_zero : ArrayType_get 2 0 sample = AssertFailed "Size != 0".
Proof. vm_compute. reflexivity. Qed.

(** The context's constructor leaves a well-formed state. *)
Example scenario_constructor :
  ∃ S C, ASTContext_new header0 = Ok S C ∧ TupleType_getEmpty S = 4
         ∧ TupleTypes C !! TupleType_Profile [] [] = Some 4.
Proof. vm_compute. eexists _, _. split_and!; reflexivity. Qed.

(** ** The claims on the sample *)

(** C1 on the sample: the ordinary and the auto-closure function type
    over the integer type are two nodes, and the first is found again. *)
Lemma uniqued_factories_identity_witness :
  exec header0 (GetFunction 2 2 false) (after (GetFunction 2 2 false))
    = Ok 6 (after (GetFunction 2 2 false))
  ∧ (GetFunction 2 2 false = GetFunction 2 2 true ↔ 6 = 7).
Proof.
  assert (Forall (allocated (Allocator sample)) [2; 2]) as Hall
    by (repeat constructor; apply allocated_sample; lia).
  assert (exec header0 (GetFunction 2 2 false) sample
          = Ok 6 (after (GetFunction 2 2 false))) as Hx
    by (vm_compute; reflexivity).
  apply (uniqued_factories_identity header0
           (GetFunction 2 2 false) (GetFunction 2 2 true)
           sample 6 (after (GetFunction 2 2 false)) (after (GetFunction 2 2 false)) 7
           (state_of (exec header0 (GetFunction 2 2 true)
                        (after (GetFunction 2 2 false))))).
  - exact wf_sample.
  - exact Hall.
  - reflexivity.
  - exact Hx.
  - exact (wf_after (GetFunction 2 2 false) 6 Hall Hx).
  - apply extends_refl.
  - repeat constructor; unfold allocated; vm_compute; lia.
  - reflexivity.
  - reflexivity.
  - vm_compute. reflexivity.
Defined.





(** C3 on the sample. *)
Lemma tuple_of_one_is_paren_witness :
  (∀ C, TupleType_get header0 [mkElt 2 0 0 0] C = ParenType_get header0 2 C) ∧
  (∀ C p C1 C2,
     wf C → ParenType_get header0 2 C = Ok p C1 → extends C1 C2 →
     TupleType_get header0 [mkElt 2 0 0 0] C2 = Ok p C2) ∧
  (∀ C p C1 C2,
     wf C → TupleType_get header0 [mkElt 2 0 0 0] C = Ok p C1 → extends C1 C2 →
     ParenType_get header0 2 C2 = Ok p C2).
Proof.
  apply (tuple_of_one_is_paren header0 (mkElt 2 0 0 0)); reflexivity.
Defined.

(** C10 on the sample: the element carries the default value at 3, the
    second request carries none. *)
Lemma collapse_precedes_default_check_witness :
  (∃ T, derefType (Allocator sample) 5 = Some T ∧ Kind T = Paren ∧
        Data T = PParen 2) ∧
  ParenTypes sample !! 2 = Some 5 ∧
  TupleTypes sample = TupleTypes sample0 ∧
  TupleType_get header0 [mkElt 2 0 0 0] sample = Ok 5 sample.
Proof.
  apply (collapse_precedes_default_check header0 (mkElt 2 0 3 0) (mkElt 2 0 0 0)
           sample0 5 sample sample).
  - reflexivity.
  - reflexivity.
  - reflexivity.
  - reflexivity.
  - reflexivity.
  - exact wf_sample0.
  - vm_compute. reflexivity.
  - apply extends_refl.
Defined.

(** C4 as stated fails on the sample: the field list holds a
    default-valued element, the first call places the parenthesised
    integer type at 5 in the table of parenthesised types, and the second
    call returns the same node.  So two calls with a default-bearing field
    list do not always return two nodes. *)
Lemma default_tuple_counterexample :
  (existsb hasInit [mkElt 2 0 3 0] = true
   ∧ wf sample0
   ∧ TupleType_get header0 [mkElt 2 0 3 0] sample0 = Ok 5 sample
   ∧ ParenTypes sample !! 2 = Some 5
   ∧ TupleType_get header0 [mkElt 2 0 3 0] sample = Ok 5 sample)
  ∧ ¬ (∀ Fields C p1 C1 p2 C2,
         existsb hasInit Fields = true → wf C →
         TupleType_get header0 Fields C = Ok p1 C1 →
         TupleType_get header0 Fields C1 = Ok p2 C2 →
         p1 ≠ p2).
Proof.
  assert (TupleType_get header0 [mkElt 2 0 3 0] sample0 = Ok 5 sample) as H1
    by (vm_compute; reflexivity).
  assert (TupleType_get header0 [mkElt 2 0 3 0] sample = Ok 5 sample) as H2
    by (vm_compute; reflexivity).
  split.
  { split_and!; [reflexivity|exact wf_sample0|exact H1| |exact H2].
    vm_compute. reflexivity. }
  intros Hclaim.
  exact (Hclaim [mkElt 2 0 3 0] sample0 5 sample 5 sample eq_refl wf_sample0 H1 H2
           eq_refl).
Qed.

(** C4, amended, on the sample: a default-valued integer and a type
    variable. *)
Lemma default_tuple_not_uniqued_witness :
  let Fields := [mkElt 2 0 3 0; mkElt 1 0 0 0] in
  (∃ T, after (GetTuple Fields) = set_Allocator (λ A, A ++ [TypeObj T]) sample ∧
        Kind T = Tuple ∧ Data T = PTuple Fields) ∧
  TupleTypes (after (GetTuple Fields)) = TupleTypes sample ∧
  deref (Allocator sample) 6 = None ∧
  ∀ C2, extends (after (GetTuple Fields)) C2 →
    ∃ p2 C3, TupleType_get header0 Fields C2 = Ok p2 C3 ∧ p2 ≠ 6 ∧
             TupleTypes C3 = TupleTypes C2.
Proof.
  apply (default_tuple_not_uniqued header0 [mkElt 2 0 3 0; mkElt 1 0 0 0] sample 6
           (after (GetTuple [mkElt 2 0 3 0; mkElt 1 0 0 0]))).
  - reflexivity.
  - reflexivity.
  - vm_compute. reflexivity.
Defined.

(** C5 on the sample: the canonical bound generic type at 6 has no
    substitutions, takes some once and gives them back; the parenthesised
    type at 5 is not canonical and is refused. *)
Lemma substitution_store_witness :
  let C := after (GetBoundGeneric 4 0 [2]) in
  let Subs := mkArrayRef 100 1 in
  getSubstitutions 6 C = Ok None C
  ∧ (∃ C', setSubstitutions 6 Subs C = Ok tt C'
           ∧ getSubstitutions 6 C' = Ok (Some Subs) C'
           ∧ setSubstitutions 6 Subs C' = AssertFailed "Already have substitutions?")
  ∧ getSubstitutions 5 C = AssertFailed "Requesting non-canonical substitutions"
  ∧ setSubstitutions 5 Subs C = AssertFailed "Requesting non-canonical substitutions".
Proof.
  intros C Subs.
  assert (derefType (Allocator C) 6 = Some aBoundGeneric) as H6
    by (vm_compute; reflexivity).
  destruct (substitution_store 6 aBoundGeneric C H6) as [_ Hcan].
  destruct (Hcan eq_refl eq_refl) as [Hget Hset].
  destruct (Hset Subs) as (C' & Hset' & _ & _ & Hlater).
  destruct (Hlater C' (extends_refl C')) as [Hget' Hset2].
  assert (derefType (Allocator C) 5
          = Some (mkType Paren false false false (PParen 2))) as H5
    by (vm_compute; reflexivity).
  destruct (substitution_store 5 _ C H5) as [Hnon _].
  destruct (Hnon eq_refl) as [Hg5 Hs5].
  split_and!; [exact Hget| |exact Hg5|exact (Hs5 Subs)].
  exists C'. split_and!; [exact Hset'|exact Hget'|exact (Hset2 Subs)].
Defined.

(** C7 on the sample. *)
Lemma identifier_interning_witness :
  getIdentifier "" sample = Ok 0 sample
  ∧ (∃ p C', getIdentifier "Foo" sample = Ok p C' ∧ p ≠ 0 ∧ wf C' ∧ extends sample C')
  ∧ ("Foo" = "Bar" ↔ 6 = 7).
Proof.
  destruct identifier_interning as (Hempty & Hnonempty & Htwo).
  split_and!.
  - exact (Hempty sample).
  - exact (Hnonempty "Foo" sample ltac:(discriminate) wf_sample).
  - destruct (Hnonempty "Foo" sample ltac:(discriminate) wf_sample)
      as (p & C1 & Hx1 & _ & Hwf1 & _).
    assert (p = 6) as -> by (vm_compute in Hx1; congruence).
    assert (∃ C3, getIdentifier "Bar" C1 = Ok 7 C3) as [C3 Hx2].
    { vm_compute in Hx1. injection Hx1 as <-. vm_compute. eauto. }
    exact (proj2 (Htwo "Foo" "Bar" sample 6 C1 C1 7 C3
                       ltac:(discriminate) ltac:(discriminate)
                       wf_sample Hx1 Hwf1 (extends_refl C1) Hx2)).
Defined.

(** C8 on the sample: a polymorphic function over the integer type is
    placed at 6; over the type variable the assertion is tripped. *)
Lemma polymorphic_function_always_fresh_witness :
  (∃ T, PolymorphicFunctionType_get 2 2 0 sample
        = Ok 6 (set_Allocator (λ A, A ++ [TypeObj T]) sample) ∧
        ∃ T2, PolymorphicFunctionType_get 2 2 0
                (set_Allocator (λ A, A ++ [TypeObj T]) sample)
              = Ok 7 (set_Allocator (λ A, A ++ [TypeObj T2])
                        (set_Allocator (λ A, A ++ [TypeObj T]) sample)))
  ∧ PolymorphicFunctionType_get 1 2 0 sample
    = AssertFailed "!input->hasTypeVariable() && !output->hasTypeVariable()".
Proof.
  assert (derefType (Allocator sample) 2
          = Some (mkType BuiltinInteger true false false (PInteger 32))) as H2
    by (vm_compute; reflexivity).
  assert (derefType (Allocator sample) 1 = Some aTypeVariable) as H1
    by (vm_compute; reflexivity).
  split.
  - destruct (polymorphic_function_always_fresh 2 2 0 sample _ _ H2 H2) as [_ Hok].
    destruct (Hok eq_refl) as (T & Hget & _ & _ & _ & Hlater).
    exists T. split; [exact Hget|].
    destruct (Hlater _ (extends_refl _)) as (T2 & Hget2 & _).
    exists T2. exact Hget2.
  - destruct (polymorphic_function_always_fresh 1 2 0 sample _ _ H1 H2) as [Hfail _].
    exact (Hfail eq_refl).
Defined.

(** C9 on the sample. *)
Lemma array_size_precondition_witness :
  ArrayType_get 2 0 sample = AssertFailed "Size != 0"
  ∧ ∃ p C', ArrayType_get 2 3 sample = Ok p C' ∧ ArrayType_get 2 3 C' = Ok p C'
            ∧ ArrayTypes C' !! (2, 3%N) = Some p.
Proof.
  destruct (array_size_precondition 2) as (Hzero & _ & Hpos).
  split; [exact (Hzero sample)|].
  destruct (Hpos 3%N sample (mkType BuiltinInteger true false false (PInteger 32))
              ltac:(discriminate) wf_sample ltac:(vm_compute; reflexivity))
    as (p & C' & Hget & _ & _ & Hent & _ & Hlater).
  exists p, C'. split_and!; [exact Hget| |exact Hent].
  exact (proj1 (Hlater C' (extends_refl C'))).
Defined.

(** ** The further properties on the sample *)

Lemma built_sample : built sample.
Proof. split; intros k p Hk; vm_compute in Hk; discriminate. Qed.

Lemma wf_sampleU : wf sampleU.
Proof. apply wf_Allocate, wf_Allocate, wf_sample. Qed.

Lemma built_sampleU : built sampleU.
Proof.
  apply built_Allocate; [apply wf_Allocate, wf_sample|].
  apply built_Allocate; [apply wf_sample|apply built_sample].
Qed.

(** X1 on the sample: the function type over the integer type is placed
    at 6. *)
Lemma factory_finds_or_builds_witness :
  (after (GetFunction 2 2 false) = sample ∧
   table_entry sample (GetFunction 2 2 false) = Some 6) ∨
  (∃ T, 6 = S (length (Allocator sample)) ∧
        after (GetFunction 2 2 false)
        = record_entry (GetFunction 2 2 false) 6
            (set_Allocator (λ A, A ++ [TypeObj T]) sample) ∧
        Allocator (after (GetFunction 2 2 false)) = Allocator sample ++ [TypeObj T] ∧
        Data T = req_data (GetFunction 2 2 false) ∧
        Kind T ∈ req_kinds (GetFunction 2 2 false) ∧
        (excepted (GetFunction 2 2 false) = false →
         table_entry sample (GetFunction 2 2 false) = None)).
Proof.
  apply (factory_finds_or_builds header0 (GetFunction 2 2 false) sample 6
           (after (GetFunction 2 2 false))).
  - exact wf_sample.
  - vm_compute. reflexivity.
Defined.

(** X2 on the sample: the ordinary function type over the integer type
    leaves the slot of the auto-closure function type alone. *)
Lemma factory_leaves_other_entries_witness :
  (table_entry (after (GetFunction 2 2 false)) (GetFunction 2 2 true)
   = table_entry sample (GetFunction 2 2 true) ∨
   (table_entry (after (GetFunction 2 2 false)) (GetFunction 2 2 true) = Some 6 ∧
    same_slot (GetFunction 2 2 false) (GetFunction 2 2 true))) ∧
  IdentifierTable (after (GetFunction 2 2 false)) = IdentifierTable sample ∧
  BoundGenericSubstitutions (after (GetFunction 2 2 false))
  = BoundGenericSubstitutions sample ∧
  Allocator sample `prefix_of` Allocator (after (GetFunction 2 2 false)).
Proof.
  apply (factory_leaves_other_entries header0 (GetFunction 2 2 false) sample 6
           (after (GetFunction 2 2 false)) (GetFunction 2 2 true)).
  - exact wf_sample.
  - vm_compute. reflexivity.
Defined.

(** X3 on the sample: the function type from the unresolved type to the
    integer type, placed at 8. *)
Lemma unresolved_iff_child_unresolved_witness :
  built (state_of (exec header0 (GetFunction 6 2 false) sampleU)) ∧
  ∃ T, derefType (Allocator (state_of (exec header0 (GetFunction 6 2 false) sampleU))) 8
       = Some T ∧
       ∀ ps, unresolvedChildren (req_data (GetFunction 6 2 false)) = Some ps →
             (Unresolved T = true ↔
              ∃ q Q, q ∈ ps ∧
                     derefType (Allocator (state_of (exec header0 (GetFunction 6 2 false)
                                                       sampleU))) q = Some Q ∧
                     Unresolved Q = true).
Proof.
  apply (unresolved_iff_child_unresolved header0 (GetFunction 6 2 false) sampleU 8
           (state_of (exec header0 (GetFunction 6 2 false) sampleU))).
  - exact wf_sampleU.
  - exact built_sampleU.
  - repeat constructor; unfold allocated; vm_compute; lia.
  - vm_compute. reflexivity.
Defined.

(** X4 on the sample: over the struct declaration at 4 the node is a
    bound generic struct; over the protocol declaration at 7 the [cast]
    fails. *)
Lemma bound_generic_kind_follows_declaration_witness :
  (∃ p C' T, BoundGenericType_get 4 0 [2] sampleU = Ok p C' ∧
             derefType (Allocator C') p = Some T ∧ Kind T = BoundGenericStruct ∧
             Data T = PBoundGeneric 4 0 [2]) ∧
  BoundGenericType_get 7 0 [2] sampleU
  = AssertFailed "cast<Ty>() argument of incompatible type!".
Proof.
  assert (Forall (λ p, is_Some (derefType (Allocator sampleU) p)) [2]) as Hall.
  { repeat constructor. eexists. vm_compute. reflexivity. }
  split.
  - apply (bound_generic_kind_follows_declaration 4 0 [2] DK_Struct sampleU).
    + exact wf_sampleU.
    + exact built_sampleU.
    + vm_compute. reflexivity.
    + left. reflexivity.
    + exact Hall.
  - apply (bound_generic_kind_follows_declaration 7 0 [2] DK_Protocol sampleU).
    + exact wf_sampleU.
    + exact built_sampleU.
    + vm_compute. reflexivity.
    + left. reflexivity.
    + exact Hall.
Defined.

(** X5 on the sample: the struct type and the unbound generic type of
    the struct declaration at 4 are two nodes. *)
Lemma nodes_of_different_factories_differ_witness :
  (∃ T, derefType (Allocator (after (GetStruct 4 0))) 6 = Some T ∧
        Kind T ∈ req_kinds (GetStruct 4 0) ∧ Data T = req_data (GetStruct 4 0)) ∧
  (6 = 7 → req_kinds (GetStruct 4 0) = req_kinds (GetUnboundGeneric 4 0) ∧
           req_data (GetStruct 4 0) = req_data (GetUnboundGeneric 4 0) ∧
           (GetStruct 4 0 = GetUnboundGeneric 4 0 ∨
            ∃ U, req_data (GetStruct 4 0) = PParen U)).
Proof.
  assert (Forall (allocated (Allocator sample)) (req_ptrs (GetStruct 4 0))) as Hall
    by (repeat constructor; apply allocated_sample; lia).
  assert (exec header0 (GetStruct 4 0) sample = Ok 6 (after (GetStruct 4 0))) as Hx
    by (vm_compute; reflexivity).
  apply (nodes_of_different_factories_differ header0 (GetStruct 4 0)
           (GetUnboundGeneric 4 0)
           sample 6 (after (GetStruct 4 0)) (after (GetStruct 4 0)) 7
           (state_of (exec header0 (GetUnboundGeneric 4 0) (after (GetStruct 4 0))))).
  - exact wf_sample.
  - exact Hx.
  - exact (wf_after (GetStruct 4 0) 6 Hall Hx).
  - apply extends_refl.
  - vm_compute. reflexivity.
Defined.

(** X6 on the sample: an array of size zero, and the nominal type of
    the protocol declaration at 7 when its declared type fails. *)
Lemma factory_assertions_witness :
  (0%N = 0%N ∧ "Size != 0" = "Size != 0") ∧
  ∃ DK, derefDecl (Allocator sampleU) 7 = Some DK ∧
        ((DK = DK_Other ∧ "no declared type" = "Not a nominal declaration!") ∨
         (DK = DK_Protocol ∧
          (AssertFailed "no declared type" : Outcome nat)
          = AssertFailed "no declared type")).
Proof.
  destruct (factory_assertions header0 (λ _ _, AssertFailed "no declared type"))
    as [Hexec Hnominal].
  split.
  - apply (Hexec (GetArray 2 0) sample "Size != 0"). vm_compute. reflexivity.
  - apply (Hnominal 7 0 sampleU "no declared type"). vm_compute. reflexivity.
Defined.

(** X7 on the sample: the metatype of the integer type. *)
Lemma valid_request_returns_node_witness :
  ∃ p C' T, exec header0 (GetMetaType 2) sample = Ok p C' ∧ p ≠ 0 ∧
            derefType (Allocator C') p = Some T ∧
            Kind T ∈ req_kinds (GetMetaType 2) ∧ Data T = req_data (GetMetaType 2).
Proof.
  apply (valid_request_returns_node header0 (GetMetaType 2) sample).
  - exact wf_sample.
  - eexists. vm_compute. reflexivity.
Defined.

(** X9 on the sample: a new identifier is placed at 6. *)
Lemma identifier_finds_or_builds_witness :
  (("Foo" = EmptyString ∧ 6 = 0 ∧ state_of (getIdentifier "Foo" sample) = sample) ∨
   ("Foo" ≠ EmptyString ∧ IdentifierTable sample !! "Foo" = Some 6 ∧
    state_of (getIdentifier "Foo" sample) = sample) ∨
   ("Foo" ≠ EmptyString ∧ IdentifierTable sample !! "Foo" = None ∧
    6 = S (length (Allocator sample)) ∧
    state_of (getIdentifier "Foo" sample)
    = set_IdentifierTable <["Foo" := 6]>
        (set_Allocator (λ A, A ++ [KeyDataObj "Foo"]) sample))) ∧
  ("Foo" ≠ EmptyString →
   deref (Allocator (state_of (getIdentifier "Foo" sample))) 6
   = Some (KeyDataObj "Foo")) ∧
  (∀ r, table_entry (state_of (getIdentifier "Foo" sample)) r = table_entry sample r) ∧
  BoundGenericSubstitutions (state_of (getIdentifier "Foo" sample))
  = BoundGenericSubstitutions sample.
Proof.
  apply (identifier_finds_or_builds "Foo" sample 6
           (state_of (getIdentifier "Foo" sample))).
  - exact wf_sample.
  - vm_compute. reflexivity.
Defined.

(** X11 on the sample: a call of [FunctionType::get]. *)
Lemma operations_keep_invariants_witness :
  wf (after (GetFunction 2 2 false)) ∧ built (after (GetFunction 2 2 false)) ∧
  extends sample (after (GetFunction 2 2 false)).
Proof.
  apply (operations_keep_invariants header0 sample (after (GetFunction 2 2 false))).
  - apply (step_exec header0 sample _ (GetFunction 2 2 false) 6).
    + repeat constructor; apply allocated_sample; lia.
    + vm_compute. reflexivity.
  - exact wf_sample.
  - exact built_sample.
Defined.

(** X12 on a fresh context in which an expression handle has been
    placed. *)
Lemma empty_tuple_is_the_singleton_witness :
  TupleType_get header0 [] (state_of (ExprHandle_get 1 fresh0))
  = Ok (TupleType_getEmpty members0) (state_of (ExprHandle_get 1 fresh0)) ∧
  Forall (λ s, ∃ T, derefType (Allocator (state_of (ExprHandle_get 1 fresh0))) s.1.1
                    = Some T ∧
                    Kind T = s.1.2 ∧ Data T = s.2) (singletons members0).
Proof.
  apply (empty_tuple_is_the_singleton header0 members0
           (state_of (ExprHandle_get 1 fresh0))).
  apply (reachable_step header0 members0 fresh0).
  - apply reachable_new. vm_compute. reflexivity.
  - apply (step_Allocate header0 fresh0 _ (ExprHandleObj 1) 15).
    vm_compute. reflexivity.
Defined.

(** X13 on the sample: substitutions for the bound generic struct at 6
    do not change the answer for the integer type at 2. *)
Lemma substitutions_touch_one_key_witness :
  let C := after (GetBoundGeneric 4 0 [2]) in
  let C' := set_BoundGenericSubstitutions <[6 := mkArrayRef 100 1]> C in
  canonical (Allocator C) 6 = true ∧
  BoundGenericSubstitutions C !! 6 = None ∧
  getSubstitutions 2 C' = Ok None C'.
Proof.
  intros C C'.
  destruct (substitutions_touch_one_key 6 (mkArrayRef 100 1) C C'
              ltac:(vm_compute; reflexivity))
    as (Hcan & Hnone & _ & _ & _ & Hother & _).
  split_and!; [exact Hcan|exact Hnone|].
  rewrite (Hother 2 ltac:(lia)). vm_compute. reflexivity.
Defined.

(** X14 on the sample: a new function type does not change the answer
    for the bound generic struct at 6. *)
Lemma factories_keep_substitutions_witness :
  let C := after (GetBoundGeneric 4 0 [2]) in
  let C' := state_of (exec header0 (GetFunction 2 2 false) C) in
  getSubstitutions 6 C' = Ok None C'.
Proof.
  intros C C'.
  assert (Forall (allocated (Allocator sample)) (req_ptrs (GetBoundGeneric 4 0 [2])))
    as Hall by (repeat constructor; apply allocated_sample; lia).
  rewrite (factories_keep_substitutions header0 (GetFunction 2 2 false) C 7 C' 6).
  - vm_compute. reflexivity.
  - exact (wf_after (GetBoundGeneric 4 0 [2]) 6 Hall ltac:(vm_compute; reflexivity)).
  - vm_compute. reflexivity.
  - unfold allocated. vm_compute. lia.
Defined.

(** X15 on the sample: the nominal type of the struct declaration at 4
    is a struct type. *)
Lemma nominal_dispatch_witness :
  let C' := state_of (NominalType_get header0 (λ _, undefined) 4 0 sample) in
  (∃ T, derefType (Allocator C') 6 = Some T ∧ Kind T = Struct ∧
        Data T = PNominal 4 0) ∧
  derefDecl (Allocator C') 4 = Some DK_Struct ∧
  NominalType_get header0 (λ _, undefined) 4 0 C' = Ok 6 C'.
Proof.
  intros C'.
  destruct (nominal_dispatch header0 (λ _, undefined) 4 0 DK_Struct sample wf_sample
              ltac:(vm_compute; reflexivity)) as (_ & _ & Hget).
  apply (Hget Struct 6 C'); [reflexivity|discriminate|vm_compute; reflexivity].
Defined.
